(** * sidus: a converter for Yale Bright Star type catalogs

    A shallow embedding of [src/sidus.cpp] and the properties of its
    binary catalog decoder.

    Conventions of the embedding.
    - The file buffer is a [list byte]; a pointer into it is the buffer
      together with an offset.  Reading outside the buffer has no defined
      result ([Undefined]).
    - [int], [std::int16_t] and [std::int32_t] values are mathematical
      integers kept in range by an explicit two's-complement wrap-around.
    - [float] and [double] values are their IEEE-754 bit patterns, which is
      what [parse] assembles; comparisons are defined on the patterns.
    - A run of the program either completes ([Done]), stops with one of the
      program's diagnostics and a non-zero status ([Fail]), or leaves the
      behaviour the language defines ([Undefined]). *)

From Stdlib Require Import ZArith List Bool Lia String Ascii.
From Stdlib Require Import Strings.Byte.
From Stdlib Require Import Permutation Sorted.
Import ListNotations.
Local Open Scope Z_scope.

(** ** Machine integers *)

Module CInt.

(** Two's-complement reduction to [w] bits. *)
Definition wrap (w z : Z) : Z := (z + 2 ^ (w - 1)) mod 2 ^ w - 2 ^ (w - 1).

Definition to_int16 : Z -> Z := wrap 16.
Definition to_int32 : Z -> Z := wrap 32.

(** Conversion of an [int] to [size_t] (64 bits, unsigned). *)
Definition to_size_t (z : Z) : Z := z mod 2 ^ 64.

Definition INT_MIN : Z := - 2 ^ 31.
Definition INT_MAX : Z := 2 ^ 31 - 1.

(** [int] arithmetic.  [std::abs] and unary minus return the minimum
    [int] unchanged, and products and sums wrap. *)
Definition abs (x : Z) : Z := to_int32 (Z.abs x).
Definition neg (x : Z) : Z := to_int32 (- x).
Definition add (x y : Z) : Z := to_int32 (x + y).
Definition mul (x y : Z) : Z := to_int32 (x * y).

Definition in_int16 (z : Z) : Prop := - 2 ^ 15 <= z < 2 ^ 15.
Definition in_int32 (z : Z) : Prop := INT_MIN <= z <= INT_MAX.

End CInt.

(** ** Outcomes of a run *)

(** The diagnostics the program prints before returning [-1], one
    constructor per message. *)
Inductive diagnostic : Type :=
| EmptyFile                      (* "%s: empty" *)
| NoHeader                       (* "%s: no header" *)
| InvalidHeader                  (* "invalid header" *)
| InvalidHeaderTryBigEndian      (* "invalid header, maybe try big-endian?" *)
| InvalidHeaderTryLittleEndian   (* "invalid header, maybe try little-endian?" *)
| ExpectedJ2000FoundB1950        (* "expected J2000 epoch but found B1950 epoch" *)
| ExpectedB1950FoundJ2000        (* "expected B1950 epoch but found J2000 epoch" *)
| FileTooShort (numStars bytesPerStar filesize need : Z)
                                 (* "... %lu < %d, file too short" *)
| TooFewMagnitudes (found : Z).  (* "expected at least one magnitude per star" *)

Inductive outcome (A : Type) : Type :=
| Done (a : A)
| Fail (e : diagnostic)
| Undefined.

Arguments Done {A} a.
Arguments Fail {A} e.
Arguments Undefined {A}.

Definition bind {A B : Type} (c : outcome A) (k : A -> outcome B) : outcome B :=
  match c with
  | Done a => k a
  | Fail e => Fail e
  | Undefined => Undefined
  end.

Notation "x <- c ;; k" := (bind c (fun x => k))
  (at level 61, c at next level, right associativity).

(** ** The byte buffer *)

Definition buffer : Type := list byte.

Definition byte_val (b : byte) : Z := Z.of_N (Byte.to_N b).

(** [data[p]] for an [unsigned char const*] into the buffer. *)
Definition byte_at (data : buffer) (p : Z) : outcome byte :=
  if p <? 0 then Undefined
  else match nth_error data (Z.to_nat p) with
       | Some b => Done b
       | None => Undefined
       end.

Definition at_ (data : buffer) (p : Z) : outcome Z :=
  b <- byte_at data p ;; Done (byte_val b).

(** ** ByteReader: the four [parse] overloads *)

Definition parse_int16 (data : buffer) (p : Z) (littleEndian : bool) : outcome Z :=
  d0 <- at_ data p ;;
  d1 <- at_ data (p + 1) ;;
  Done (if littleEndian
        then CInt.to_int16 (Z.lor (Z.shiftl d0 0) (Z.shiftl d1 8))
        else CInt.to_int16 (Z.lor (Z.shiftl d0 8) (Z.shiftl d1 0))).

Definition parse_int32 (data : buffer) (p : Z) (littleEndian : bool) : outcome Z :=
  d0 <- at_ data p ;;
  d1 <- at_ data (p + 1) ;;
  d2 <- at_ data (p + 2) ;;
  d3 <- at_ data (p + 3) ;;
  Done (if littleEndian
        then CInt.to_int32
               (Z.lor (Z.lor (Z.lor (Z.shiftl d0 0) (Z.shiftl d1 8))
                             (Z.shiftl d2 16)) (Z.shiftl d3 24))
        else CInt.to_int32
               (Z.lor (Z.lor (Z.lor (Z.shiftl d0 24) (Z.shiftl d1 16))
                             (Z.shiftl d2 8)) (Z.shiftl d3 0))).

(** The bits of a [float]: the [std::uint32_t] that is copied into it. *)
Definition parse_float (data : buffer) (p : Z) (littleEndian : bool) : outcome Z :=
  d0 <- at_ data p ;;
  d1 <- at_ data (p + 1) ;;
  d2 <- at_ data (p + 2) ;;
  d3 <- at_ data (p + 3) ;;
  Done (if littleEndian
        then Z.lor (Z.lor (Z.lor (Z.shiftl d0 0) (Z.shiftl d1 8))
                          (Z.shiftl d2 16)) (Z.shiftl d3 24)
        else Z.lor (Z.lor (Z.lor (Z.shiftl d0 24) (Z.shiftl d1 16))
                          (Z.shiftl d2 8)) (Z.shiftl d3 0)).

(** The bits of a [double]: the [std::uint64_t] that is copied into it. *)
Definition parse_double (data : buffer) (p : Z) (littleEndian : bool) : outcome Z :=
  d0 <- at_ data p ;;
  d1 <- at_ data (p + 1) ;;
  d2 <- at_ data (p + 2) ;;
  d3 <- at_ data (p + 3) ;;
  d4 <- at_ data (p + 4) ;;
  d5 <- at_ data (p + 5) ;;
  d6 <- at_ data (p + 6) ;;
  d7 <- at_ data (p + 7) ;;
  Done (if littleEndian
        then Z.lor (Z.lor (Z.lor (Z.lor (Z.lor (Z.lor (Z.lor
               (Z.shiftl d0 0) (Z.shiftl d1 8)) (Z.shiftl d2 16))
               (Z.shiftl d3 24)) (Z.shiftl d4 32)) (Z.shiftl d5 40))
               (Z.shiftl d6 48)) (Z.shiftl d7 56)
        else Z.lor (Z.lor (Z.lor (Z.lor (Z.lor (Z.lor (Z.lor
               (Z.shiftl d0 56) (Z.shiftl d1 48)) (Z.shiftl d2 40))
               (Z.shiftl d3 32)) (Z.shiftl d4 24)) (Z.shiftl d5 16))
               (Z.shiftl d6 8)) (Z.shiftl d7 0)).

(** ** IEEE-754 values as bit patterns *)

Module IEEE.

(** A [float] is its 32-bit pattern and a [double] its 64-bit pattern. *)
Definition f32 : Type := Z.
Definition f64 : Type := Z.

Definition sign64 (x : f64) : bool := 2 ^ 63 <=? x.

(** Exponent and fraction taken together, i.e. the pattern of [|x|]. *)
Definition mag64 (x : f64) : Z := x mod 2 ^ 63.

(** The pattern of [+infinity]; every larger magnitude is a NaN. *)
Definition inf64 : Z := 2047 * 2 ^ 52.

Definition is_nan64 (x : f64) : bool := inf64 <? mag64 x.

(** Finite and infinite doubles are ordered like the sign-magnitude
    integers their patterns spell; [+0] and [-0] share rank [0]. *)
Definition ord64 (x : f64) : Z := if sign64 x then - mag64 x else mag64 x.

(** [a < b] and [a == b] on doubles: false as soon as one side is a NaN. *)
Definition ltb64 (a b : f64) : bool :=
  negb (is_nan64 a) && negb (is_nan64 b) && (ord64 a <? ord64 b).

Definition eqb64 (a b : f64) : bool :=
  negb (is_nan64 a) && negb (is_nan64 b) && (ord64 a =? ord64 b).

Definition leb64 (a b : f64) : bool :=
  negb (is_nan64 a) && negb (is_nan64 b) && (ord64 a <=? ord64 b).

Definition zero64 : f64 := 0.

(** [DBL_MAX], the largest finite double. *)
Definition DBL_MAX : f64 := inf64 - 1.

(** Widening of a [float] to [double]; exact, a NaN is quieted. *)
Definition f64_of_f32 (x : f32) : f64 :=
  let s := x / 2 ^ 31 in
  let e := (x / 2 ^ 23) mod 2 ^ 8 in
  let f := x mod 2 ^ 23 in
  s * 2 ^ 63 +
  (if e =? 255 then
     inf64 + (if f =? 0 then 0 else Z.lor (f * 2 ^ 29) (2 ^ 51))
   else if e =? 0 then
     (if f =? 0 then 0
      else let k := Z.log2 f in
           (k - 149 + 1023) * 2 ^ 52 + (f * 2 ^ (52 - k) - 2 ^ 52))
   else (e - 127 + 1023) * 2 ^ 52 + f * 2 ^ 29).

(** Conversion of an [int] to [double]; exact for every 32-bit value. *)
Definition f64_of_int (i : Z) : f64 :=
  if i =? 0 then 0
  else let a := Z.abs i in
       let k := Z.log2 a in
       (if i <? 0 then 2 ^ 63 else 0)
       + (k + 1023) * 2 ^ 52 + (a * 2 ^ (52 - k) - 2 ^ 52).

(** [(float)(mag) / 100.0f] for a 16-bit [mag]: the conversion is exact
    and the quotient is rounded to the nearest [float], ties to even.
    The quotient of a non-zero [mag] lies in the normal range. *)
Definition f32_div100 (mag : Z) : f32 :=
  if mag =? 0 then 0
  else let a := Z.abs mag in
       let e := Z.log2 (a * 2 ^ 7 / 100) - 7 in
       let n := a * 2 ^ (23 - e) in
       let q := n / 100 in
       let r := n mod 100 in
       let q' := if (100 <? 2 * r) || ((2 * r =? 100) && Z.odd q)
                 then q + 1 else q in
       (if mag <? 0 then 2 ^ 31 else 0) + (e + 127) * 2 ^ 23 + (q' - 2 ^ 23).

End IEEE.

(** ** Data model *)

Module Epoch.
Inductive t : Type := AUTO | J2000 | B1950.
Definition eqb (a b : t) : bool :=
  match a, b with
  | AUTO, AUTO | J2000, J2000 | B1950, B1950 => true
  | _, _ => false
  end.
End Epoch.

Module Endian.
Inductive t : Type := AUTO | LITTLE | BIG.
Definition eqb (a b : t) : bool :=
  match a, b with
  | AUTO, AUTO | LITTLE, LITTLE | BIG, BIG => true
  | _, _ => false
  end.
End Endian.

Module Header.

(** [enum StarId] and [enum ProperMotion].  The header fields are cast
    to these enumerations unchecked, so a field holds any [int]; the
    enumerators are the named values. *)
Definition NO_STAR_ID : Z := 0.
Definition CATALOG_STAR_ID : Z := 1.
Definition GSC_STAR_ID : Z := 2.
Definition TYCHO_STAR_ID : Z := 3.
Definition INTEGER_STAR_ID : Z := 4.

Definition NO_PROPER_MOTION : Z := 0.
Definition PROPER_MOTION : Z := 1.
Definition RADIAL_VELOCITY : Z := 2.

(** [apparentMagnitude] is not written by [parseHeader]; [None] is the
    indeterminate value of the field before [main] assigns it. *)
Record t : Type := mk {
  numStars : Z;
  starId : Z;
  starNameLength : Z;
  properMotion : Z;
  numMagnitudes : Z;
  apparentMagnitude : option Z;
  numBytesPerStar : Z;
  epoch : Epoch.t;
  littleEndian : bool
}.

Definition set_apparentMagnitude (a : Z) (h : t) : t :=
  mk (numStars h) (starId h) (starNameLength h) (properMotion h)
     (numMagnitudes h) (Some a) (numBytesPerStar h) (epoch h)
     (littleEndian h).

End Header.

Module Star.

Record ProperMotion : Type := mkpm {
  pm_rightAscension : IEEE.f32;
  pm_declination : IEEE.f32
}.

Record t : Type := mk {
  name : list byte;
  rightAscension : IEEE.f64;
  declination : IEEE.f64;
  starId : IEEE.f64;
  magnitude : IEEE.f32;
  properMotion : ProperMotion;
  radialVelocity : IEEE.f64;
  spectralType : list byte
}.

End Star.

(** ** FormatDetector and HeaderDecoder: [parseHeader] *)

(** The byte-order probe that opens [parseHeader]: the magnitude count
    as read and the byte order settled on. *)
Definition probe_endian (data : buffer) (endian : Endian.t)
  : outcome (Z * Endian.t) :=
  match endian with
  | Endian.AUTO =>
      nmag <- parse_int32 data (0 + 4 + 4 + 4 + 4 + 4) true ;;
      if 10 <? CInt.abs nmag then
        nmag <- parse_int32 data (0 + 4 + 4 + 4 + 4 + 4) false ;;
        if 10 <? CInt.abs nmag then Fail InvalidHeader
        else Done (nmag, Endian.BIG)
      else Done (nmag, Endian.LITTLE)
  | Endian.LITTLE =>
      nmag <- parse_int32 data (0 + 4 + 4 + 4 + 4 + 4) true ;;
      if 10 <? CInt.abs nmag then Fail InvalidHeaderTryBigEndian
      else Done (nmag, Endian.LITTLE)
  | Endian.BIG =>
      nmag <- parse_int32 data (0 + 4 + 4 + 4 + 4 + 4) false ;;
      if 10 <? CInt.abs nmag then Fail InvalidHeaderTryLittleEndian
      else Done (nmag, Endian.BIG)
  end.

(** The assignments that end [parseHeader]: the header made of the fields
    read and the byte order settled on. *)
Definition header_of (starn stnum mprop nmag nbent : Z) (littleEndian : bool)
  : Header.t :=
  {| Header.numStars := CInt.abs starn;
     Header.starId := if stnum <? 0 then Header.NO_STAR_ID else stnum;
     Header.starNameLength := if stnum <? 0 then CInt.neg stnum else 0;
     Header.properMotion := mprop;
     Header.numMagnitudes := CInt.abs nmag;
     Header.apparentMagnitude := None;
     Header.numBytesPerStar := nbent;
     Header.epoch := if (starn <? 0) || (nmag <? 0)
                     then Epoch.J2000 else Epoch.B1950;
     Header.littleEndian := littleEndian |}.

Definition parseHeader (data : buffer) (epoch : Epoch.t) (endian : Endian.t)
  : outcome Header.t :=
  probe <- probe_endian data endian ;;
  let nmag := fst probe in
  let littleEndian := Endian.eqb (snd probe) Endian.LITTLE in
  starn <- parse_int32 data (0 + 4 + 4) littleEndian ;;
  stnum <- parse_int32 data (0 + 4 + 4 + 4) littleEndian ;;
  mprop <- parse_int32 data (0 + 4 + 4 + 4 + 4) littleEndian ;;
  nbent <- parse_int32 data (0 + 4 + 4 + 4 + 4 + 4 + 4) littleEndian ;;
  let isJ2000 := (starn <? 0) || (nmag <? 0) in
  if Epoch.eqb epoch Epoch.J2000 && negb isJ2000 then
    Fail ExpectedJ2000FoundB1950
  else if Epoch.eqb epoch Epoch.B1950 && isJ2000 then
    Fail ExpectedB1950FoundJ2000
  else
    Done (header_of starn stnum mprop nmag nbent littleEndian).

(** ** RecordDecoder: [parseStar] *)

Definition is_nul (b : byte) : bool := Byte.eqb b x00.

(** The characters of a NUL-terminated array, i.e. what constructing a
    [std::string] from a [char*] keeps. *)
Fixpoint c_str (a : list byte) : list byte :=
  match a with
  | [] => []
  | c :: a' => if is_nul c then [] else c :: c_str a'
  end.

(** [std::strncpy(dest, data + p, n)]: the [n] characters written to
    [dest].  Copying stops reading the source at its first NUL and pads
    the destination with NULs. *)
Fixpoint strncpy (data : buffer) (p : Z) (n : nat) : outcome (list byte) :=
  match n with
  | O => Done []
  | S n' =>
      c <- byte_at data p ;;
      if is_nul c then Done (repeat x00 n)
      else rest <- strncpy data (p + 1) n' ;; Done (c :: rest)
  end.

Section ParseStar.

Variable header : Header.t.
Variable data : buffer.
(** [p] is the offset of the record: the [data] argument of [parseStar]
    is [data.get() + p]. *)
Variable p : Z.

(** The loop over the magnitude fields, [n] iterations left. *)
Fixpoint magnitudes (n : nat) (i cursor : Z) (mag : option Z)
  : outcome (option Z * Z) :=
  match n with
  | O => Done (mag, cursor)
  | S n' =>
      match Header.apparentMagnitude header with
      | None => Undefined
      | Some a =>
          mag' <- (if i =? a
                   then m <- parse_int16 data (p + cursor)
                               (Header.littleEndian header) ;;
                        Done (Some m)
                   else Done mag) ;;
          magnitudes n' (i + 1) (CInt.add cursor 2) mag'
      end
  end.

Definition parseStar : outcome Star.t :=
  let littleEndian := Header.littleEndian header in
  let cursor := 0 in
  idf <-
    (if (Header.starId header =? Header.CATALOG_STAR_ID)
        || (Header.starId header =? Header.GSC_STAR_ID)
        || (Header.starId header =? Header.TYCHO_STAR_ID)
     then xno2 <- parse_float data (p + cursor) littleEndian ;;
          Done (IEEE.f64_of_f32 xno2, cursor + 4)
     else if Header.starId header =? Header.INTEGER_STAR_ID
     then xno2 <- parse_int32 data (p + cursor) littleEndian ;;
          Done (IEEE.f64_of_int xno2, cursor + 4)
     else Done (IEEE.zero64, cursor)) ;;
  let xno := fst idf in
  let cursor := snd idf in
  ra <- parse_double data (p + cursor) littleEndian ;;
  let cursor := cursor + 8 in
  decl <- parse_double data (p + cursor) littleEndian ;;
  let cursor := cursor + 8 in
  isp0 <- byte_at data (p + cursor) ;;
  let cursor := cursor + 1 in
  isp1 <- byte_at data (p + cursor) ;;
  let cursor := cursor + 1 in
  mc <- magnitudes (Z.to_nat (Header.numMagnitudes header)) 0 cursor None ;;
  let mag := fst mc in
  let cursor := snd mc in
  pmf <-
    (if Header.properMotion header =? Header.PROPER_MOTION
     then xrpm <- parse_float data (p + cursor) littleEndian ;;
          xdpm <- parse_float data (p + (cursor + 4)) littleEndian ;;
          Done (xrpm, xdpm, IEEE.zero64, cursor + 4 + 4)
     else if Header.properMotion header =? Header.RADIAL_VELOCITY
     then svel <- parse_double data (p + cursor) littleEndian ;;
          Done (0, 0, svel, cursor + 8)
     else Done (0, 0, IEEE.zero64, cursor)) ;;
  let '(xrpm, xdpm, svel, cursor) := pmf in
  (* char starname[header.starNameLength + 1] *)
  if CInt.add (Header.starNameLength header) 1 <=? 0 then Undefined
  else
    copied <-
      (if 0 <? Header.starNameLength header
       then strncpy data (p + cursor) (Z.to_nat (Header.starNameLength header))
       else Done []) ;;
    let starname := copied ++ [x00] in
    match mag with
    | None => Undefined   (* [mag] is read without having been assigned *)
    | Some mag =>
        Done {| Star.name := c_str starname;
                Star.rightAscension := ra;
                Star.declination := decl;
                Star.starId := xno;
                Star.magnitude := IEEE.f32_div100 mag;
                Star.properMotion := Star.mkpm xrpm xdpm;
                Star.radialVelocity := svel;
                Star.spectralType := [isp0; isp1; x00] |}
    end.

End ParseStar.

(** ** Identifier sanitization: [sanitizeForC] *)

(** Character classification in the "C" locale, the only locale the
    program runs in.  A [char] is taken by its code, 0..255; codes above
    127 are in no class and are left alone by [tolower]. *)
Definition tolower (c : ascii) : ascii :=
  let n := nat_of_ascii c in
  if (65 <=? n)%nat && (n <=? 90)%nat then ascii_of_nat (n + 32) else c.

Definition isalpha (c : ascii) : bool :=
  let n := nat_of_ascii c in
  ((65 <=? n)%nat && (n <=? 90)%nat) || ((97 <=? n)%nat && (n <=? 122)%nat).

Definition isdigit (c : ascii) : bool :=
  let n := nat_of_ascii c in (48 <=? n)%nat && (n <=? 57)%nat.

Definition isalnum (c : ascii) : bool := isalpha c || isdigit c.

(** The loop of [sanitizeForC] from index [i] on; it ends at the
    terminating NUL of the C string. *)
Fixpoint sanitize_from (i : nat) (cs : string) : string :=
  match cs with
  | EmptyString => EmptyString
  | String ch cs' =>
      if Ascii.eqb ch zero then EmptyString
      else
        let c := tolower ch in
        String (if (i =? 0)%nat
                then (if isalpha c then c else "x"%char)
                else (if isalnum c then c else "_"%char))
               (sanitize_from (S i) cs')
  end.

Definition sanitizeForC (cs : string) : string := sanitize_from 0 cs.

(** ** Serializer *)

(** What is written to standard output, one item per conversion or run of
    literal text.  The digits [printf] produces for a floating-point
    conversion are a function of the precision, the flag and the value,
    which the item records. *)
Inductive field : Type :=
| Lit (s : string)                                 (* literal text *)
| Chars (s : list byte)                            (* %s, %c of catalog bytes *)
| Text (s : string)                                (* %s of a program string *)
| Fixed (digits : nat) (space : bool) (x : IEEE.f64) (* %.9f, % .17lf, ... *)
| Dec (n : Z).                                     (* %d, %u *)

Definition nl : string := String (ascii_of_nat 10) EmptyString.
Definition tab : string := String (ascii_of_nat 9) EmptyString.
Definition dq : string := String (ascii_of_nat 34) EmptyString.

Local Open Scope string_scope.

Definition printCHeader (inputfile : string) (numStars : Z) (epoch : Epoch.t)
           (usefloat usename usetype : bool) : list field :=
  let var := sanitizeForC inputfile in
  let epochstr := if Epoch.eqb epoch Epoch.J2000 then "J2000" else "B1950" in
  let real := if usefloat then "float" else "double" in
  [ Lit ("/*" ++ nl ++ " * Auto-generated from catalog "); Text inputfile;
    Lit (" by the sidus program" ++ nl ++ " *" ++ nl ++ " * Do this:" ++ nl
         ++ " *   #define SIDUS_IMPLEMENTATION" ++ nl
         ++ " * before you include this file in *one* C or C++ file to create the implementation"
         ++ nl ++ " *" ++ nl ++ " */" ++ nl ++ nl);
    Lit "#ifndef "; Text var; Lit ("_h" ++ nl ++ "#define "); Text var;
    Lit ("_h" ++ nl ++ nl);
    Lit ("#ifdef __cplusplus" ++ nl ++ "extern " ++ dq ++ "C" ++ dq ++ " {" ++ nl
         ++ "#endif" ++ nl ++ nl);
    Lit ("struct Star {" ++ nl);
    Lit (tab ++ real ++ " rightAscension;" ++ tab ++ "/* radians, "); Text epochstr;
    Lit (" */" ++ nl ++ tab ++ real ++ " declination;" ++ tab ++ "/* radians, ");
    Text epochstr;
    Lit (" */" ++ nl ++ tab ++ real ++ " magnitude;" ++ nl) ]
  ++ (if usename then [Lit (tab ++ "const char *name;" ++ nl)] else [])
  ++ (if usetype then [Lit (tab ++ "const char *type;" ++ nl)] else [])
  ++ [ Lit ("};" ++ nl ++ nl ++ "enum { "); Text var; Lit "_num_stars = ";
       Dec numStars;
       Lit (" };" ++ nl ++ nl ++ "#ifndef SIDUS_IMPLEMENTATION" ++ nl
            ++ "extern const struct Star * ");
       Text var;
       Lit ("_stars;" ++ nl ++ "#else" ++ nl ++ "const struct Star ");
       Text var; Lit "_stars["; Dec numStars; Lit "] = {" ].

Definition printCFooter : list field :=
  [ Lit (nl ++ "};" ++ nl ++ nl ++ "#endif" ++ nl ++ nl ++ "#ifdef __cplusplus" ++ nl
         ++ "}" ++ nl ++ "#endif" ++ nl ++ nl ++ "#endif" ++ nl) ].

(** [print].  The [header] argument of the source is unused there. *)
Definition print (star : Star.t) (idx : Z)
           (cformat usefloat usename usetype : bool) : list field :=
  let digits := if usefloat then 9%nat else 17%nat in
  let mag := IEEE.f64_of_f32 (Star.magnitude star) in
  if cformat then
    (if negb (idx =? 0)%Z then [Lit ", "] else [])
    ++ [ Lit (nl ++ tab ++ "{ "); Fixed digits true (Star.rightAscension star);
         Lit ", "; Fixed digits true (Star.declination star);
         Lit ", "; Fixed digits true mag ]
    ++ (if usename
        then [Lit (", " ++ dq); Chars (Star.name star); Lit dq] else [])
    ++ (if usetype
        then [Lit (", " ++ dq); Chars (c_str (Star.spectralType star)); Lit dq]
        else [])
    ++ [Lit " }"]
  else
    (if usename then [Chars (Star.name star); Lit ","] else [])
    ++ [ Fixed digits false (Star.rightAscension star);
         Lit ","; Fixed digits false (Star.declination star);
         Lit ","; Fixed digits false mag ]
    ++ (if usetype
        then [Lit ","; Chars (firstn 2 (Star.spectralType star))] else [])
    ++ [Lit nl].

Local Close Scope string_scope.

(** ** Pipeline: the [std::multimap<double, Star>] of [main] *)

(** The map is the sequence of its entries in iteration order. *)
Definition multimap : Type := list (IEEE.f64 * Star.t).

(** An entry goes in front of the first entry with a greater key, that is
    after every entry with an equivalent key. *)
Fixpoint upper_insert (k : IEEE.f64) (v : Star.t) (m : multimap) : multimap :=
  match m with
  | [] => [(k, v)]
  | (k', v') :: m' =>
      if IEEE.ltb64 k k' then (k, v) :: m
      else (k', v') :: upper_insert k v m'
  end.

(** [map.insert(std::make_pair(k, v))].  [std::less<double>] is a strict
    weak ordering only without NaN; the container's behaviour with a NaN
    key is not defined. *)
Definition multimap_insert (k : IEEE.f64) (v : Star.t) (m : multimap)
  : outcome multimap :=
  if IEEE.is_nan64 k then Undefined else Done (upper_insert k v m).

Module Sort.
Inductive t : Type := NO | MAG | RA.
End Sort.

Module Options.

(** The variables [main] sets from the command line. *)
Record t : Type := mk {
  apparentMagnitude : Z;
  filterMagnitude : IEEE.f64;
  epoch : Epoch.t;
  cformat : bool;
  endian : Endian.t;
  usefloat : bool;
  onlymeta : bool;
  sort : Sort.t;
  usename : bool;
  usetype : bool;
  inputfile : string
}.

(** Their initial values, for the input file [f]. *)
Definition default (f : string) : t :=
  mk 0 IEEE.DBL_MAX Epoch.AUTO false Endian.AUTO false false Sort.NO
     false false f.

Definition set_apparentMagnitude (a : Z) (o : t) : t :=
  mk a (filterMagnitude o) (epoch o) (cformat o) (endian o) (usefloat o)
     (onlymeta o) (sort o) (usename o) (usetype o) (inputfile o).

Definition set_filterMagnitude (x : IEEE.f64) (o : t) : t :=
  mk (apparentMagnitude o) x (epoch o) (cformat o) (endian o) (usefloat o)
     (onlymeta o) (sort o) (usename o) (usetype o) (inputfile o).

Definition set_onlymeta (b : bool) (o : t) : t :=
  mk (apparentMagnitude o) (filterMagnitude o) (epoch o) (cformat o)
     (endian o) (usefloat o) b (sort o) (usename o) (usetype o) (inputfile o).

Definition set_sort (s : Sort.t) (o : t) : t :=
  mk (apparentMagnitude o) (filterMagnitude o) (epoch o) (cformat o)
     (endian o) (usefloat o) (onlymeta o) s (usename o) (usetype o)
     (inputfile o).

Definition set_usename (b : bool) (o : t) : t :=
  mk (apparentMagnitude o) (filterMagnitude o) (epoch o) (cformat o)
     (endian o) (usefloat o) (onlymeta o) (sort o) b (usetype o) (inputfile o).

End Options.

(** The test for the "invalid" entries catalogs are padded with. *)
Definition all_zero (star : Star.t) : bool :=
  IEEE.eqb64 (IEEE.f64_of_f32 (Star.magnitude star)) IEEE.zero64
  && IEEE.eqb64 (Star.rightAscension star) IEEE.zero64
  && IEEE.eqb64 (Star.declination star) IEEE.zero64.

(** The two filters of the record loop: [true] when the star is skipped. *)
Definition filtered (filterMagnitude : IEEE.f64) (star : Star.t) : bool :=
  IEEE.ltb64 filterMagnitude (IEEE.f64_of_f32 (Star.magnitude star))
  || all_zero star.

(** The key under which record [i] is inserted. *)
Definition sort_key (sort : Sort.t) (i : Z) (star : Star.t) : IEEE.f64 :=
  match sort with
  | Sort.RA => Star.rightAscension star
  | Sort.MAG => IEEE.f64_of_f32 (Star.magnitude star)
  | Sort.NO => IEEE.f64_of_int i
  end.

Section MainLoop.

Variable header : Header.t.
Variable data : buffer.
Variable filterMagnitude : IEEE.f64.
Variable sort : Sort.t.

(** The record loop of [main] with [n] iterations left, at record [i]
    and offset [cursor]. *)
Fixpoint main_loop (n : nat) (i cursor : Z) (map : multimap)
  : outcome multimap :=
  match n with
  | O => Done map
  | S n' =>
      star <- parseStar header data cursor ;;
      map' <- (if filtered filterMagnitude star then Done map
               else multimap_insert (sort_key sort i star) star map) ;;
      main_loop n' (i + 1) (CInt.add cursor (Header.numBytesPerStar header)) map'
  end.

End MainLoop.

(** The calls of [print] over the map, the first of them with index [idx]. *)
Fixpoint print_all (m : multimap) (idx : Z)
         (cformat usefloat usename usetype : bool) : list field :=
  match m with
  | [] => []
  | (_, star) :: m' =>
      print star idx cformat usefloat usename usetype
      ++ print_all m' (idx + 1) cformat usefloat usename usetype
  end.

Local Open Scope string_scope.

(** The summary printed for [-i]. *)
Definition print_meta (header : Header.t) : list field :=
  [ Lit ("Catalog information:" ++ nl ++ " Number of stars: ");
    Dec (Header.numStars header);
    Lit (nl ++ " Id: ");
    Text (if Header.starId header =? Header.NO_STAR_ID then "No"
          else if Header.starId header =? Header.CATALOG_STAR_ID then "Catalog star id"
          else if Header.starId header =? Header.GSC_STAR_ID then "GSC star id"
          else if Header.starId header =? Header.TYCHO_STAR_ID then "Tycho star id"
          else if Header.starId header =? Header.INTEGER_STAR_ID then "Integer star id"
          else "UNKNOWN")%Z;
    Lit (nl ++ " Names: ");
    Text (if (0 <? Header.starNameLength header)%Z then "Yes" else "No");
    Lit (nl ++ " Proper motion: ");
    Text (if Header.properMotion header =? Header.NO_PROPER_MOTION then "No"
          else if Header.properMotion header =? Header.PROPER_MOTION then "Yes"
          else if Header.properMotion header =? Header.RADIAL_VELOCITY
               then "Radial velocity"
          else "UNKNOWN")%Z;
    Lit (nl ++ " Number of magnitudes: ");
    Dec (Header.numMagnitudes header);
    Lit (nl ++ " Epoch: ");
    Text (if Epoch.eqb (Header.epoch header) Epoch.J2000 then "J2000" else "B1950");
    Lit (nl ++ " Bytes per star: ");
    Dec (Header.numBytesPerStar header);
    Lit nl ].

Local Close Scope string_scope.

(** ** [main], from the point where the options are parsed and the file
    has been read into memory: [file] is the content of the input file. *)

(** The header as [main] uses it: decoded, cross-checked against the file
    size, and with the apparent magnitude index assigned. *)
Definition main_header (o : Options.t) (file : buffer) : outcome Header.t :=
  let filesize := Z.of_nat (List.length file) in
  if filesize =? 0 then Fail EmptyFile
  else if filesize <? 28 then Fail NoHeader
  else
    header <- parseHeader file (Options.epoch o) (Options.endian o) ;;
    let starDataSize :=
      CInt.mul (Header.numStars header) (Header.numBytesPerStar header) in
    if filesize <? CInt.to_size_t (CInt.add 28 starDataSize) then
      Fail (FileTooShort (Header.numStars header) (Header.numBytesPerStar header)
                         filesize (CInt.add 28 starDataSize))
    else if Header.numMagnitudes header <? 1 then
      Fail (TooFewMagnitudes (Header.numMagnitudes header))
    else
      Done (Header.set_apparentMagnitude
              (Z.min (Header.numMagnitudes header - 1) (Header.numMagnitudes header))
              header).

(** The stars [main] collects, in map order. *)
Definition main_stars (o : Options.t) (file : buffer) : outcome multimap :=
  header <- main_header o file ;;
  main_loop header file (Options.filterMagnitude o) (Options.sort o)
            (Z.to_nat (Header.numStars header)) 0 28 [].

Definition main (o : Options.t) (file : buffer) : outcome (list field) :=
  header <- main_header o file ;;
  let usename :=
    if Header.starNameLength header =? 0 then false else Options.usename o in
  if Options.onlymeta o then Done (print_meta header)
  else
    map <- main_loop header file (Options.filterMagnitude o) (Options.sort o)
                     (Z.to_nat (Header.numStars header)) 0 28 [] ;;
    Done ((if Options.cformat o
           then printCHeader (Options.inputfile o) (Z.of_nat (List.length map))
                             (Header.epoch header) (Options.usefloat o)
                             usename (Options.usetype o)
           else [])
          ++ print_all map 0 (Options.cformat o) (Options.usefloat o)
                       usename (Options.usetype o)
          ++ (if Options.cformat o then printCFooter else [])).

(** ** Vocabulary of the properties

    What follows is not in the program: these definitions name the things
    the properties of its decoder speak about. *)

(** *** The layout of a record *)

(** The bytes [parseStar] has consumed when it reaches the name: the
    identifier if any, two doubles, the spectral type, every magnitude
    field, and the motion fields if any. *)
Definition id_bytes (header : Header.t) : Z :=
  if (Header.starId header =? Header.CATALOG_STAR_ID)
     || (Header.starId header =? Header.GSC_STAR_ID)
     || (Header.starId header =? Header.TYCHO_STAR_ID)
     || (Header.starId header =? Header.INTEGER_STAR_ID)
  then 4 else 0.

Definition motion_bytes (header : Header.t) : Z :=
  if (Header.properMotion header =? Header.PROPER_MOTION)
     || (Header.properMotion header =? Header.RADIAL_VELOCITY)
  then 8 else 0.

Definition magnitudes_offset (header : Header.t) : Z :=
  id_bytes header + 8 + 8 + 2.

Definition name_offset (header : Header.t) : Z :=
  magnitudes_offset header + 2 * Header.numMagnitudes header
  + motion_bytes header.

(** The name field of the record at [p]: the declared number of bytes at
    the name position, as far as the buffer goes. *)
Definition name_field (header : Header.t) (data : buffer) (p : Z) : list byte :=
  firstn (Z.to_nat (Header.starNameLength header))
         (skipn (Z.to_nat (p + name_offset header)) data).

(** *** Identifiers *)

(** An identifier: an alphabetic character followed by alphanumeric
    characters and underscores. *)
Definition is_ident_rest (c : ascii) : bool := isalnum c || Ascii.eqb c "_".

Fixpoint all_chars (f : ascii -> bool) (s : string) : bool :=
  match s with
  | EmptyString => true
  | String c s' => f c && all_chars f s'
  end.

Definition is_identifier (s : string) : bool :=
  match s with
  | EmptyString => false
  | String c s' => isalpha c && all_chars is_ident_rest s'
  end.

(** The C string at [cs] is empty: its first character is the NUL. *)
Definition c_empty (cs : string) : bool :=
  match cs with
  | EmptyString => true
  | String c _ => Ascii.eqb c zero
  end.

(** *** The pipeline

    The records of the catalog in index order, the ones that pass the
    filters, and what it means for the output to be a stable ordering of
    them. *)

(** [parseStar] at each of [n] records from offset [cursor] on. *)
Fixpoint records (header : Header.t) (data : buffer) (n : nat) (cursor : Z)
  : outcome (list Star.t) :=
  match n with
  | O => Done []
  | S n' =>
      star <- parseStar header data cursor ;;
      rest <- records header data n'
                      (CInt.add cursor (Header.numBytesPerStar header)) ;;
      Done (star :: rest)
  end.

Definition survivors (filterMagnitude : IEEE.f64) (stars : list Star.t)
  : list Star.t :=
  filter (fun s => negb (filtered filterMagnitude s)) stars.

(** The insertions the loop makes for the records [stars], the first of
    which has index [i]. *)
Fixpoint insert_all (filterMagnitude : IEEE.f64) (sort : Sort.t) (i : Z)
         (stars : list Star.t) (map : multimap) : multimap :=
  match stars with
  | [] => map
  | s :: rest =>
      insert_all filterMagnitude sort (i + 1) rest
                 (if filtered filterMagnitude s then map
                  else upper_insert (sort_key sort i s) s map)
  end.

(** No surviving record has a NaN for key. *)
Fixpoint keys_ordered (filterMagnitude : IEEE.f64) (sort : Sort.t) (i : Z)
         (stars : list Star.t) : bool :=
  match stars with
  | [] => true
  | s :: rest =>
      (filtered filterMagnitude s || negb (IEEE.is_nan64 (sort_key sort i s)))
      && keys_ordered filterMagnitude sort (i + 1) rest
  end.

(** [out] holds the records [surv] in ascending order of [key]; any two
    of its keys are comparable; and the records of equal key are in the
    order they have in [surv]. *)
Definition stable_ordering (key : Star.t -> IEEE.f64)
           (surv out : list Star.t) : Prop :=
  Permutation out surv
  /\ StronglySorted (fun a b => IEEE.leb64 (key a) (key b) = true) out
  /\ (forall a b, In a out -> In b out ->
                  IEEE.leb64 (key a) (key b) = true
                  \/ IEEE.leb64 (key b) (key a) = true)
  /\ forall k, filter (fun s => IEEE.eqb64 (key s) k) out
               = filter (fun s => IEEE.eqb64 (key s) k) surv.

(** A map whose keys are ordered: no NaN among them, and ascending. *)
Definition keys_ok (m : multimap) : Prop :=
  Forall (fun e => IEEE.is_nan64 (fst e) = false) m.

Definition ascending (m : multimap) : Prop :=
  StronglySorted (fun x y => IEEE.ord64 (fst x) <= IEEE.ord64 (fst y)) m.

(** Every entry is filed under the key of its record. *)
Definition consistent (key : Star.t -> IEEE.f64) (m : multimap) : Prop :=
  Forall (fun e => fst e = key (snd e)) m.

Definition entries (key : Star.t -> IEEE.f64) (l : list Star.t) : multimap :=
  List.map (fun s => (key s, s)) l.

(** ** Sample catalogs *)

(** Little-endian, J2000 (star count -2), names of length 3, one magnitude,
    stride 23; two records [(1.234567890123456, -0.987654321098765, "G2",
    450, "ABC")]. *)
Definition catalog_abc : buffer :=
  [ x00; x00; x00; x00; x00; x00; x00; x00; xfe; xff; xff; xff; xfd; xff;
    xff; xff; x00; x00; x00; x00; x01; x00; x00; x00; x17; x00; x00; x00;
    xf8; x59; x8c; x42; xca; xc0; xf3; x3f; xb5; xe9; x1b; x3c; xdd; x9a;
    xef; xbf; x47; x32; xc2; x01; x41; x42; x43; xf8; x59; x8c; x42; xca;
    xc0; xf3; x3f; xb5; xe9; x1b; x3c; xdd; x9a; xef; xbf; x47; x32; xc2;
    x01; x41; x42; x43 ].

(** Little-endian, id-spec 7 and motion flag 5, one magnitude, stride 20;
    one record [(0.5, 0.25, "K0", 300)]. *)
Definition catalog_unknown_kinds : buffer :=
  [ x00; x00; x00; x00; x00; x00; x00; x00; x01; x00; x00; x00; x07; x00;
    x00; x00; x05; x00; x00; x00; x01; x00; x00; x00; x14; x00; x00; x00;
    x00; x00; x00; x00; x00; x00; xe0; x3f; x00; x00; x00; x00; x00; x00;
    xd0; x3f; x4b; x30; x2c; x01 ].

(** A header written big-endian: star count 1, id-spec 1, motion flag 0,
    magnitude count -1, stride 24. *)
Definition header_be_minus1 : buffer :=
  [ x00; x00; x00; x00; x00; x00; x00; x00; x00; x00; x00; x01; x00; x00;
    x00; x01; x00; x00; x00; x00; xff; xff; xff; xff; x00; x00; x00; x18 ].

(** A header written big-endian: star count 0, id-spec 1, motion flag 0,
    magnitude count 1, stride 24. *)
Definition header_be_one : buffer :=
  [ x00; x00; x00; x00; x00; x00; x00; x00; x00; x00; x00; x00; x00; x00;
    x00; x01; x00; x00; x00; x00; x00; x00; x00; x01; x00; x00; x00; x18 ].

(** A header whose magnitude count reads 65792 in both byte orders. *)
Definition header_ambiguous : buffer :=
  [ x00; x00; x00; x00; x00; x00; x00; x00; x00; x00; x00; x00; x01; x00;
    x00; x00; x00; x00; x00; x00; x00; x01; x01; x00; x18; x00; x00; x00 ].

(** Little-endian, B1950, catalog ids, two magnitudes, stride 26; one record
    [(id 1.0, 0.5, 0.25, "A0", magnitudes 450 and 300)]. *)
Definition catalog_two_magnitudes : buffer :=
  [ x00; x00; x00; x00; x00; x00; x00; x00; x01; x00; x00; x00; x01; x00;
    x00; x00; x00; x00; x00; x00; x02; x00; x00; x00; x1a; x00; x00; x00;
    x00; x00; x80; x3f; x00; x00; x00; x00; x00; x00; xe0; x3f; x00; x00;
    x00; x00; x00; x00; xd0; x3f; x41; x30; xc2; x01; x2c; x01 ].

(** A file of 28 bytes declaring 65536 stars of 65536 bytes each. *)
Definition header_overflow : buffer :=
  [ x00; x00; x00; x00; x00; x00; x00; x00; x00; x00; x01; x00; x01; x00;
    x00; x00; x00; x00; x00; x00; x01; x00; x00; x00; x00; x00; x01; x00 ].

(** Little-endian, names of length 3, one magnitude, stride 23; one record
    whose name field holds the bytes 41 00 42. *)
Definition catalog_nul_name : buffer :=
  [ x00; x00; x00; x00; x00; x00; x00; x00; x01; x00; x00; x00; xfd; xff;
    xff; xff; x00; x00; x00; x00; x01; x00; x00; x00; x17; x00; x00; x00;
    x00; x00; x00; x00; x00; x00; xe0; x3f; x00; x00; x00; x00; x00; x00;
    xd0; x3f; x4d; x31; xc2; x01; x41; x00; x42 ].

(** Little-endian, names of length 1, one magnitude, stride 21; five records
    (right ascension, magnitude, name): (2.0, 300, a), (1.0, 500, b),
    (2.0, 300, c), (0.0, 0, z) with zero declination, (1.0, 100, d). *)
Definition catalog_unsorted : buffer :=
  [ x00; x00; x00; x00; x00; x00; x00; x00; x05; x00; x00; x00; xff; xff;
    xff; xff; x00; x00; x00; x00; x01; x00; x00; x00; x15; x00; x00; x00;
    x00; x00; x00; x00; x00; x00; x00; x40; x00; x00; x00; x00; x00; x00;
    x00; x00; x46; x35; x2c; x01; x61; x00; x00; x00; x00; x00; x00; xf0;
    x3f; x00; x00; x00; x00; x00; x00; x00; x00; x46; x35; xf4; x01; x62;
    x00; x00; x00; x00; x00; x00; x00; x40; x00; x00; x00; x00; x00; x00;
    x00; x00; x46; x35; x2c; x01; x63; x00; x00; x00; x00; x00; x00; x00;
    x00; x00; x00; x00; x00; x00; x00; x00; x00; x46; x35; x00; x00; x7a;
    x00; x00; x00; x00; x00; x00; xf0; x3f; x00; x00; x00; x00; x00; x00;
    x00; x00; x46; x35; x64; x00; x64 ].

(** Little-endian, names of length 1, one magnitude, stride 21; two records
    (right ascension, magnitude, name): (NaN, 100, n), (1.0, 200, o), both
    with declination 0.5. *)
Definition catalog_nan : buffer :=
  [ x00; x00; x00; x00; x00; x00; x00; x00; x02; x00; x00; x00; xff; xff;
    xff; xff; x00; x00; x00; x00; x01; x00; x00; x00; x15; x00; x00; x00;
    x00; x00; x00; x00; x00; x00; xf8; x7f; x00; x00; x00; x00; x00; x00;
    xe0; x3f; x46; x35; x64; x00; x6e; x00; x00; x00; x00; x00; x00; xf0;
    x3f; x00; x00; x00; x00; x00; x00; xe0; x3f; x46; x35; xc8; x00; x6f ].

(** Little-endian, star count 1, no id and no name, one magnitude, stride
    -8 (FF FF FF F8 read as unsigned); one record [(0.5, 0.25, "K0", 300)]. *)
Definition catalog_negative_stride : buffer :=
  [ x00; x00; x00; x00; x00; x00; x00; x00; x01; x00; x00; x00; x00; x00;
    x00; x00; x00; x00; x00; x00; x01; x00; x00; x00; xf8; xff; xff; xff;
    x00; x00; x00; x00; x00; x00; xe0; x3f; x00; x00; x00; x00; x00; x00;
    xd0; x3f; x4b; x30; x2c; x01 ].

(** A header whose magnitude count reads -2^31 little-endian and 128
    big-endian. *)
Definition header_int_min : buffer :=
  [ x00; x00; x00; x00; x00; x00; x00; x00; x00; x00; x00; x00; x01; x00;
    x00; x00; x00; x00; x00; x00; x00; x00; x00; x80; x18; x00; x00; x00 ].

(** ** Further vocabulary *)

(** *** Bytes and the values they spell *)

(** The [n] bytes of the buffer from offset [p] on, as far as it goes. *)
Definition slice (data : buffer) (p : Z) (n : nat) : list byte :=
  firstn n (skipn (Z.to_nat p) data).

(** The number a byte sequence spells, least significant byte first. *)
Fixpoint unsigned_le (bs : list byte) : Z :=
  match bs with
  | [] => 0
  | b :: bs' => byte_val b + 256 * unsigned_le bs'
  end.

(** The bytes of a field, least significant first, for either byte order
    of the file. *)
Definition least_first (littleEndian : bool) (bs : list byte) : list byte :=
  if littleEndian then bs else rev bs.

(** The two's-complement reading of a [w]-bit pattern. *)
Definition signed (w u : Z) : Z := if u <? 2 ^ (w - 1) then u else u - 2 ^ w.

(** *** Headers *)

(** The byte-order hint that names an order. *)
Definition endian_named (littleEndian : bool) : Endian.t :=
  if littleEndian then Endian.LITTLE else Endian.BIG.

(** *** Records *)

(** Every byte that can be read at an offset from [p] in [data] can be
    read, with the same value, at that offset from [p'] in [data']. *)
Definition same_bytes (data : buffer) (p : Z) (data' : buffer) (p' : Z) : Prop :=
  forall k b, byte_at data (p + k) = Done b -> byte_at data' (p' + k) = Done b.

(** The header of [catalog_abc] as [main] uses it. *)
Definition header_abc : Header.t :=
  Header.set_apparentMagnitude 0 (header_of (-2) (-3) 0 1 23 true).

(** *** Strings and output *)

(** [strlen]: the number of characters before the terminating NUL. *)
Fixpoint strlen (cs : string) : nat :=
  match cs with
  | EmptyString => 0
  | String c cs' => if Ascii.eqb c zero then 0 else S (strlen cs')
  end.

Definition isupper (c : ascii) : bool :=
  let n := nat_of_ascii c in (65 <=? n)%nat && (n <=? 90)%nat.

(** An identifier character in the case [sanitizeForC] produces. *)
Definition is_lower_ident (c : ascii) : bool :=
  is_ident_rest c && negb (isupper c).

(** The floating-point conversions of an output, in order: precision,
    space flag and value of each. *)
Fixpoint numbers (out : list field) : list (nat * bool * IEEE.f64) :=
  match out with
  | [] => []
  | Fixed digits space x :: out' => (digits, space, x) :: numbers out'
  | _ :: out' => numbers out'
  end.





(** The three numbers printed for a star. *)
Definition star_numbers (digits : nat) (space : bool) (star : Star.t)
  : list (nat * bool * IEEE.f64) :=
  [ (digits, space, Star.rightAscension star);
    (digits, space, Star.declination star);
    (digits, space, IEEE.f64_of_f32 (Star.magnitude star)) ].

(** ** Command line: the argument loop of [main]

    The part of [main] before the file is opened.  The file system is
    not modelled: [main], above, starts from the content of the file. *)

Definition set_epoch (e : Epoch.t) (o : Options.t) : Options.t :=
  Options.mk (Options.apparentMagnitude o) (Options.filterMagnitude o)
             e (Options.cformat o) (Options.endian o) (Options.usefloat o)
             (Options.onlymeta o) (Options.sort o) (Options.usename o)
             (Options.usetype o) (Options.inputfile o).

Definition set_cformat (b : bool) (o : Options.t) : Options.t :=
  Options.mk (Options.apparentMagnitude o) (Options.filterMagnitude o)
             (Options.epoch o) b (Options.endian o) (Options.usefloat o)
             (Options.onlymeta o) (Options.sort o) (Options.usename o)
             (Options.usetype o) (Options.inputfile o).

Definition set_endian (e : Endian.t) (o : Options.t) : Options.t :=
  Options.mk (Options.apparentMagnitude o) (Options.filterMagnitude o)
             (Options.epoch o) (Options.cformat o) e (Options.usefloat o)
             (Options.onlymeta o) (Options.sort o) (Options.usename o)
             (Options.usetype o) (Options.inputfile o).

Definition set_usefloat (b : bool) (o : Options.t) : Options.t :=
  Options.mk (Options.apparentMagnitude o) (Options.filterMagnitude o)
             (Options.epoch o) (Options.cformat o) (Options.endian o) b
             (Options.onlymeta o) (Options.sort o) (Options.usename o)
             (Options.usetype o) (Options.inputfile o).

Definition set_usetype (b : bool) (o : Options.t) : Options.t :=
  Options.mk (Options.apparentMagnitude o) (Options.filterMagnitude o)
             (Options.epoch o) (Options.cformat o) (Options.endian o)
             (Options.usefloat o) (Options.onlymeta o) (Options.sort o)
             (Options.usename o) b (Options.inputfile o).

Definition set_inputfile (f : string) (o : Options.t) : Options.t :=
  Options.mk (Options.apparentMagnitude o) (Options.filterMagnitude o)
             (Options.epoch o) (Options.cformat o) (Options.endian o)
             (Options.usefloat o) (Options.onlymeta o) (Options.sort o)
             (Options.usename o) (Options.usetype o) f.

(** How a run ends when it ends before the file is opened. *)
Inductive ending : Type :=
| UsageError                     (* usage on stderr; returns -1 *)
| InvalidOption (arg : string)   (* "Invalid option '<arg>'" and usage on stderr; returns -1 *)
| Help                           (* usage on stdout; returns 0 *)
| Version                        (* the version line on stdout; returns 0 *)
| NoInputFile                    (* "sidus: no input file" and usage on stderr; returns -1 *)
| Uncaught                       (* std::stod threw, and nothing catches *)
| NotRepresentable.              (* a double converted to an int it does not fit *)

(** The value [main] returns, when it returns. *)
Definition status (e : ending) : option Z :=
  match e with
  | Help | Version => Some 0
  | UsageError | InvalidOption _ | NoInputFile => Some (-1)
  | Uncaught | NotRepresentable => None
  end.

(** The variables of the loop: the options, whose [inputfile] field
    stands for nothing yet, and the [inputfile] pointer, [None] for
    [nullptr]. *)
Definition variables : Type := Options.t * option string.

Inductive step (A : Type) : Type :=
| Next (a : A)
| Stop (e : ending).
Arguments Next {A} a.
Arguments Stop {A} e.

(** [std::string(argv[i])]: the characters before the first NUL. *)
Fixpoint std_string (cs : string) : string :=
  match cs with
  | EmptyString => EmptyString
  | String c cs' => if Ascii.eqb c zero then EmptyString
                    else String c (std_string cs')
  end.

(** [arg[i]] for [i <= arg.size()]: the character, or NUL at the end. *)
Definition char_at (arg : string) (i : nat) : ascii :=
  match String.get i arg with
  | Some c => c
  | None => zero
  end.

(** [arg.substr(2)] for [2 <= arg.size()]. *)
Definition substr2 (arg : string) : string :=
  String.substring 2 (String.length arg - 2) arg.

Section Arguments.

(** [std::stod], [None] when it throws, and the conversion of its value
    to [int], [None] when the value is out of range. *)
Variable stod : string -> option IEEE.f64.
Variable to_int : IEEE.f64 -> option Z.

Local Open Scope string_scope.
Local Open Scope char_scope.

(** After the [switch], for the cases that leave it with [break]. *)
Definition single_letter (arg : string) (v : variables) : step variables :=
  if negb (String.length arg =? 2)%nat then Stop (InvalidOption arg)
  else Next v.

(** One iteration of the loop over the arguments. *)
Definition parse_argument (argv_i : string) (v : variables) : step variables :=
  let arg := std_string argv_i in
  let o := fst v in
  let inputfile := snd v in
  if Ascii.eqb (char_at arg 0) "-" then
    if (String.length arg <? 2)%nat then Stop UsageError
    else
      let c := char_at arg 1 in
      if Ascii.eqb c "a" then
        if (String.length arg <? 3)%nat then Stop (InvalidOption arg)
        else match stod (substr2 arg) with
             | None => Stop Uncaught
             | Some x =>
                 match to_int x with
                 | None => Stop NotRepresentable
                 | Some a => Next (Options.set_apparentMagnitude a o, inputfile)
                 end
             end
      else if Ascii.eqb c "f" then
        if (String.length arg <? 3)%nat then Stop (InvalidOption arg)
        else match stod (substr2 arg) with
             | None => Stop Uncaught
             | Some x => Next (Options.set_filterMagnitude x o, inputfile)
             end
      else if Ascii.eqb c "B" then
        if (String.length arg <? 3)%nat || negb (String.eqb (substr2 arg) "1950")
        then Stop (InvalidOption arg)
        else Next (set_epoch Epoch.B1950 o, inputfile)
      else if Ascii.eqb c "J" then
        if (String.length arg <? 3)%nat || negb (String.eqb (substr2 arg) "2000")
        then Stop (InvalidOption arg)
        else Next (set_epoch Epoch.J2000 o, inputfile)
      else if Ascii.eqb c "c" then
        single_letter arg (set_cformat true o, inputfile)
      else if Ascii.eqb c "l" then
        if (String.length arg <? 3)%nat || negb (Ascii.eqb (char_at arg 2) "e")
        then Stop (InvalidOption arg)
        else Next (set_endian Endian.LITTLE o, inputfile)
      else if Ascii.eqb c "b" then
        if (String.length arg <? 3)%nat || negb (Ascii.eqb (char_at arg 2) "e")
        then Stop (InvalidOption arg)
        else Next (set_endian Endian.BIG o, inputfile)
      else if Ascii.eqb c "s" then
        single_letter arg (set_usefloat true o, inputfile)
      else if Ascii.eqb c "i" then
        single_letter arg (Options.set_onlymeta true o, inputfile)
      else if Ascii.eqb c "m" then
        single_letter arg (Options.set_sort Sort.MAG o, inputfile)
      else if Ascii.eqb c "r" then
        single_letter arg (Options.set_sort Sort.RA o, inputfile)
      else if Ascii.eqb c "n" then
        single_letter arg (Options.set_usename true o, inputfile)
      else if Ascii.eqb c "p" then
        single_letter arg (set_usetype true o, inputfile)
      else if Ascii.eqb c "h" then Stop Help
      else if Ascii.eqb c "v" then Stop Version
      else if Ascii.eqb c "-" then
        let larg := substr2 arg in
        if String.eqb larg "help" then Stop Help
        else if String.eqb larg "version" then Stop Version
        else Stop UsageError
      else Stop UsageError
  else Next (o, Some argv_i).

(** The loop, over [argv[1]] to [argv[argc - 1]]. *)
Fixpoint parse_arguments (args : list string) (v : variables)
  : step variables :=
  match args with
  | [] => Next v
  | a :: args' =>
      match parse_argument a v with
      | Next v' => parse_arguments args' v'
      | Stop e => Stop e
      end
  end.

(** [main] up to the point where it opens the input file: the options it
    goes on with, or the way it ends. *)
Definition command_line (argv : list string) : step Options.t :=
  match argv with
  | [] => Stop UsageError                                  (* argc < 1 *)
  | _ :: args =>
      match parse_arguments args (Options.default "", None) with
      | Stop e => Stop e
      | Next (o, None) => Stop NoInputFile
      | Next (o, Some f) => Next (set_inputfile f o)
      end
  end.

End Arguments.

(** A sample [std::stod] and conversion, defined on the numerals the
    sample command lines use: 1 and 4.5. *)
Definition stod_sample (s : string) : option IEEE.f64 :=
  if String.eqb s "1" then Some 4607182418800017408
  else if String.eqb s "4.5" then Some 4616752568008179712
  else None.

Definition to_int_sample (x : IEEE.f64) : option Z :=
  if x =? 4607182418800017408 then Some 1
  else if x =? 4616752568008179712 then Some 4
  else None.

(** An argument that is not taken for an option. *)
Definition is_operand (argv_i : string) : bool :=
  negb (Ascii.eqb (char_at (std_string argv_i) 0) "-").

(** The last operand among the arguments, if any. *)
Fixpoint last_operand (args : list string) (found : option string)
  : option string :=
  match args with
  | [] => found
  | a :: args' => last_operand args' (if is_operand a then Some a else found)
  end.

(** The option [flag] is among the arguments. *)
Definition given (flag : string) (args : list string) : bool :=
  existsb (fun a => String.eqb (std_string a) flag) args.

(** *** Runs *)

(** A computation that does not end with a diagnostic. *)
Definition never_fails {A : Type} (c : outcome A) : Prop :=
  forall e, c <> Fail e.

(** The diagnostics of [parseHeader]. *)
Definition header_diagnostic (d : diagnostic) : bool :=
  match d with
  | InvalidHeader | InvalidHeaderTryBigEndian | InvalidHeaderTryLittleEndian
  | ExpectedJ2000FoundB1950 | ExpectedB1950FoundJ2000 => true
  | _ => false
  end.

(** * Properties *)

(** ** The outcome monad *)

Lemma bind_Done {A B : Type} (c : outcome A) (k : A -> outcome B) (b : B) :
  bind c k = Done b -> exists a, c = Done a /\ k a = Done b.
Proof.
  destruct c as [a | e | ]; simpl; intros H; try discriminate.
  exists a; split; [reflexivity | exact H].
Qed.

Lemma Done_inj {A : Type} (a b : A) : Done a = Done b -> a = b.
Proof. intros H. injection H as H. exact H. Qed.

(** Splits a hypothesis [x <- c ;; k = Done b] into the two runs. *)
Ltac inv_bind H :=
  let a := fresh "v" in
  let Ha := fresh "E" in
  apply bind_Done in H; destruct H as (a & Ha & H).

(** ** Machine integers *)

Lemma wrap_range (w z : Z) :
  0 < w -> - 2 ^ (w - 1) <= CInt.wrap w z < 2 ^ (w - 1).
Proof.
  intros Hw. unfold CInt.wrap.
  assert (Hp : 2 ^ w = 2 * 2 ^ (w - 1)).
  { replace w with (Z.succ (w - 1)) at 1 by lia. apply Z.pow_succ_r. lia. }
  assert (0 < 2 ^ (w - 1)) by (apply Z.pow_pos_nonneg; lia).
  pose proof (Z.mod_pos_bound (z + 2 ^ (w - 1)) (2 ^ w)). lia.
Qed.

Lemma to_int16_range (z : Z) : CInt.in_int16 (CInt.to_int16 z).
Proof. apply (wrap_range 16). lia. Qed.

Lemma to_int32_range (z : Z) : CInt.in_int32 (CInt.to_int32 z).
Proof.
  pose proof (wrap_range 32 z). unfold CInt.in_int32, CInt.INT_MIN, CInt.INT_MAX.
  unfold CInt.to_int32. simpl in *. lia.
Qed.

Lemma to_int32_small (z : Z) : CInt.in_int32 z -> CInt.to_int32 z = z.
Proof.
  unfold CInt.in_int32, CInt.INT_MIN, CInt.INT_MAX, CInt.to_int32, CInt.wrap.
  simpl. intros H. rewrite Z.mod_small; lia.
Qed.

(** A 32-bit unsigned pattern read as [int]. *)
Lemma to_int32_unsigned (x : Z) :
  0 <= x < 2 ^ 32 ->
  CInt.to_int32 x = if x <? 2 ^ 31 then x else x - 2 ^ 32.
Proof.
  intros Hx. unfold CInt.to_int32, CInt.wrap.
  change (2 ^ (32 - 1)) with 2147483648. change (2 ^ 32) with 4294967296 in *.
  change (2 ^ 31) with 2147483648.
  destruct (Z.ltb_spec x 2147483648).
  - rewrite Z.mod_small; lia.
  - replace (x + 2147483648) with (x - 2147483648 + 1 * 4294967296) by lia.
    rewrite Z.mod_add by lia. rewrite Z.mod_small; lia.
Qed.

Lemma abs_small (x : Z) : - 2 ^ 31 < x < 2 ^ 31 -> CInt.abs x = Z.abs x.
Proof.
  intros H. unfold CInt.abs. apply to_int32_small.
  unfold CInt.in_int32, CInt.INT_MIN, CInt.INT_MAX. lia.
Qed.

Lemma abs_INT_MIN : CInt.abs CInt.INT_MIN = CInt.INT_MIN.
Proof. reflexivity. Qed.

Lemma abs_in_int32 (x : Z) : CInt.in_int32 (CInt.abs x).
Proof. apply to_int32_range. Qed.

(** ** Bytes and the [parse] overloads *)

Lemma byte_val_range (b : byte) : 0 <= byte_val b < 256.
Proof. unfold byte_val. pose proof (Byte.to_N_bounded b). lia. Qed.

Lemma at_range (data : buffer) (p d : Z) : at_ data p = Done d -> 0 <= d < 256.
Proof.
  unfold at_. intros H. inv_bind H. apply Done_inj in H. subst d.
  apply byte_val_range.
Qed.

Lemma land_low_shiftl (x y n : Z) :
  0 <= n -> 0 <= x < 2 ^ n -> Z.land x (Z.shiftl y n) = 0.
Proof.
  intros Hn Hx. apply Z.bits_inj'. intros i Hi.
  rewrite Z.land_spec, Z.bits_0.
  destruct (Z.lt_ge_cases i n) as [Hlt | Hge].
  - rewrite Z.shiftl_spec_low by lia. apply andb_false_r.
  - destruct (Z.eq_dec x 0) as [-> | Hx0].
    + rewrite Z.bits_0. reflexivity.
    + rewrite (Z.bits_above_log2 x i); [reflexivity | lia | ].
      assert (Z.log2 x < n) by (apply Z.log2_lt_pow2; lia). lia.
Qed.

Lemma lor_low_shiftl (x y n : Z) :
  0 <= n -> 0 <= x < 2 ^ n -> Z.lor x (Z.shiftl y n) = x + y * 2 ^ n.
Proof.
  intros Hn Hx. pose proof (Z.add_lor_land x (Z.shiftl y n)) as H.
  rewrite land_low_shiftl in H by assumption.
  rewrite Z.shiftl_mul_pow2 in * by lia. lia.
Qed.

(** The little-endian and big-endian compositions of four bytes. *)
Lemma lor_le4 (d0 d1 d2 d3 : Z) :
  0 <= d0 < 256 -> 0 <= d1 < 256 -> 0 <= d2 < 256 -> 0 <= d3 < 256 ->
  Z.lor (Z.lor (Z.lor (Z.shiftl d0 0) (Z.shiftl d1 8)) (Z.shiftl d2 16))
        (Z.shiftl d3 24)
  = d0 + d1 * 2 ^ 8 + d2 * 2 ^ 16 + d3 * 2 ^ 24.
Proof.
  intros H0 H1 H2 H3. rewrite Z.shiftl_0_r.
  rewrite (lor_low_shiftl d0 d1 8) by lia.
  rewrite (lor_low_shiftl _ d2 16) by lia.
  rewrite (lor_low_shiftl _ d3 24) by lia. reflexivity.
Qed.

Lemma lor_be4 (d0 d1 d2 d3 : Z) :
  0 <= d0 < 256 -> 0 <= d1 < 256 -> 0 <= d2 < 256 -> 0 <= d3 < 256 ->
  Z.lor (Z.lor (Z.lor (Z.shiftl d0 24) (Z.shiftl d1 16)) (Z.shiftl d2 8))
        (Z.shiftl d3 0)
  = d3 + d2 * 2 ^ 8 + d1 * 2 ^ 16 + d0 * 2 ^ 24.
Proof.
  intros H0 H1 H2 H3.
  rewrite <- (lor_le4 d3 d2 d1 d0) by assumption.
  rewrite (Z.lor_comm (Z.lor (Z.lor (Z.shiftl d0 24) _) _) (Z.shiftl d3 0)).
  rewrite (Z.lor_comm (Z.lor (Z.shiftl d0 24) _) (Z.shiftl d2 8)).
  rewrite (Z.lor_comm (Z.shiftl d0 24) (Z.shiftl d1 16)).
  rewrite !Z.lor_assoc. reflexivity.
Qed.

(** The four bytes of a 32-bit field and its two readings. *)
Lemma parse_int32_bytes (data : buffer) (p : Z) (littleEndian : bool) (v : Z) :
  parse_int32 data p littleEndian = Done v ->
  exists d0 d1 d2 d3,
    at_ data p = Done d0 /\ at_ data (p + 1) = Done d1 /\
    at_ data (p + 2) = Done d2 /\ at_ data (p + 3) = Done d3 /\
    0 <= d0 < 256 /\ 0 <= d1 < 256 /\ 0 <= d2 < 256 /\ 0 <= d3 < 256 /\
    v = CInt.to_int32
          (if littleEndian
           then d0 + d1 * 2 ^ 8 + d2 * 2 ^ 16 + d3 * 2 ^ 24
           else d3 + d2 * 2 ^ 8 + d1 * 2 ^ 16 + d0 * 2 ^ 24).
Proof.
  unfold parse_int32. intros H.
  inv_bind H. inv_bind H. inv_bind H. inv_bind H.
  pose proof (at_range _ _ _ E). pose proof (at_range _ _ _ E0).
  pose proof (at_range _ _ _ E1). pose proof (at_range _ _ _ E2).
  exists v0, v1, v2, v3. repeat (split; [assumption | ]).
  apply Done_inj in H. subst v. destruct littleEndian.
  - rewrite lor_le4 by assumption. reflexivity.
  - rewrite lor_be4 by assumption. reflexivity.
Qed.

Lemma parse_int32_range (data : buffer) (p : Z) (le : bool) (v : Z) :
  parse_int32 data p le = Done v -> CInt.in_int32 v.
Proof.
  intros H. apply parse_int32_bytes in H.
  destruct H as (d0 & d1 & d2 & d3 & _ & _ & _ & _ & _ & _ & _ & _ & ->).
  apply to_int32_range.
Qed.

(** Inside the buffer every read is defined. *)
Lemma at_defined (data : buffer) (p : Z) :
  0 <= p < Z.of_nat (List.length data) -> exists d, at_ data p = Done d.
Proof.
  intros Hp. unfold at_, byte_at.
  destruct (Z.ltb_spec p 0); [lia | ].
  destruct (nth_error data (Z.to_nat p)) as [b | ] eqn:E.
  - exists (byte_val b). reflexivity.
  - apply nth_error_None in E. lia.
Qed.

Lemma parse_int32_defined (data : buffer) (p : Z) (le : bool) :
  0 <= p -> p + 4 <= Z.of_nat (List.length data) ->
  exists v, parse_int32 data p le = Done v.
Proof.
  intros H0 H4. unfold parse_int32.
  destruct (at_defined data p) as (d0 & ->); [lia | ].
  destruct (at_defined data (p + 1)) as (d1 & ->); [lia | ].
  destruct (at_defined data (p + 2)) as (d2 & ->); [lia | ].
  destruct (at_defined data (p + 3)) as (d3 & ->); [lia | ].
  simpl. eexists. reflexivity.
Qed.

(** ** FormatDetector and HeaderDecoder *)

(** Once the probe has settled the byte order and the four other fields
    are read, only the epoch hint can still make decoding fail. *)
Lemma parseHeader_eq (data : buffer) (epoch : Epoch.t) (endian e : Endian.t)
      (nmag starn stnum mprop nbent : Z) :
  probe_endian data endian = Done (nmag, e) ->
  parse_int32 data 8 (Endian.eqb e Endian.LITTLE) = Done starn ->
  parse_int32 data 12 (Endian.eqb e Endian.LITTLE) = Done stnum ->
  parse_int32 data 16 (Endian.eqb e Endian.LITTLE) = Done mprop ->
  parse_int32 data 24 (Endian.eqb e Endian.LITTLE) = Done nbent ->
  parseHeader data epoch endian =
    (if Epoch.eqb epoch Epoch.J2000 && negb ((starn <? 0) || (nmag <? 0)) then
       Fail ExpectedJ2000FoundB1950
     else if Epoch.eqb epoch Epoch.B1950 && ((starn <? 0) || (nmag <? 0)) then
       Fail ExpectedB1950FoundJ2000
     else
       Done (header_of starn stnum mprop nmag nbent (Endian.eqb e Endian.LITTLE))).
Proof.
  intros Hprobe Hstarn Hstnum Hmprop Hnbent.
  unfold parseHeader. rewrite Hprobe. cbn [bind fst snd].
  change (0 + 4 + 4) with 8. change (8 + 4) with 12. change (12 + 4) with 16.
  change (16 + 4) with 20. change (20 + 4) with 24.
  rewrite Hstarn, Hstnum, Hmprop, Hnbent. reflexivity.
Qed.

(** A successful [parseHeader], taken apart. *)
Lemma parseHeader_inv (data : buffer) (epoch : Epoch.t) (endian : Endian.t)
      (h : Header.t) :
  parseHeader data epoch endian = Done h ->
  exists nmag e starn stnum mprop nbent,
    probe_endian data endian = Done (nmag, e) /\
    parse_int32 data 8 (Endian.eqb e Endian.LITTLE) = Done starn /\
    parse_int32 data 12 (Endian.eqb e Endian.LITTLE) = Done stnum /\
    parse_int32 data 16 (Endian.eqb e Endian.LITTLE) = Done mprop /\
    parse_int32 data 24 (Endian.eqb e Endian.LITTLE) = Done nbent /\
    h = header_of starn stnum mprop nmag nbent (Endian.eqb e Endian.LITTLE).
Proof.
  intros H. pose proof H as H'. unfold parseHeader in H.
  inv_bind H. destruct v as [nmag e]. cbn [fst snd] in H.
  inv_bind H. inv_bind H. inv_bind H. inv_bind H.
  exists nmag, e, v, v0, v1, v2.
  rewrite (parseHeader_eq data epoch endian e nmag v v0 v1 v2) in H' by assumption.
  repeat (split; [assumption | ]).
  destruct (Epoch.eqb epoch Epoch.J2000 && negb ((v <? 0) || (nmag <? 0)));
    [discriminate | ].
  destruct (Epoch.eqb epoch Epoch.B1950 && ((v <? 0) || (nmag <? 0)));
    [discriminate | ].
  apply Done_inj in H'. symmetry. exact H'.
Qed.

(** The byte order the probe returns is the one its count was read in. *)
Lemma probe_endian_reading (data : buffer) (endian e : Endian.t) (nmag : Z) :
  probe_endian data endian = Done (nmag, e) ->
  parse_int32 data 20 (Endian.eqb e Endian.LITTLE) = Done nmag
  /\ CInt.abs nmag <= 10.
Proof.
  unfold probe_endian. change (0 + 4 + 4 + 4 + 4 + 4) with 20.
  destruct endian; intros H.
  - inv_bind H. destruct (Z.ltb_spec 10 (CInt.abs v)).
    + inv_bind H. destruct (Z.ltb_spec 10 (CInt.abs v0)); [discriminate | ].
      apply Done_inj in H. injection H as <- <-. split; assumption.
    + apply Done_inj in H. injection H as <- <-. split; assumption.
  - inv_bind H. destruct (Z.ltb_spec 10 (CInt.abs v)); [discriminate | ].
    apply Done_inj in H. injection H as <- <-. split; assumption.
  - inv_bind H. destruct (Z.ltb_spec 10 (CInt.abs v)); [discriminate | ].
    apply Done_inj in H. injection H as <- <-. split; assumption.
Qed.

(** The probe without a hint, case by case. *)
Lemma probe_auto_little (data : buffer) (le : Z) :
  parse_int32 data 20 true = Done le ->
  CInt.abs le <= 10 ->
  probe_endian data Endian.AUTO = Done (le, Endian.LITTLE).
Proof.
  intros Hle Habs. unfold probe_endian. change (0 + 4 + 4 + 4 + 4 + 4) with 20.
  rewrite Hle. cbn [bind].
  destruct (Z.ltb_spec 10 (CInt.abs le)); [lia | reflexivity].
Qed.

Lemma probe_auto_big (data : buffer) (le be : Z) :
  parse_int32 data 20 true = Done le ->
  parse_int32 data 20 false = Done be ->
  10 < CInt.abs le ->
  CInt.abs be <= 10 ->
  probe_endian data Endian.AUTO = Done (be, Endian.BIG).
Proof.
  intros Hle Hbe Hl Hb. unfold probe_endian.
  change (0 + 4 + 4 + 4 + 4 + 4) with 20. rewrite Hle. cbn [bind].
  destruct (Z.ltb_spec 10 (CInt.abs le)); [ | lia].
  rewrite Hbe. cbn [bind].
  destruct (Z.ltb_spec 10 (CInt.abs be)); [lia | reflexivity].
Qed.

Lemma probe_auto_fail (data : buffer) (le be : Z) :
  parse_int32 data 20 true = Done le ->
  parse_int32 data 20 false = Done be ->
  10 < CInt.abs le ->
  10 < CInt.abs be ->
  probe_endian data Endian.AUTO = Fail InvalidHeader.
Proof.
  intros Hle Hbe Hl Hb. unfold probe_endian.
  change (0 + 4 + 4 + 4 + 4 + 4) with 20. rewrite Hle. cbn [bind].
  destruct (Z.ltb_spec 10 (CInt.abs le)); [ | lia].
  rewrite Hbe. cbn [bind].
  destruct (Z.ltb_spec 10 (CInt.abs be)); [reflexivity | lia].
Qed.

(** The two readings of one field are the two compositions of the same
    four bytes. *)
Lemma two_readings (data : buffer) (p le be : Z) :
  parse_int32 data p true = Done le ->
  parse_int32 data p false = Done be ->
  exists d0 d1 d2 d3,
    0 <= d0 < 256 /\ 0 <= d1 < 256 /\ 0 <= d2 < 256 /\ 0 <= d3 < 256 /\
    le = CInt.to_int32 (d0 + d1 * 2 ^ 8 + d2 * 2 ^ 16 + d3 * 2 ^ 24) /\
    be = CInt.to_int32 (d3 + d2 * 2 ^ 8 + d1 * 2 ^ 16 + d0 * 2 ^ 24).
Proof.
  intros Hle Hbe.
  apply parse_int32_bytes in Hle.
  destruct Hle as (d0 & d1 & d2 & d3 & E0 & E1 & E2 & E3 & B0 & B1 & B2 & B3 & Hle).
  apply parse_int32_bytes in Hbe.
  destruct Hbe as (c0 & c1 & c2 & c3 & F0 & F1 & F2 & F3 & _ & _ & _ & _ & Hbe).
  rewrite E0 in F0. rewrite E1 in F1. rewrite E2 in F2. rewrite E3 in F3.
  apply Done_inj in F0, F1, F2, F3. subst c0 c1 c2 c3.
  exists d0, d1, d2, d3. repeat (split; [assumption | ]). assumption.
Qed.

(** A count of magnitude at most 10 other than 0 and -1 is out of the
    probe's bound when its bytes are read in the opposite order. *)
Lemma swapped_reading_large (d0 d1 d2 d3 : Z) :
  0 <= d0 < 256 -> 0 <= d1 < 256 -> 0 <= d2 < 256 -> 0 <= d3 < 256 ->
  let be := CInt.to_int32 (d3 + d2 * 2 ^ 8 + d1 * 2 ^ 16 + d0 * 2 ^ 24) in
  let le := CInt.to_int32 (d0 + d1 * 2 ^ 8 + d2 * 2 ^ 16 + d3 * 2 ^ 24) in
  Z.abs be <= 10 -> be <> 0 -> be <> -1 -> 10 < CInt.abs le.
Proof.
  intros B0 B1 B2 B3 be le. subst be le.
  rewrite !to_int32_unsigned by lia.
  change (2 ^ 8) with 256. change (2 ^ 16) with 65536.
  change (2 ^ 24) with 16777216. change (2 ^ 31) with 2147483648.
  change (2 ^ 32) with 4294967296.
  intros Habs Hn0 Hn1.
  destruct (Z.ltb_spec (d3 + d2 * 256 + d1 * 65536 + d0 * 16777216) 2147483648).
  - assert (d0 = 0) by lia. assert (d1 = 0) by lia. assert (d2 = 0) by lia.
    subst d0 d1 d2. destruct (Z.ltb_spec (0 + 0 * 256 + 0 * 65536 + d3 * 16777216) 2147483648).
    + rewrite abs_small by (change (2 ^ 31) with 2147483648; lia). lia.
    + lia.
  - assert (d0 = 255) by lia. assert (d1 = 255) by lia. assert (d2 = 255) by lia.
    subst d0 d1 d2.
    destruct (Z.ltb_spec (255 + 255 * 256 + 255 * 65536 + d3 * 16777216) 2147483648).
    + lia.
    + rewrite abs_small by (change (2 ^ 31) with 2147483648; lia). lia.
Qed.

(** A hint of [AUTO] for the epoch never makes decoding fail. *)
Lemma parseHeader_auto_epoch (data : buffer) (endian e : Endian.t) (nmag : Z) :
  28 <= Z.of_nat (List.length data) ->
  probe_endian data endian = Done (nmag, e) ->
  exists starn stnum mprop nbent,
    parse_int32 data 8 (Endian.eqb e Endian.LITTLE) = Done starn /\
    parse_int32 data 12 (Endian.eqb e Endian.LITTLE) = Done stnum /\
    parse_int32 data 16 (Endian.eqb e Endian.LITTLE) = Done mprop /\
    parse_int32 data 24 (Endian.eqb e Endian.LITTLE) = Done nbent /\
    parseHeader data Epoch.AUTO endian =
      Done (header_of starn stnum mprop nmag nbent (Endian.eqb e Endian.LITTLE)).
Proof.
  intros Hlen Hprobe.
  set (le := Endian.eqb e Endian.LITTLE).
  destruct (parse_int32_defined data 8 le) as (starn & Hstarn); [lia | lia | ].
  destruct (parse_int32_defined data 12 le) as (stnum & Hstnum); [lia | lia | ].
  destruct (parse_int32_defined data 16 le) as (mprop & Hmprop); [lia | lia | ].
  destruct (parse_int32_defined data 24 le) as (nbent & Hnbent); [lia | lia | ].
  exists starn, stnum, mprop, nbent.
  repeat (split; [assumption | ]).
  rewrite (parseHeader_eq data Epoch.AUTO endian e nmag starn stnum mprop nbent)
    by assumption.
  reflexivity.
Qed.

(** C3 (amended).  Without an endianness hint [parseHeader] adopts
    little-endian whenever the magnitude count at offset 20, read
    little-endian, has absolute value at most 10.  It adopts big-endian
    when the count read big-endian has absolute value at most 10 and is
    neither 0 nor -1, the two counts whose bytes read the same in both
    orders.  When both readings have absolute value above 10, and neither
    is the minimum 32-bit value, decoding fails with "invalid header". *)
Theorem C3_auto_detection (data : buffer) (le be : Z) :
  28 <= Z.of_nat (List.length data) ->
  parse_int32 data 20 true = Done le ->
  parse_int32 data 20 false = Done be ->
  (Z.abs le <= 10 ->
   exists h, parseHeader data Epoch.AUTO Endian.AUTO = Done h
             /\ Header.littleEndian h = true)
  /\ (Z.abs be <= 10 -> be <> 0 -> be <> -1 ->
      exists h, parseHeader data Epoch.AUTO Endian.AUTO = Done h
                /\ Header.littleEndian h = false)
  /\ (10 < Z.abs le -> 10 < Z.abs be ->
      le <> CInt.INT_MIN -> be <> CInt.INT_MIN ->
      parseHeader data Epoch.AUTO Endian.AUTO = Fail InvalidHeader).
Proof.
  intros Hlen Hle Hbe.
  pose proof (parse_int32_range _ _ _ _ Hle) as Rle.
  pose proof (parse_int32_range _ _ _ _ Hbe) as Rbe.
  unfold CInt.in_int32, CInt.INT_MIN, CInt.INT_MAX in *.
  split; [ | split].
  - intros Habs.
    assert (Hp : probe_endian data Endian.AUTO = Done (le, Endian.LITTLE)).
    { apply probe_auto_little; [assumption | ]. rewrite abs_small; lia. }
    destruct (parseHeader_auto_epoch data Endian.AUTO _ _ Hlen Hp)
      as (starn & stnum & mprop & nbent & _ & _ & _ & _ & ->).
    eexists. split; reflexivity.
  - intros Habs Hn0 Hn1.
    assert (Hp : probe_endian data Endian.AUTO = Done (be, Endian.BIG)).
    { apply (probe_auto_big data le be); try assumption.
      - destruct (two_readings data 20 le be Hle Hbe)
          as (d0 & d1 & d2 & d3 & B0 & B1 & B2 & B3 & -> & ->).
        apply swapped_reading_large; assumption.
      - rewrite abs_small; lia. }
    destruct (parseHeader_auto_epoch data Endian.AUTO _ _ Hlen Hp)
      as (starn & stnum & mprop & nbent & _ & _ & _ & _ & ->).
    eexists. split; reflexivity.
  - intros Hl Hb Hlmin Hbmin.
    unfold parseHeader.
    rewrite (probe_auto_fail data le be) by
        (try assumption; rewrite abs_small; lia).
    reflexivity.
Qed.

(** The three cases of [C3_auto_detection] on sample headers. *)
Lemma C3_auto_detection_witness :
  (exists h, parseHeader catalog_abc Epoch.AUTO Endian.AUTO = Done h
             /\ Header.littleEndian h = true)
  /\ (exists h, parseHeader header_be_one Epoch.AUTO Endian.AUTO = Done h
                /\ Header.littleEndian h = false)
  /\ parseHeader header_ambiguous Epoch.AUTO Endian.AUTO = Fail InvalidHeader.
Proof.
  split; [ | split].
  - apply (C3_auto_detection catalog_abc 1 16777216);
      [vm_compute; discriminate | reflexivity | reflexivity | vm_compute; discriminate].
  - apply (C3_auto_detection header_be_one 16777216 1);
      [vm_compute; discriminate | reflexivity | reflexivity
       | vm_compute; discriminate | discriminate | discriminate].
  - apply (C3_auto_detection header_ambiguous 65792 65792);
      [vm_compute; discriminate | reflexivity | reflexivity
       | reflexivity | reflexivity | discriminate | discriminate].
Defined.

(** C3, as stated, fails on a header written big-endian with magnitude
    count -1: the count is within the bound in that byte order, and the
    detection adopts little-endian. *)
Lemma C3_counterexample :
  parse_int32 header_be_minus1 20 false = Done (-1)
  /\ Z.abs (-1) <= 10
  /\ exists h, parseHeader header_be_minus1 Epoch.AUTO Endian.AUTO = Done h
               /\ Header.littleEndian h = true.
Proof.
  split; [reflexivity | ]. split; [vm_compute; discriminate | ].
  eexists. split; [vm_compute; reflexivity | reflexivity].
Qed.

(** C4.  For every header that decodes without an epoch hint, the epoch
    is J2000 exactly when the star count (offset 8) or the magnitude
    count (offset 20) is negative, and B1950 otherwise.  A hint equal to
    that epoch changes nothing, and the opposite hint makes decoding fail
    with the corresponding "expected ... but found ..." diagnostic. *)
Theorem C4_epoch_from_signs (data : buffer) (endian : Endian.t) (h : Header.t) :
  parseHeader data Epoch.AUTO endian = Done h ->
  exists starn nmag,
    parse_int32 data 8 (Header.littleEndian h) = Done starn
    /\ parse_int32 data 20 (Header.littleEndian h) = Done nmag
    /\ (Header.epoch h = Epoch.J2000 <-> starn < 0 \/ nmag < 0)
    /\ (Header.epoch h = Epoch.B1950 <-> ~ (starn < 0 \/ nmag < 0))
    /\ parseHeader data (Header.epoch h) endian = Done h
    /\ (Header.epoch h = Epoch.B1950 ->
        parseHeader data Epoch.J2000 endian = Fail ExpectedJ2000FoundB1950)
    /\ (Header.epoch h = Epoch.J2000 ->
        parseHeader data Epoch.B1950 endian = Fail ExpectedB1950FoundJ2000).
Proof.
  intros H. apply parseHeader_inv in H.
  destruct H as (nmag & e & starn & stnum & mprop & nbent
                 & Hprobe & Hstarn & Hstnum & Hmprop & Hnbent & ->).
  destruct (probe_endian_reading _ _ _ _ Hprobe) as [Hnmag _].
  exists starn, nmag. cbn [header_of Header.littleEndian Header.epoch].
  split; [assumption | ]. split; [assumption | ].
  rewrite !(parseHeader_eq data _ endian e nmag starn stnum mprop nbent)
    by assumption.
  destruct (Z.ltb_spec starn 0); destruct (Z.ltb_spec nmag 0); cbn;
    (repeat split; try reflexivity; try discriminate; try lia;
     intros; try discriminate; try lia).
Qed.

(** [C4_epoch_from_signs] on the sample catalog, whose star count is -2. *)
Lemma C4_epoch_from_signs_witness :
  exists h,
    parseHeader catalog_abc Epoch.AUTO Endian.AUTO = Done h
    /\ Header.epoch h = Epoch.J2000
    /\ parseHeader catalog_abc Epoch.B1950 Endian.AUTO
       = Fail ExpectedB1950FoundJ2000.
Proof.
  eexists. split; [vm_compute; reflexivity | ]. split; [reflexivity | ].
  destruct (C4_epoch_from_signs catalog_abc Endian.AUTO _ eq_refl)
    as (starn & nmag & _ & _ & _ & _ & _ & _ & Hmismatch).
  apply Hmismatch. reflexivity.
Defined.

(** C2 (amended).  [parseHeader] does not check the id-spec and the
    motion flag.  Whenever the byte-order probe passes, decoding without
    an epoch hint succeeds whatever the two fields hold, and with a hint
    it can only fail on the epoch; a non-negative id-spec is stored as the
    id kind and the motion flag as the motion kind, unchanged. *)
Theorem C2_kinds_unchecked (data : buffer) (endian e : Endian.t)
        (nmag stnum mprop : Z) :
  28 <= Z.of_nat (List.length data) ->
  probe_endian data endian = Done (nmag, e) ->
  parse_int32 data 12 (Endian.eqb e Endian.LITTLE) = Done stnum ->
  parse_int32 data 16 (Endian.eqb e Endian.LITTLE) = Done mprop ->
  (exists h, parseHeader data Epoch.AUTO endian = Done h
             /\ Header.starId h = (if stnum <? 0 then Header.NO_STAR_ID else stnum)
             /\ Header.starNameLength h = (if stnum <? 0 then CInt.neg stnum else 0)
             /\ Header.properMotion h = mprop)
  /\ forall epoch,
      parseHeader data epoch endian = Fail ExpectedJ2000FoundB1950
      \/ parseHeader data epoch endian = Fail ExpectedB1950FoundJ2000
      \/ exists h, parseHeader data epoch endian = Done h
                   /\ Header.starId h = (if stnum <? 0 then Header.NO_STAR_ID else stnum)
                   /\ Header.properMotion h = mprop.
Proof.
  intros Hlen Hprobe Hstnum Hmprop.
  destruct (parseHeader_auto_epoch data endian e nmag Hlen Hprobe)
    as (starn & stnum' & mprop' & nbent & Hstarn & Hstnum' & Hmprop' & Hnbent & Hauto).
  rewrite Hstnum in Hstnum'. apply Done_inj in Hstnum'. subst stnum'.
  rewrite Hmprop in Hmprop'. apply Done_inj in Hmprop'. subst mprop'.
  split.
  - eexists. split; [exact Hauto | ]. repeat split.
  - intros epoch.
    rewrite (parseHeader_eq data epoch endian e nmag starn stnum mprop nbent)
      by assumption.
    destruct (Epoch.eqb epoch Epoch.J2000 && negb ((starn <? 0) || (nmag <? 0)));
      [left; reflexivity | ].
    destruct (Epoch.eqb epoch Epoch.B1950 && ((starn <? 0) || (nmag <? 0)));
      [right; left; reflexivity | ].
    right; right. eexists. split; [reflexivity | ]. split; reflexivity.
Qed.

(** [C2_kinds_unchecked] on a header with id-spec 7 and motion flag 5. *)
Lemma C2_kinds_unchecked_witness :
  exists h, parseHeader catalog_unknown_kinds Epoch.AUTO Endian.AUTO = Done h
            /\ Header.starId h = 7
            /\ Header.starNameLength h = 0
            /\ Header.properMotion h = 5.
Proof.
  apply (C2_kinds_unchecked catalog_unknown_kinds Endian.AUTO Endian.LITTLE 1 7 5);
    [vm_compute; discriminate | reflexivity | reflexivity | reflexivity].
Defined.

(** C2, as stated, fails on a catalog whose id-spec is 7 and whose motion
    flag is 5: the header decodes, and the run prints its record. *)
Lemma C2_counterexample :
  parse_int32 catalog_unknown_kinds 12 true = Done 7
  /\ parse_int32 catalog_unknown_kinds 16 true = Done 5
  /\ (exists h, parseHeader catalog_unknown_kinds Epoch.AUTO Endian.AUTO = Done h
                /\ Header.starId h = 7 /\ Header.properMotion h = 5)
  /\ main (Options.default "catalog") catalog_unknown_kinds
     = Done [ Fixed 17 false 4602678819172646912; Lit ",";
              Fixed 17 false 4598175219545276416; Lit ",";
              Fixed 17 false 4613937818241073152; Lit nl ].
Proof.
  split; [reflexivity | ]. split; [reflexivity | ]. split.
  - eexists. split; [vm_compute; reflexivity | ]. split; reflexivity.
  - vm_compute. reflexivity.
Qed.

(** [std::abs] of the minimum [int] is negative, hence within the probe's
    bound: such a count is adopted in the order it was read in. *)
Example probe_minimum_count :
  parse_int32 header_int_min 20 true = Done CInt.INT_MIN
  /\ parse_int32 header_int_min 20 false = Done 128
  /\ probe_endian header_int_min Endian.AUTO = Done (CInt.INT_MIN, Endian.LITTLE).
Proof. repeat split. Qed.

(** ** RecordDecoder *)

Lemma byte_at_Done (data : buffer) (q : Z) (c : byte) :
  byte_at data q = Done c ->
  0 <= q /\ skipn (Z.to_nat q) data = c :: skipn (Z.to_nat (q + 1)) data.
Proof.
  unfold byte_at. destruct (Z.ltb_spec q 0); [discriminate | ].
  destruct (nth_error data (Z.to_nat q)) as [b | ] eqn:E; [ | discriminate].
  intros Hc. apply Done_inj in Hc. subst b. split; [assumption | ].
  replace (Z.to_nat (q + 1)) with (S (Z.to_nat q)) by lia.
  revert E. generalize (Z.to_nat q) as n. clear.
  induction data as [ | b data IH]; intros [ | n] E; try discriminate.
  - simpl in E. injection E as ->. reflexivity.
  - simpl in E. exact (IH n E).
Qed.

Lemma c_str_repeat_nul (n : nat) (l : list byte) : c_str (repeat x00 (S n) ++ l) = [].
Proof. reflexivity. Qed.

(** What [strncpy] leaves in the array spells, up to its first NUL, the
    bytes of the source field up to its first NUL; and a field without
    NUL was read in full. *)
Lemma strncpy_c_str (data : buffer) (n : nat) (q : Z) (l : list byte) :
  strncpy data q n = Done l ->
  c_str (l ++ [x00]) = c_str (firstn n (skipn (Z.to_nat q) data))
  /\ (forallb (fun b => negb (is_nul b)) (firstn n (skipn (Z.to_nat q) data)) = true ->
      List.length (firstn n (skipn (Z.to_nat q) data)) = n).
Proof.
  revert q l. induction n as [ | n IH]; intros q l H.
  - simpl in H. apply Done_inj in H. subst l. split; reflexivity.
  - cbn [strncpy] in H. inv_bind H.
    destruct (byte_at_Done _ _ _ E) as [Hq Hskip]. rewrite Hskip.
    cbn [firstn c_str forallb].
    destruct (is_nul v) eqn:Hnul.
    + apply Done_inj in H. subst l. split; [reflexivity | discriminate].
    + inv_bind H. apply Done_inj in H. subst l.
      destruct (IH _ _ E0) as [IH1 IH2].
      cbn [app c_str]. rewrite Hnul. split.
      * f_equal. exact IH1.
      * cbn [negb andb List.length]. intros Hall. f_equal. apply IH2. exact Hall.
Qed.

Lemma c_str_no_nul (l : list byte) :
  forallb (fun b => negb (is_nul b)) l = true -> c_str l = l.
Proof.
  induction l as [ | b l IH]; [reflexivity | ].
  cbn [forallb c_str]. destruct (is_nul b); [discriminate | ].
  cbn [negb andb]. intros H. f_equal. apply IH. exact H.
Qed.

(** The magnitude loop moves the cursor past every field. *)
Lemma magnitudes_cursor (h : Header.t) (data : buffer) (p : Z) (n : nat)
      (i cursor : Z) (mag mag' : option Z) (cursor' : Z) :
  magnitudes h data p n i cursor mag = Done (mag', cursor') ->
  0 <= cursor -> cursor + 2 * Z.of_nat n <= CInt.INT_MAX ->
  cursor' = cursor + 2 * Z.of_nat n.
Proof.
  revert i cursor mag. induction n as [ | n IH]; intros i cursor mag H H0 Hmax.
  - simpl in H. apply Done_inj in H. injection H as _ <-. lia.
  - cbn [magnitudes] in H.
    destruct (Header.apparentMagnitude h) as [a | ]; [ | discriminate].
    inv_bind H. apply IH in H.
    + rewrite H. unfold CInt.add. rewrite to_int32_small; [lia | ].
      unfold CInt.in_int32, CInt.INT_MIN, CInt.INT_MAX in *. lia.
    + unfold CInt.add. rewrite to_int32_small; [lia | ].
      unfold CInt.in_int32, CInt.INT_MIN, CInt.INT_MAX in *. lia.
    + unfold CInt.add. rewrite to_int32_small; [lia | ].
      unfold CInt.in_int32, CInt.INT_MIN, CInt.INT_MAX in *. lia.
Qed.

(** It keeps the field at the index the header selects, and only that. *)
Lemma magnitudes_value (h : Header.t) (data : buffer) (p : Z) (n : nat)
      (i cursor a : Z) (mag mag' : option Z) (cursor' : Z) :
  magnitudes h data p n i cursor mag = Done (mag', cursor') ->
  Header.apparentMagnitude h = Some a ->
  0 <= cursor -> cursor + 2 * Z.of_nat n <= CInt.INT_MAX ->
  if (i <=? a) && (a <? i + Z.of_nat n)
  then exists m, mag' = Some m
                 /\ parse_int16 data (p + (cursor + 2 * (a - i)))
                                (Header.littleEndian h) = Done m
  else mag' = mag.
Proof.
  revert i cursor mag. induction n as [ | n IH]; intros i cursor mag H Ha H0 Hmax.
  - simpl in H. apply Done_inj in H. injection H as <- _.
    destruct (Z.leb_spec i a); destruct (Z.ltb_spec a (i + Z.of_nat 0));
      cbn [andb]; try reflexivity; lia.
  - cbn [magnitudes] in H. rewrite Ha in H. inv_bind H.
    assert (Hadd : CInt.add cursor 2 = cursor + 2).
    { unfold CInt.add. rewrite to_int32_small; [lia | ].
      unfold CInt.in_int32, CInt.INT_MIN, CInt.INT_MAX in *. lia. }
    rewrite Hadd in H.
    specialize (IH (i + 1) (cursor + 2) v H Ha ltac:(lia) ltac:(lia)).
    destruct (Z.eqb_spec i a) as [-> | Hne].
    + inv_bind E. apply Done_inj in E. subst v.
      destruct (Z.leb_spec (a + 1) a); [lia | ]. cbn [andb] in IH.
      destruct (Z.leb_spec a a); [ | lia].
      destruct (Z.ltb_spec a (a + Z.of_nat (S n))); [ | lia]. cbn [andb].
      exists v0. split; [assumption | ].
      replace (cursor + 2 * (a - a)) with cursor by lia. assumption.
    + apply Done_inj in E. subst v.
      destruct (Z.leb_spec (i + 1) a); destruct (Z.ltb_spec a (i + 1 + Z.of_nat n));
        destruct (Z.leb_spec i a); destruct (Z.ltb_spec a (i + Z.of_nat (S n)));
        cbn [andb] in *; try lia; try assumption.
      destruct IH as (m & Hm & Hp). exists m. split; [assumption | ].
      replace (cursor + 2 * (a - i)) with (cursor + 2 + 2 * (a - (i + 1))) by lia.
      assumption.
Qed.

(** A decoded record, taken apart: where its name and its magnitude come
    from. *)
Lemma parseStar_inv (h : Header.t) (data : buffer) (p : Z) (star : Star.t) :
  parseStar h data p = Done star ->
  0 <= Header.numMagnitudes h <= 2 ^ 20 ->
  CInt.in_int32 (Header.starNameLength h) ->
  0 <= Header.starNameLength h
  /\ Star.name star = c_str (name_field h data p)
  /\ (forallb (fun b => negb (is_nul b)) (name_field h data p) = true ->
      Z.of_nat (List.length (name_field h data p)) = Header.starNameLength h)
  /\ exists a m,
      Header.apparentMagnitude h = Some a
      /\ 0 <= a < Header.numMagnitudes h
      /\ parse_int16 data (p + (magnitudes_offset h + 2 * a))
                     (Header.littleEndian h) = Done m
      /\ Star.magnitude star = IEEE.f32_div100 m.
Proof.
  intros H Hmag Hname. unfold parseStar in H.
  inv_bind H.
  assert (Hid : snd v = id_bytes h).
  { unfold id_bytes. clear H.
    destruct ((Header.starId h =? Header.CATALOG_STAR_ID)
              || (Header.starId h =? Header.GSC_STAR_ID)
              || (Header.starId h =? Header.TYCHO_STAR_ID)).
    - inv_bind E. apply Done_inj in E. subst v. reflexivity.
    - cbn [orb]. destruct (Header.starId h =? Header.INTEGER_STAR_ID).
      + inv_bind E. apply Done_inj in E. subst v. reflexivity.
      + apply Done_inj in E. subst v. reflexivity. }
  clear E.
  inv_bind H. inv_bind H. inv_bind H. inv_bind H. inv_bind H.
  destruct v4 as [mag cursor]. cbn [fst snd] in H.
  assert (Hidb : 0 <= id_bytes h <= 4)
    by (unfold id_bytes; destruct (_ || _); lia).
  change (2 ^ 20) with 1048576 in Hmag.
  assert (Hcur : cursor = magnitudes_offset h + 2 * Header.numMagnitudes h).
  { apply magnitudes_cursor in E3; unfold CInt.INT_MAX; try lia.
    unfold magnitudes_offset. lia. }
  inv_bind H.
  assert (Hpm : snd v4 = name_offset h).
  { unfold name_offset, motion_bytes. clear H.
    destruct (Header.properMotion h =? Header.PROPER_MOTION).
    - inv_bind E4. inv_bind E4. apply Done_inj in E4. subst v4. cbn [snd orb]. lia.
    - cbn [orb]. destruct (Header.properMotion h =? Header.RADIAL_VELOCITY).
      + inv_bind E4. apply Done_inj in E4. subst v4. cbn [snd]. lia.
      + apply Done_inj in E4. subst v4. cbn [snd]. lia. }
  clear E4. destruct v4 as [[[xrpm xdpm] svel] cursor']. cbn [snd] in Hpm.
  subst cursor'.
  destruct (Z.leb_spec (CInt.add (Header.starNameLength h) 1) 0) as [ | Hvla];
    [discriminate | ].
  assert (Hlen : 0 <= Header.starNameLength h).
  { unfold CInt.add, CInt.in_int32, CInt.INT_MIN, CInt.INT_MAX in *.
    destruct (Z.eq_dec (Header.starNameLength h) (2 ^ 31 - 1)) as [Heq | Hne].
    - rewrite Heq in Hvla. vm_compute in Hvla. discriminate.
    - rewrite to_int32_small in Hvla; [lia | ].
      unfold CInt.in_int32, CInt.INT_MIN, CInt.INT_MAX. lia. }
  inv_bind H.
  destruct mag as [mag | ]; [ | discriminate].
  apply Done_inj in H. subst star. cbn [Star.name Star.magnitude].
  split; [assumption | ].
  assert (Hcopy : c_str (v4 ++ [x00]) = c_str (name_field h data p)
                  /\ (forallb (fun b => negb (is_nul b)) (name_field h data p) = true ->
                      List.length (name_field h data p)
                      = Z.to_nat (Header.starNameLength h))).
  { unfold name_field.
    destruct (Z.ltb_spec 0 (Header.starNameLength h)).
    - apply strncpy_c_str. assumption.
    - apply Done_inj in E4. subst v4.
      replace (Header.starNameLength h) with 0 by lia. split; reflexivity. }
  destruct Hcopy as [Hc1 Hc2].
  split; [assumption | ]. split; [intros Hall; rewrite (Hc2 Hall); lia | ].
  destruct (Header.apparentMagnitude h) as [a | ] eqn:Ha.
  - pose proof (magnitudes_value h data p _ 0 _ a None (Some mag) cursor E3 Ha)
      as Hv.
    specialize (Hv ltac:(unfold magnitudes_offset in *; lia)
                   ltac:(unfold CInt.INT_MAX; lia)).
    rewrite Z2Nat.id in Hv by lia.
    destruct (Z.leb_spec 0 a); destruct (Z.ltb_spec a (0 + Header.numMagnitudes h));
      cbn [andb] in Hv; try discriminate.
    destruct Hv as (m & Hm & Hp). injection Hm as ->.
    exists a, m. split; [reflexivity | ]. split; [lia | ].
    split; [ | reflexivity].
    rewrite Hid in Hp. unfold magnitudes_offset.
    replace (id_bytes h + 8 + 8 + 2 + 2 * a)
      with (id_bytes h + 8 + 8 + 1 + 1 + 2 * (a - 0)) by lia.
    exact Hp.
  - exfalso. destruct (Z.to_nat (Header.numMagnitudes h)) as [ | n].
    + simpl in E3. discriminate.
    + cbn [magnitudes] in E3. rewrite Ha in E3. discriminate.
Qed.

(** *** Records inside the buffer are decoded *)

Lemma parse_int16_defined (data : buffer) (p : Z) (le : bool) :
  0 <= p -> p + 2 <= Z.of_nat (List.length data) ->
  exists v, parse_int16 data p le = Done v.
Proof.
  intros H0 H2. unfold parse_int16.
  destruct (at_defined data p) as (d0 & ->); [lia | ].
  destruct (at_defined data (p + 1)) as (d1 & ->); [lia | ].
  simpl. eexists. reflexivity.
Qed.

Lemma parse_float_defined (data : buffer) (p : Z) (le : bool) :
  0 <= p -> p + 4 <= Z.of_nat (List.length data) ->
  exists v, parse_float data p le = Done v.
Proof.
  intros H0 H4. unfold parse_float.
  destruct (at_defined data p) as (d0 & ->); [lia | ].
  destruct (at_defined data (p + 1)) as (d1 & ->); [lia | ].
  destruct (at_defined data (p + 2)) as (d2 & ->); [lia | ].
  destruct (at_defined data (p + 3)) as (d3 & ->); [lia | ].
  simpl. eexists. reflexivity.
Qed.

Lemma parse_double_defined (data : buffer) (p : Z) (le : bool) :
  0 <= p -> p + 8 <= Z.of_nat (List.length data) ->
  exists v, parse_double data p le = Done v.
Proof.
  intros H0 H8. unfold parse_double.
  destruct (at_defined data p) as (d0 & ->); [lia | ].
  destruct (at_defined data (p + 1)) as (d1 & ->); [lia | ].
  destruct (at_defined data (p + 2)) as (d2 & ->); [lia | ].
  destruct (at_defined data (p + 3)) as (d3 & ->); [lia | ].
  destruct (at_defined data (p + 4)) as (d4 & ->); [lia | ].
  destruct (at_defined data (p + 5)) as (d5 & ->); [lia | ].
  destruct (at_defined data (p + 6)) as (d6 & ->); [lia | ].
  destruct (at_defined data (p + 7)) as (d7 & ->); [lia | ].
  cbn [bind]. eexists. reflexivity.
Qed.

Lemma byte_at_defined (data : buffer) (p : Z) :
  0 <= p < Z.of_nat (List.length data) -> exists b, byte_at data p = Done b.
Proof.
  intros Hp. unfold byte_at. destruct (Z.ltb_spec p 0); [lia | ].
  destruct (nth_error data (Z.to_nat p)) as [b | ] eqn:E.
  - exists b. reflexivity.
  - apply nth_error_None in E. lia.
Qed.

Lemma strncpy_defined (data : buffer) (n : nat) (q : Z) :
  0 <= q -> q + Z.of_nat n <= Z.of_nat (List.length data) ->
  exists l, strncpy data q n = Done l.
Proof.
  revert q. induction n as [ | n IH]; intros q H0 Hn.
  - exists []. reflexivity.
  - cbn [strncpy]. destruct (byte_at_defined data q) as (c & ->); [lia | ].
    cbn [bind]. destruct (is_nul c); [eexists; reflexivity | ].
    destruct (IH (q + 1)) as (l & ->); [lia | lia | ].
    cbn [bind]. eexists. reflexivity.
Qed.

Lemma magnitudes_defined (h : Header.t) (data : buffer) (p : Z) (n : nat)
      (i cursor a : Z) (mag : option Z) :
  Header.apparentMagnitude h = Some a ->
  0 <= p -> 0 <= cursor -> cursor + 2 * Z.of_nat n <= CInt.INT_MAX ->
  p + cursor + 2 * Z.of_nat n <= Z.of_nat (List.length data) ->
  exists r, magnitudes h data p n i cursor mag = Done r.
Proof.
  intros Ha Hp. revert i cursor mag.
  induction n as [ | n IH]; intros i cursor mag H0 Hmax Hlen.
  - eexists. reflexivity.
  - cbn [magnitudes]. rewrite Ha.
    assert (Hadd : CInt.add cursor 2 = cursor + 2).
    { unfold CInt.add. rewrite to_int32_small; [lia | ].
      unfold CInt.in_int32, CInt.INT_MIN, CInt.INT_MAX in *. lia. }
    rewrite Hadd.
    destruct (i =? a).
    + destruct (parse_int16_defined data (p + cursor) (Header.littleEndian h))
        as (m & ->); [lia | lia | ].
      cbn [bind]. apply IH; lia.
    + cbn [bind]. apply IH; lia.
Qed.

(** A record whose fields lie inside the buffer is decoded. *)
Lemma parseStar_defined (h : Header.t) (data : buffer) (p a : Z) :
  Header.apparentMagnitude h = Some a ->
  0 <= a < Header.numMagnitudes h ->
  Header.numMagnitudes h <= 2 ^ 20 ->
  0 <= Header.starNameLength h < CInt.INT_MAX ->
  0 <= p ->
  p + name_offset h + Header.starNameLength h <= Z.of_nat (List.length data) ->
  exists star, parseStar h data p = Done star.
Proof.
  intros Ha Hidx Hmag Hname Hp Hfit.
  change (2 ^ 20) with 1048576 in Hmag. unfold CInt.INT_MAX in Hname.
  assert (Hidb : 0 <= id_bytes h <= 4)
    by (unfold id_bytes; destruct (_ || _); lia).
  assert (Hmb : 0 <= motion_bytes h <= 8)
    by (unfold motion_bytes; destruct (_ || _); lia).
  unfold name_offset, magnitudes_offset in Hfit.
  unfold parseStar.
  match goal with
  | |- exists star, bind ?c _ = _ =>
      assert (Hid : exists xno, c = Done (xno, id_bytes h))
  end.
  { unfold id_bytes.
    destruct ((Header.starId h =? Header.CATALOG_STAR_ID)
              || (Header.starId h =? Header.GSC_STAR_ID)
              || (Header.starId h =? Header.TYCHO_STAR_ID)) eqn:E1.
    - cbn [orb] in *.
      destruct (parse_float_defined data (p + 0) (Header.littleEndian h))
        as (x & ->); [lia | unfold id_bytes in Hfit; rewrite E1 in Hfit; cbn [orb] in Hfit; lia | ].
      eexists. reflexivity.
    - cbn [orb] in *.
      destruct (Header.starId h =? Header.INTEGER_STAR_ID) eqn:E2.
      + destruct (parse_int32_defined data (p + 0) (Header.littleEndian h))
          as (x & ->); [lia | unfold id_bytes in Hfit; rewrite E1, E2 in Hfit; cbn [orb] in Hfit; lia | ].
        eexists. reflexivity.
      + eexists. reflexivity. }
  destruct Hid as (xno & ->). cbn [bind fst snd].
  destruct (parse_double_defined data (p + id_bytes h) (Header.littleEndian h))
    as (ra & ->); [lia | lia | ]. cbn [bind].
  destruct (parse_double_defined data (p + (id_bytes h + 8)) (Header.littleEndian h))
    as (decl & ->); [lia | lia | ]. cbn [bind].
  destruct (byte_at_defined data (p + (id_bytes h + 8 + 8))) as (s0 & ->); [lia | ].
  cbn [bind].
  destruct (byte_at_defined data (p + (id_bytes h + 8 + 8 + 1))) as (s1 & ->); [lia | ].
  cbn [bind].
  destruct (magnitudes_defined h data p (Z.to_nat (Header.numMagnitudes h)) 0
              (id_bytes h + 8 + 8 + 1 + 1) a None Ha Hp)
    as ([mag cursor] & Hloop); [lia | unfold CInt.INT_MAX; lia | lia | ].
  rewrite Hloop. cbn [bind fst snd].
  pose proof (magnitudes_cursor _ _ _ _ _ _ _ _ _ Hloop) as Hcur.
  specialize (Hcur ltac:(lia) ltac:(unfold CInt.INT_MAX; lia)).
  rewrite Z2Nat.id in Hcur by lia.
  pose proof (magnitudes_value _ _ _ _ _ _ a _ _ _ Hloop Ha) as Hval.
  specialize (Hval ltac:(lia) ltac:(unfold CInt.INT_MAX; lia)).
  rewrite Z2Nat.id in Hval by lia.
  destruct (Z.leb_spec 0 a); [ | lia].
  destruct (Z.ltb_spec a (0 + Header.numMagnitudes h)); [ | lia].
  cbn [andb] in Hval. destruct Hval as (m & -> & _).
  match goal with
  | |- exists star, bind ?c _ = _ =>
      assert (Hpm : exists x y z, c = Done (x, y, z, name_offset h))
  end.
  { unfold name_offset, motion_bytes, magnitudes_offset. rewrite Hcur.
    unfold motion_bytes in Hfit.
    destruct (Header.properMotion h =? Header.PROPER_MOTION) eqn:E1.
    - cbn [orb] in *.
      destruct (parse_float_defined data
                  (p + (id_bytes h + 8 + 8 + 1 + 1 + 2 * Header.numMagnitudes h))
                  (Header.littleEndian h)) as (x & ->); [lia | lia | ].
      destruct (parse_float_defined data
                  (p + (id_bytes h + 8 + 8 + 1 + 1 + 2 * Header.numMagnitudes h + 4))
                  (Header.littleEndian h)) as (y & ->); [lia | lia | ].
      cbn [bind]. exists x, y, IEEE.zero64. apply f_equal, f_equal. lia.
    - cbn [orb] in *.
      destruct (Header.properMotion h =? Header.RADIAL_VELOCITY) eqn:E2.
      + destruct (parse_double_defined data
                    (p + (id_bytes h + 8 + 8 + 1 + 1 + 2 * Header.numMagnitudes h))
                    (Header.littleEndian h)) as (z & ->); [lia | lia | ].
        cbn [bind]. exists 0, 0, z. apply f_equal, f_equal. lia.
      + exists 0, 0, IEEE.zero64. apply f_equal, f_equal. lia. }
  destruct Hpm as (x & y & z & ->). cbn [bind].
  unfold CInt.add. rewrite to_int32_small
    by (unfold CInt.in_int32, CInt.INT_MIN, CInt.INT_MAX; lia).
  destruct (Z.leb_spec (Header.starNameLength h + 1) 0); [lia | ].
  destruct (Z.ltb_spec 0 (Header.starNameLength h)).
  - destruct (strncpy_defined data (Z.to_nat (Header.starNameLength h))
                              (p + name_offset h)) as (l & ->).
    + unfold name_offset, magnitudes_offset. lia.
    + unfold name_offset, magnitudes_offset. lia.
    + cbn [bind]. eexists. reflexivity.
  - cbn [bind]. eexists. reflexivity.
Qed.

(** *** The magnitude of a record *)

Lemma parse_int16_range (data : buffer) (p : Z) (le : bool) (v : Z) :
  parse_int16 data p le = Done v -> CInt.in_int16 v.
Proof.
  unfold parse_int16. intros H. inv_bind H. inv_bind H.
  apply Done_inj in H. subst v. destruct le; apply to_int16_range.
Qed.

(** Replaces the powers of two with closed exponents by their values. *)
Ltac eval_pow2 :=
  repeat match goal with
         | |- context [2 ^ ?e] =>
             let v := eval vm_compute in (2 ^ e) in change (2 ^ e) with v
         | H : context [2 ^ ?e] |- _ =>
             let v := eval vm_compute in (2 ^ e) in change (2 ^ e) with v in H
         end.

(** The quotient of a non-zero 16-bit magnitude by 100 is a normal
    [float] between 2^-7 and 2^9: a sign bit over a pattern with biased
    exponent from 120 to 136. *)
Lemma f32_div100_normal (m : Z) :
  CInt.in_int16 m -> m <> 0 ->
  exists s r,
    IEEE.f32_div100 m = s * 2 ^ 31 + r
    /\ 0 <= s <= 1 /\ 120 * 2 ^ 23 <= r <= 136 * 2 ^ 23.
Proof.
  unfold CInt.in_int16. change (2 ^ 15) with 32768. intros Hm Hm0.
  unfold IEEE.f32_div100. destruct (Z.eqb_spec m 0) as [ | _]; [contradiction | ].
  set (a := Z.abs m). assert (Ha : 1 <= a <= 32768) by (unfold a; lia).
  change (2 ^ 7) with 128.
  set (X := a * 128 / 100).
  assert (HX : 100 * X <= 128 * a < 100 * X + 100).
  { unfold X. pose proof (Z.div_mod (a * 128) 100 ltac:(lia)).
    pose proof (Z.mod_pos_bound (a * 128) 100 ltac:(lia)). lia. }
  assert (HXpos : 0 < X) by lia.
  pose proof (Z.log2_spec X HXpos) as Hlog.
  set (k := Z.log2 X) in *.
  assert (Hk : 0 <= k <= 15).
  { split; [apply Z.log2_nonneg | ].
    assert (k < 16); [ | lia]. apply Z.log2_lt_pow2; [assumption | ].
    change (2 ^ 16) with 65536. lia. }
  cbv zeta.
  exists (if m <? 0 then 1 else 0).
  eexists. split.
  - change (2 ^ 31) with (1 * 2 ^ 31) at 1.
    destruct (m <? 0); rewrite <- Z.add_assoc; reflexivity.
  - split; [destruct (m <? 0); lia | ].
    replace (23 - (k - 7)) with (30 - k) by lia.
    replace (k - 7 + 127) with (k + 120) by lia.
    set (n := a * 2 ^ (30 - k)).
    assert (Hq : 2 ^ 23 <= n / 100 < 2 ^ 24).
    { pose proof (Z.div_mod n 100 ltac:(lia)) as Hdm.
      pose proof (Z.mod_pos_bound n 100 ltac:(lia)) as Hmb.
      assert (Hcases : k = 0 \/ k = 1 \/ k = 2 \/ k = 3 \/ k = 4 \/ k = 5
                       \/ k = 6 \/ k = 7 \/ k = 8 \/ k = 9 \/ k = 10
                       \/ k = 11 \/ k = 12 \/ k = 13 \/ k = 14 \/ k = 15) by lia.
      unfold n in *. clearbody k X a.
      destruct Hcases
        as [Hc | [Hc | [Hc | [Hc | [Hc | [Hc | [Hc | [Hc | [Hc | [Hc | [Hc
            | [Hc | [Hc | [Hc | [Hc | Hc]]]]]]]]]]]]]]];
        subst k; eval_pow2; lia. }
    change (2 ^ 23) with 8388608 in *. change (2 ^ 24) with 16777216 in *.
    destruct ((100 <? 2 * (n mod 100))
              || ((2 * (n mod 100) =? 100) && Z.odd (n / 100))); lia.
Qed.

(** Hence the magnitude of a record is never a NaN. *)
Lemma magnitude_not_nan (m : Z) :
  CInt.in_int16 m ->
  IEEE.is_nan64 (IEEE.f64_of_f32 (IEEE.f32_div100 m)) = false.
Proof.
  intros Hm. destruct (Z.eq_dec m 0) as [-> | Hm0]; [reflexivity | ].
  destruct (f32_div100_normal m Hm Hm0) as (s & r & -> & Hs & Hr).
  change (2 ^ 31) with 2147483648. change (2 ^ 23) with 8388608 in Hr.
  unfold IEEE.f64_of_f32, IEEE.is_nan64, IEEE.mag64, IEEE.inf64.
  change (2 ^ 31) with 2147483648. change (2 ^ 23) with 8388608.
  change (2 ^ 8) with 256. change (2 ^ 63) with 9223372036854775808.
  change (2 ^ 52) with 4503599627370496. change (2 ^ 29) with 536870912.
  set (B := s * 2147483648 + r).
  assert (Hs' : B / 2147483648 = s).
  { unfold B. symmetry. apply (Z.div_unique _ _ s r); lia. }
  pose proof (Z.div_mod B 8388608 ltac:(lia)) as Hdm.
  pose proof (Z.mod_pos_bound B 8388608 ltac:(lia)) as Hmb.
  set (f := B mod 8388608) in *. set (d := B / 8388608) in *.
  assert (Hd : d mod 256 = d - 256 * s /\ 120 <= d - 256 * s <= 136).
  { assert (Hrange : 120 <= d - 256 * s <= 136) by (unfold B in Hdm; lia).
    split; [ | exact Hrange].
    symmetry. apply (Z.mod_unique _ _ s); lia. }
  destruct Hd as [-> Hd]. rewrite Hs'.
  destruct (Z.eqb_spec (d - 256 * s) 255) as [ | _]; [lia | ].
  destruct (Z.eqb_spec (d - 256 * s) 0) as [ | _]; [lia | ].
  set (v := (d - 256 * s - 127 + 1023) * 4503599627370496 + f * 536870912).
  assert (Hv : 0 <= v < 2047 * 4503599627370496) by (unfold v; lia).
  replace ((s * 9223372036854775808 + v) mod 9223372036854775808) with v.
  - destruct (Z.ltb_spec (2047 * 4503599627370496) v); [lia | reflexivity].
  - apply (Z.mod_unique _ _ s); lia.
Qed.

(** ** Identifier sanitization *)

(** What the loop pushes for the first character, and for a later one. *)
Lemma sanitize_first_char (ch : ascii) :
  let c := tolower ch in
  let c0 := if isalpha c then c else "x"%char in
  Ascii.eqb c0 zero = false /\ isalpha c0 = true /\ tolower c0 = c0.
Proof.
  destruct ch as [[] [] [] [] [] [] [] []]; vm_compute; repeat split.
Qed.

Lemma sanitize_later_char (ch : ascii) :
  let c := tolower ch in
  let c1 := if isalnum c then c else "_"%char in
  Ascii.eqb c1 zero = false /\ is_ident_rest c1 = true
  /\ (if isalnum (tolower c1) then tolower c1 else "_"%char) = c1.
Proof.
  destruct ch as [[] [] [] [] [] [] [] []]; vm_compute; repeat split.
Qed.

Lemma sanitize_from_later (i : nat) (cs : string) :
  i <> 0%nat -> all_chars is_ident_rest (sanitize_from i cs) = true.
Proof.
  revert i. induction cs as [ | ch cs IH]; intros i Hi; [reflexivity | ].
  cbn [sanitize_from]. destruct (Ascii.eqb ch zero); [reflexivity | ].
  destruct i as [ | i]; [contradiction | ]. cbn [Nat.eqb all_chars].
  destruct (sanitize_later_char ch) as (_ & Hrest & _).
  cbv zeta in Hrest. rewrite Hrest. apply IH. discriminate.
Qed.

Lemma sanitize_from_idempotent (i : nat) (cs : string) :
  sanitize_from i (sanitize_from i cs) = sanitize_from i cs.
Proof.
  revert i. induction cs as [ | ch cs IH]; intros i; [reflexivity | ].
  cbn [sanitize_from]. destruct (Ascii.eqb ch zero); [reflexivity | ].
  destruct i as [ | i]; cbn [Nat.eqb sanitize_from].
  - destruct (sanitize_first_char ch) as (Hz & Ha & Hl). cbv zeta in Hz, Ha, Hl.
    rewrite Hz, Hl, Ha, IH. reflexivity.
  - destruct (sanitize_later_char ch) as (Hz & _ & Hl). cbv zeta in Hz, Hl.
    rewrite Hz, Hl, IH. reflexivity.
Qed.

(** C9 (amended).  [sanitizeForC] maps every non-empty input string to an
    identifier, an alphabetic character followed only by alphanumeric
    characters and underscores, and the empty string to the empty string;
    sanitizing twice gives the same result as sanitizing once. *)
Theorem C9_sanitize_identifier (cs : string) :
  is_identifier (sanitizeForC cs) = negb (c_empty cs)
  /\ sanitizeForC (sanitizeForC cs) = sanitizeForC cs.
Proof.
  split; [ | apply sanitize_from_idempotent].
  unfold sanitizeForC. destruct cs as [ | ch cs]; [reflexivity | ].
  cbn [sanitize_from c_empty]. destruct (Ascii.eqb ch zero); [reflexivity | ].
  cbn [Nat.eqb is_identifier negb].
  destruct (sanitize_first_char ch) as (_ & Ha & _). cbv zeta in Ha.
  rewrite Ha. apply sanitize_from_later. discriminate.
Qed.

(** C9, as stated, fails on the empty string: its image is empty and so
    does not start with an alphabetic character. *)
Lemma C9_counterexample :
  sanitizeForC "" = ""%string /\ is_identifier (sanitizeForC "") = false.
Proof. split; reflexivity. Qed.

Example sanitize_path : sanitizeForC "catalogs/BSC5.dat" = "catalogs_bsc5_dat"%string.
Proof. reflexivity. Qed.

Example sanitize_leading_digit : sanitizeForC "5SC" = "xsc"%string.
Proof. reflexivity. Qed.

(** ** [main]: header checks *)

(** A file of fewer than 28 bytes is rejected before any decoding. *)
Lemma main_header_short (o : Options.t) (file : buffer) :
  Z.of_nat (List.length file) < 28 ->
  main_header o file = Fail EmptyFile \/ main_header o file = Fail NoHeader.
Proof.
  intros Hlen. unfold main_header.
  destruct (Z.eqb_spec (Z.of_nat (List.length file)) 0); [left; reflexivity | ].
  destruct (Z.ltb_spec (Z.of_nat (List.length file)) 28); [right; reflexivity | lia].
Qed.

(** A successful [main_header], taken apart. *)
Lemma main_header_inv (o : Options.t) (file : buffer) (h : Header.t) :
  main_header o file = Done h ->
  exists h0,
    parseHeader file (Options.epoch o) (Options.endian o) = Done h0
    /\ 28 <= Z.of_nat (List.length file)
    /\ CInt.to_size_t
         (CInt.add 28 (CInt.mul (Header.numStars h0) (Header.numBytesPerStar h0)))
       <= Z.of_nat (List.length file)
    /\ 1 <= Header.numMagnitudes h0
    /\ h = Header.set_apparentMagnitude (Header.numMagnitudes h0 - 1) h0.
Proof.
  unfold main_header. intros H.
  destruct (Z.eqb_spec (Z.of_nat (List.length file)) 0); [discriminate | ].
  destruct (Z.ltb_spec (Z.of_nat (List.length file)) 28); [discriminate | ].
  inv_bind H. exists v. split; [assumption | ]. split; [assumption | ].
  destruct (Z.ltb_spec (Z.of_nat (List.length file))
              (CInt.to_size_t
                 (CInt.add 28 (CInt.mul (Header.numStars v) (Header.numBytesPerStar v)))));
    [discriminate | ].
  destruct (Z.ltb_spec (Header.numMagnitudes v) 1); [discriminate | ].
  split; [assumption | ]. split; [assumption | ].
  apply Done_inj in H. subst h. f_equal. lia.
Qed.

(** When the product of the star count and the stride fits an [int], a
    declared record region larger than the file is rejected. *)
Lemma main_header_truncated (o : Options.t) (file : buffer) (h0 : Header.t) :
  28 <= Z.of_nat (List.length file) ->
  parseHeader file (Options.epoch o) (Options.endian o) = Done h0 ->
  0 <= Header.numStars h0 * Header.numBytesPerStar h0 <= CInt.INT_MAX - 28 ->
  Z.of_nat (List.length file)
  < 28 + Header.numStars h0 * Header.numBytesPerStar h0 ->
  exists e, main_header o file = Fail e.
Proof.
  intros Hlen Hh Hfit Hshort. unfold main_header.
  destruct (Z.eqb_spec (Z.of_nat (List.length file)) 0); [lia | ].
  destruct (Z.ltb_spec (Z.of_nat (List.length file)) 28); [lia | ].
  rewrite Hh. cbn [bind]. unfold CInt.INT_MAX in Hfit.
  unfold CInt.mul, CInt.add.
  rewrite (to_int32_small (Header.numStars h0 * Header.numBytesPerStar h0))
    by (unfold CInt.in_int32, CInt.INT_MIN, CInt.INT_MAX; lia).
  rewrite to_int32_small
    by (unfold CInt.in_int32, CInt.INT_MIN, CInt.INT_MAX; lia).
  unfold CInt.to_size_t. rewrite Z.mod_small by lia.
  destruct (Z.ltb_spec (Z.of_nat (List.length file))
              (28 + Header.numStars h0 * Header.numBytesPerStar h0)); [ | lia].
  eexists. reflexivity.
Qed.

(** A header without magnitudes is rejected. *)
Lemma main_header_too_few_magnitudes (o : Options.t) (file : buffer)
      (h0 : Header.t) :
  28 <= Z.of_nat (List.length file) ->
  parseHeader file (Options.epoch o) (Options.endian o) = Done h0 ->
  Header.numMagnitudes h0 < 1 ->
  exists e, main_header o file = Fail e.
Proof.
  intros Hlen Hh Hmag. unfold main_header.
  destruct (Z.eqb_spec (Z.of_nat (List.length file)) 0); [lia | ].
  destruct (Z.ltb_spec (Z.of_nat (List.length file)) 28); [lia | ].
  rewrite Hh. cbn [bind].
  match goal with |- context [if ?c then _ else _] => destruct c end;
    [eexists; reflexivity | ].
  destruct (Z.ltb_spec (Header.numMagnitudes h0) 1); [ | lia].
  eexists. reflexivity.
Qed.

(** A rejected header ends the run: nothing is decoded or printed. *)
Lemma main_fatal (o : Options.t) (file : buffer) (e : diagnostic) :
  main_header o file = Fail e ->
  main o file = Fail e /\ main_stars o file = Fail e.
Proof. intros H. unfold main, main_stars. rewrite H. split; reflexivity. Qed.

(** C5: the size cross-check computes the record region in 32-bit
    arithmetic.  A 28-byte file declaring 65536 stars of 65536 bytes each
    passes it, the product wrapping to 0: the header is accepted, and
    with [-i] the run prints the catalog summary and completes. *)
Theorem C5_size_check_wraps :
  Z.of_nat (List.length header_overflow) < 28 + 65536 * 65536
  /\ main_header (Options.default "catalog") header_overflow
     = Done (Header.set_apparentMagnitude 0
               (header_of 65536 1 0 1 65536 true))
  /\ main (Options.set_onlymeta true (Options.default "catalog")) header_overflow
     = Done (print_meta (Header.set_apparentMagnitude 0
                           (header_of 65536 1 0 1 65536 true)))
  /\ forall e, main (Options.default "catalog") header_overflow <> Fail e.
Proof.
  split; [vm_compute; reflexivity | ].
  split; [vm_compute; reflexivity | ].
  split; [vm_compute; reflexivity | ].
  intros e. vm_compute. discriminate.
Qed.

(** ** [main]: the options it ignores or clears *)

(** The index assigned to the header does not depend on the [-a] option. *)
Lemma main_header_apparentMagnitude (o : Options.t) (file : buffer)
      (h : Header.t) :
  main_header o file = Done h ->
  Header.apparentMagnitude h = Some (Header.numMagnitudes h - 1).
Proof.
  intros H. apply main_header_inv in H.
  destruct H as (h0 & _ & _ & _ & _ & ->). reflexivity.
Qed.

Lemma main_ignores_apparentMagnitude (a : Z) (o : Options.t) (file : buffer) :
  main (Options.set_apparentMagnitude a o) file = main o file.
Proof. reflexivity. Qed.

(** C1: the apparent magnitude selector given with [-a] is not used.  On
    a catalog with the two magnitude fields 450 and 300, a run with
    selector 0 keeps the field at index 1, magnitude 3.00 and not 4.50. *)
Theorem C1_selector_ignored :
  parse_int16 catalog_two_magnitudes (28 + 22) true = Done 450
  /\ parse_int16 catalog_two_magnitudes (28 + 24) true = Done 300
  /\ exists k s,
      main_stars (Options.set_apparentMagnitude 0 (Options.default "catalog"))
                 catalog_two_magnitudes = Done [(k, s)]
      /\ Star.magnitude s = IEEE.f32_div100 300
      /\ Star.magnitude s <> IEEE.f32_div100 450.
Proof.
  split; [reflexivity | ]. split; [reflexivity | ].
  eexists. eexists. split; [vm_compute; reflexivity | ].
  split; [reflexivity | vm_compute; discriminate].
Qed.


(** ** Records decoded under the header of [main] *)

Lemma main_header_facts (o : Options.t) (file : buffer) (h : Header.t) :
  main_header o file = Done h ->
  1 <= Header.numMagnitudes h <= 10
  /\ CInt.in_int32 (Header.starNameLength h)
  /\ CInt.in_int32 (Header.numStars h)
  /\ (Header.starNameLength h <> 0 -> Header.starId h = Header.NO_STAR_ID).
Proof.
  intros H. apply main_header_inv in H.
  destruct H as (h0 & Hh0 & _ & _ & Hmag & ->).
  apply parseHeader_inv in Hh0.
  destruct Hh0 as (nmag & e & starn & stnum & mprop & nbent
                   & Hprobe & _ & _ & _ & _ & ->).
  destruct (probe_endian_reading _ _ _ _ Hprobe) as [_ Habs].
  cbn in *. split; [lia | ]. split; [ | split; [apply abs_in_int32 | ]].
  - destruct (stnum <? 0); [apply to_int32_range | ].
    unfold CInt.in_int32, CInt.INT_MIN, CInt.INT_MAX. lia.
  - destruct (stnum <? 0); [reflexivity | ]. intros Hn. contradiction.
Qed.

(** The magnitude [main] keeps for a record is the last magnitude field,
    whatever selector was given. *)
Lemma main_keeps_last_magnitude (o : Options.t) (file : buffer)
      (h : Header.t) (p : Z) (star : Star.t) :
  main_header o file = Done h ->
  parseStar h file p = Done star ->
  exists m,
    parse_int16 file (p + (magnitudes_offset h + 2 * (Header.numMagnitudes h - 1)))
                (Header.littleEndian h) = Done m
    /\ Star.magnitude star = IEEE.f32_div100 m.
Proof.
  intros Hh Hs.
  destruct (main_header_facts _ _ _ Hh) as (Hmag & Hname & _ & _).
  apply parseStar_inv in Hs; [ | change (2 ^ 20) with 1048576; lia | assumption].
  destruct Hs as (_ & _ & _ & a & m & Ha & _ & Hp & Hm).
  rewrite (main_header_apparentMagnitude _ _ _ Hh) in Ha. injection Ha as <-.
  exists m. split; assumption.
Qed.

(** C8 (amended).  The name of a decoded record is the name field, the
    declared number of bytes at the name position, cut at its first zero
    byte if it has one; a name field without a zero byte is kept whole,
    all [nameLength] bytes of it.  When the name length is 0 the name is
    empty, and a positive name length only occurs with id kind None. *)
Theorem C8_name_until_nul (o : Options.t) (file : buffer) (h : Header.t)
        (p : Z) (star : Star.t) :
  main_header o file = Done h ->
  parseStar h file p = Done star ->
  Star.name star = c_str (name_field h file p)
  /\ (forallb (fun b => negb (is_nul b)) (name_field h file p) = true ->
      Star.name star = name_field h file p
      /\ Z.of_nat (List.length (Star.name star)) = Header.starNameLength h)
  /\ (Header.starNameLength h = 0 -> Star.name star = [])
  /\ (0 < Header.starNameLength h -> Header.starId h = Header.NO_STAR_ID).
Proof.
  intros Hh Hs.
  destruct (main_header_facts _ _ _ Hh) as (Hmag & Hname & _ & Hid).
  apply parseStar_inv in Hs; [ | change (2 ^ 20) with 1048576; lia | assumption].
  destruct Hs as (_ & Hc & Hfull & _).
  split; [assumption | ]. split; [ | split].
  - intros Hall. rewrite Hc, (c_str_no_nul _ Hall). split; [reflexivity | ].
    apply Hfull. exact Hall.
  - intros H0. rewrite Hc. unfold name_field. rewrite H0. reflexivity.
  - intros Hpos. apply Hid. lia.
Qed.

(** [C8_name_until_nul] on the first record of the sample catalog. *)
Lemma C8_name_until_nul_witness :
  exists h star,
    main_header (Options.default "catalog") catalog_abc = Done h
    /\ parseStar h catalog_abc 28 = Done star
    /\ Star.name star = [x41; x42; x43]
    /\ Header.starId h = Header.NO_STAR_ID.
Proof.
  eexists. eexists.
  split; [vm_compute; reflexivity | ]. split; [vm_compute; reflexivity | ].
  match goal with
  | |- Star.name ?s = _ /\ Header.starId ?h = _ =>
      destruct (C8_name_until_nul (Options.default "catalog") catalog_abc h 28 s
                  eq_refl eq_refl) as (_ & Hwhole & _ & Hid)
  end.
  split.
  - destruct (Hwhole eq_refl) as [Hname _]. exact Hname.
  - apply Hid. reflexivity.
Defined.

(** C8, as stated, fails on a record whose three-byte name field is
    41 00 42: the decoded name is the single byte 41. *)
Lemma C8_counterexample :
  exists h k star,
    main_header (Options.default "catalog") catalog_nul_name = Done h
    /\ Header.starId h = Header.NO_STAR_ID
    /\ Header.starNameLength h = 3
    /\ name_field h catalog_nul_name 28 = [x41; x00; x42]
    /\ main_stars (Options.default "catalog") catalog_nul_name = Done [(k, star)]
    /\ Star.name star = [x41].
Proof.
  eexists. eexists. eexists.
  split; [vm_compute; reflexivity | ].
  split; [reflexivity | ]. split; [reflexivity | ]. split; [reflexivity | ].
  split; [vm_compute; reflexivity | reflexivity].
Qed.

(** The size cross-check reads the stride as an [int]: a negative stride
    makes the record region look smaller than the header alone, and the
    run decodes its record. *)
Example negative_stride_accepted :
  parse_int32 catalog_negative_stride 24 true = Done (-8)
  /\ exists k s,
      main_stars (Options.default "catalog") catalog_negative_stride
      = Done [(k, s)].
Proof.
  split; [reflexivity | ]. do 2 eexists. vm_compute. reflexivity.
Qed.

(** ** Pipeline *)

(** *** Comparisons of doubles that are not NaN *)

Lemma ltb64_ord (a b : IEEE.f64) :
  IEEE.is_nan64 a = false -> IEEE.is_nan64 b = false ->
  IEEE.ltb64 a b = (IEEE.ord64 a <? IEEE.ord64 b).
Proof. intros Ha Hb. unfold IEEE.ltb64. rewrite Ha, Hb. reflexivity. Qed.

Lemma leb64_ord (a b : IEEE.f64) :
  IEEE.is_nan64 a = false -> IEEE.is_nan64 b = false ->
  IEEE.leb64 a b = (IEEE.ord64 a <=? IEEE.ord64 b).
Proof. intros Ha Hb. unfold IEEE.leb64. rewrite Ha, Hb. reflexivity. Qed.

Lemma eqb64_true (a b : IEEE.f64) :
  IEEE.eqb64 a b = true ->
  IEEE.is_nan64 a = false /\ IEEE.is_nan64 b = false
  /\ IEEE.ord64 a = IEEE.ord64 b.
Proof.
  unfold IEEE.eqb64. destruct (IEEE.is_nan64 a); [discriminate | ].
  destruct (IEEE.is_nan64 b); [discriminate | ]. cbn [negb andb].
  intros H. apply Z.eqb_eq in H. repeat split. exact H.
Qed.

Lemma eqb64_ord (a b : IEEE.f64) :
  IEEE.is_nan64 a = false ->
  IEEE.eqb64 a b = negb (IEEE.is_nan64 b) && (IEEE.ord64 a =? IEEE.ord64 b).
Proof. intros Ha. unfold IEEE.eqb64. rewrite Ha. reflexivity. Qed.

(** *** Conversion of record indices to keys *)

Lemma pow2_split (k : Z) : 0 <= k <= 52 -> 2 ^ k * 2 ^ (52 - k) = 2 ^ 52.
Proof. intros Hk. rewrite <- Z.pow_add_r by lia. f_equal. lia. Qed.

Lemma f64_of_int_bounds (i : Z) :
  0 < i < 2 ^ 31 ->
  0 <= Z.log2 i <= 30
  /\ (Z.log2 i + 1023) * 2 ^ 52 <= IEEE.f64_of_int i
     < (Z.log2 i + 1024) * 2 ^ 52
  /\ IEEE.f64_of_int i
     = (Z.log2 i + 1022) * 2 ^ 52 + i * 2 ^ (52 - Z.log2 i).
Proof.
  intros Hi.
  assert (Hk : 0 <= Z.log2 i <= 30).
  { split; [apply Z.log2_nonneg | ].
    assert (Z.log2 i < 31) by (apply Z.log2_lt_pow2; lia). lia. }
  pose proof (Z.log2_spec i ltac:(lia)) as Hspec.
  pose proof (pow2_split (Z.log2 i) ltac:(lia)) as Hsplit.
  assert (Hpos : 0 < 2 ^ (52 - Z.log2 i)) by (apply Z.pow_pos_nonneg; lia).
  replace (2 ^ Z.succ (Z.log2 i)) with (2 * 2 ^ Z.log2 i) in Hspec
    by (rewrite Z.pow_succ_r; lia).
  assert (Hlo : 2 ^ 52 <= i * 2 ^ (52 - Z.log2 i)).
  { rewrite <- Hsplit. apply Z.mul_le_mono_nonneg_r; lia. }
  assert (Hhi : i * 2 ^ (52 - Z.log2 i) < 2 * 2 ^ 52).
  { rewrite <- Hsplit. rewrite Z.mul_assoc.
    apply Z.mul_lt_mono_pos_r; lia. }
  split; [assumption | ].
  unfold IEEE.f64_of_int.
  destruct (Z.eqb_spec i 0); [lia | ].
  destruct (Z.ltb_spec i 0); [lia | ].
  rewrite Z.abs_eq by lia. cbv zeta. lia.
Qed.

Lemma f64_of_int_rank (i : Z) :
  0 <= i < 2 ^ 31 ->
  IEEE.is_nan64 (IEEE.f64_of_int i) = false
  /\ IEEE.ord64 (IEEE.f64_of_int i) = IEEE.f64_of_int i
  /\ 0 <= IEEE.f64_of_int i.
Proof.
  intros Hi.
  assert (Hr : 0 <= IEEE.f64_of_int i < 1054 * 2 ^ 52).
  { destruct (Z.eq_dec i 0) as [-> | Hne]; [vm_compute; split; [discriminate | reflexivity] | ].
    destruct (f64_of_int_bounds i ltac:(lia)) as (Hk & Hb & _).
    assert (0 < 2 ^ 52) by (apply Z.pow_pos_nonneg; lia). nia. }
  change (2 ^ 52) with 4503599627370496 in Hr.
  unfold IEEE.is_nan64, IEEE.ord64, IEEE.sign64, IEEE.mag64, IEEE.inf64.
  change (2 ^ 63) with 9223372036854775808.
  change (2 ^ 52) with 4503599627370496.
  rewrite Z.mod_small by lia.
  destruct (Z.leb_spec 9223372036854775808 (IEEE.f64_of_int i)); [lia | ].
  destruct (Z.ltb_spec (2047 * 4503599627370496) (IEEE.f64_of_int i)); [lia | ].
  repeat split; lia.
Qed.

Lemma f64_of_int_mono (i j : Z) :
  0 <= i -> i < j -> j < 2 ^ 31 ->
  IEEE.f64_of_int i < IEEE.f64_of_int j.
Proof.
  intros Hi Hij Hj.
  destruct (f64_of_int_bounds j ltac:(lia)) as (Hkj & Hbj & Hej).
  assert (Hp : 0 < 2 ^ 52) by (apply Z.pow_pos_nonneg; lia).
  destruct (Z.eq_dec i 0) as [-> | Hne].
  - change (IEEE.f64_of_int 0) with 0. nia.
  - destruct (f64_of_int_bounds i ltac:(lia)) as (Hki & Hbi & Hei).
    assert (Hle : Z.log2 i <= Z.log2 j) by (apply Z.log2_le_mono; lia).
    destruct (Z.eq_dec (Z.log2 i) (Z.log2 j)) as [Heq | Hneq].
    + rewrite Hei, Hej, Heq.
      assert (0 < 2 ^ (52 - Z.log2 j)) by (apply Z.pow_pos_nonneg; lia).
      nia.
    + nia.
Qed.

(** An index key is never below the key of an earlier index. *)
Lemma index_key_not_less (i j : Z) :
  0 <= j -> j < i -> i < 2 ^ 31 ->
  IEEE.ltb64 (IEEE.f64_of_int i) (IEEE.f64_of_int j) = false.
Proof.
  intros Hj Hji Hi.
  destruct (f64_of_int_rank i ltac:(lia)) as (Hni & Hoi & _).
  destruct (f64_of_int_rank j ltac:(lia)) as (Hnj & Hoj & _).
  rewrite ltb64_ord by assumption. rewrite Hoi, Hoj.
  pose proof (f64_of_int_mono j i Hj Hji Hi).
  destruct (Z.ltb_spec (IEEE.f64_of_int i) (IEEE.f64_of_int j)); [lia | reflexivity].
Qed.

(** *** Insertion into the map *)

Lemma upper_insert_perm (k : IEEE.f64) (v : Star.t) (m : multimap) :
  Permutation (upper_insert k v m) (m ++ [(k, v)]).
Proof.
  induction m as [ | [k' v'] m IH]; [apply Permutation_refl | ].
  cbn [upper_insert]. destruct (IEEE.ltb64 k k').
  - change ((k, v) :: (k', v') :: m) with ([(k, v)] ++ ((k', v') :: m)).
    apply Permutation_app_comm.
  - cbn [app]. apply perm_skip. exact IH.
Qed.

Lemma upper_insert_keys_ok (k : IEEE.f64) (v : Star.t) (m : multimap) :
  IEEE.is_nan64 k = false -> keys_ok m -> keys_ok (upper_insert k v m).
Proof.
  intros Hk Hm. unfold keys_ok in *.
  apply (Permutation_Forall (Permutation_sym (upper_insert_perm k v m))).
  apply Forall_app. split; [assumption | ]. constructor; [exact Hk | constructor].
Qed.

Lemma upper_insert_ascending (k : IEEE.f64) (v : Star.t) (m : multimap) :
  IEEE.is_nan64 k = false -> keys_ok m -> ascending m ->
  ascending (upper_insert k v m).
Proof.
  intros Hk Hok Hasc. unfold keys_ok, ascending in *.
  induction m as [ | [k' v'] m IH].
  - cbn. constructor; constructor.
  - inversion Hok as [ | ? ? Hk' Hok']; subst. cbn [fst] in Hk'.
    inversion Hasc as [ | ? ? Hasc' Hall]; subst.
    cbn [upper_insert]. rewrite ltb64_ord by assumption.
    destruct (Z.ltb_spec (IEEE.ord64 k) (IEEE.ord64 k')) as [Hlt | Hge].
    + constructor; [exact Hasc | ]. constructor; [cbn [fst]; lia | ].
      eapply Forall_impl; [ | exact Hall]. cbn [fst]. intros e He. lia.
    + constructor; [apply IH; assumption | ].
      apply (Permutation_Forall (Permutation_sym (upper_insert_perm k v m))).
      apply Forall_app. split; [assumption | ].
      constructor; [cbn [fst]; lia | constructor].
Qed.

(** The entries of a given key keep their order, the new entry coming
    last among them. *)
Lemma upper_insert_filter (k c : IEEE.f64) (v : Star.t) (m : multimap) :
  IEEE.is_nan64 k = false -> keys_ok m -> ascending m ->
  filter (fun e => IEEE.eqb64 (fst e) c) (upper_insert k v m)
  = filter (fun e => IEEE.eqb64 (fst e) c) (m ++ [(k, v)]).
Proof.
  intros Hk Hok Hasc. unfold keys_ok, ascending in *.
  induction m as [ | [k' v'] m IH]; [reflexivity | ].
  inversion Hok as [ | ? ? Hk' Hok']; subst. cbn [fst] in Hk'.
  inversion Hasc as [ | ? ? Hasc' Hall]; subst.
  cbn [upper_insert]. rewrite ltb64_ord by assumption.
  destruct (Z.ltb_spec (IEEE.ord64 k) (IEEE.ord64 k')) as [Hlt | Hge].
  - cbn [filter fst]. rewrite filter_app. cbn [filter fst].
    destruct (IEEE.eqb64 k c) eqn:Hkc.
    + (* every entry from here on has a greater key *)
      apply eqb64_true in Hkc. destruct Hkc as (_ & Hc & Hkc).
      assert (Hnone : forall l : multimap,
                 Forall (fun e => IEEE.ord64 k' <= IEEE.ord64 (fst e)) l ->
                 filter (fun e => IEEE.eqb64 (fst e) c) l = []).
      { intros l Hl. induction l as [ | e l IHl]; [reflexivity | ].
        inversion Hl; subst. cbn [filter].
        destruct (IEEE.eqb64 (fst e) c) eqn:Hec; [ | apply IHl; assumption].
        apply eqb64_true in Hec. lia. }
      rewrite (Hnone m Hall).
      destruct (IEEE.eqb64 k' c) eqn:Hk'c; [ | reflexivity].
      apply eqb64_true in Hk'c. lia.
    + rewrite app_nil_r. reflexivity.
  - cbn [app filter fst]. rewrite (IH Hok' Hasc'). reflexivity.
Qed.

(** A key not below any key of the map goes to the end. *)
Lemma upper_insert_last (k : IEEE.f64) (v : Star.t) (m : multimap) :
  Forall (fun e => IEEE.ltb64 k (fst e) = false) m ->
  upper_insert k v m = m ++ [(k, v)].
Proof.
  induction m as [ | [k' v'] m IH]; intros H; [reflexivity | ].
  inversion H as [ | ? ? Hk' H']; subst. cbn [fst] in Hk'.
  cbn [upper_insert app]. rewrite Hk', (IH H'). reflexivity.
Qed.

(** *** The record loop as a sequence of insertions *)

Lemma main_loop_insert_all (h : Header.t) (data : buffer) (f : IEEE.f64)
      (sort : Sort.t) (n : nat) (i cursor : Z) (map m : multimap) :
  main_loop h data f sort n i cursor map = Done m ->
  exists stars,
    records h data n cursor = Done stars
    /\ List.length stars = n
    /\ keys_ordered f sort i stars = true
    /\ m = insert_all f sort i stars map.
Proof.
  revert i cursor map. induction n as [ | n IH]; intros i cursor map H.
  - simpl in H. apply Done_inj in H. subst m. exists []. repeat split.
  - cbn [main_loop] in H. inv_bind H. inv_bind H.
    destruct (IH _ _ _ H) as (rest & Hrest & Hlen & Hkeys & Hm).
    exists (v :: rest). cbn [records]. rewrite E, Hrest. cbn [bind].
    split; [reflexivity | ]. split; [cbn; congruence | ].
    cbn [keys_ordered insert_all].
    destruct (filtered f v) eqn:Hf.
    + apply Done_inj in E0. subst v0. cbn [orb andb].
      split; assumption.
    + unfold multimap_insert in E0.
      destruct (IEEE.is_nan64 (sort_key sort i v)); [discriminate | ].
      apply Done_inj in E0. subst v0. cbn [orb negb andb]. split; assumption.
Qed.

Lemma survivors_cons (f : IEEE.f64) (s : Star.t) (stars : list Star.t) :
  survivors f (s :: stars)
  = if filtered f s then survivors f stars else s :: survivors f stars.
Proof. unfold survivors. cbn [filter]. destruct (filtered f s); reflexivity. Qed.

(** The map holds the survivors, whatever the ordering. *)
Lemma insert_all_perm (f : IEEE.f64) (sort : Sort.t) (stars : list Star.t)
      (i : Z) (map : multimap) :
  Permutation (List.map snd (insert_all f sort i stars map))
              (List.map snd map ++ survivors f stars).
Proof.
  revert i map. induction stars as [ | s stars IH]; intros i map.
  - cbn. rewrite app_nil_r. apply Permutation_refl.
  - cbn [insert_all]. rewrite survivors_cons.
    eapply Permutation_trans; [apply IH | ].
    destruct (filtered f s); [apply Permutation_refl | ].
    apply Permutation_trans
      with (List.map snd (map ++ [(sort_key sort i s, s)]) ++ survivors f stars).
    + apply Permutation_app_tail. apply Permutation_map. apply upper_insert_perm.
    + rewrite map_app, <- app_assoc. apply Permutation_refl.
Qed.

(** *** Without sorting: index keys *)

Lemma insert_all_index_order (f : IEEE.f64) (stars : list Star.t) (i : Z)
      (map : multimap) :
  0 <= i -> i + Z.of_nat (List.length stars) <= 2 ^ 31 ->
  Forall (fun e => exists j, 0 <= j < i /\ fst e = IEEE.f64_of_int j) map ->
  List.map snd (insert_all f Sort.NO i stars map)
  = List.map snd map ++ survivors f stars.
Proof.
  revert i map. induction stars as [ | s stars IH]; intros i map Hi Hmax Hmap.
  - cbn. rewrite app_nil_r. reflexivity.
  - cbn [insert_all]. rewrite survivors_cons. cbn [List.length] in Hmax.
    assert (Hweak : Forall (fun e => exists j, 0 <= j < i + 1
                                               /\ fst e = IEEE.f64_of_int j) map).
    { eapply Forall_impl; [ | exact Hmap]. intros e (j & Hj & He).
      exists j. split; [lia | exact He]. }
    destruct (filtered f s).
    + apply IH; [lia | lia | exact Hweak].
    + cbn [sort_key]. rewrite (upper_insert_last (IEEE.f64_of_int i) s map).
      * rewrite IH; [ | lia | lia | ].
        -- rewrite map_app, <- app_assoc. reflexivity.
        -- apply Forall_app. split; [exact Hweak | ].
           constructor; [ | constructor]. exists i. split; [lia | reflexivity].
      * eapply Forall_impl; [ | exact Hmap]. intros e (j & Hj & ->).
        apply index_key_not_less; lia.
Qed.

(** *** Sorting by a key of the record *)

Section KeyOrder.

Variable f : IEEE.f64.
Variable sort : Sort.t.
Variable key : Star.t -> IEEE.f64.
Hypothesis sort_key_is_key : forall i s, sort_key sort i s = key s.

Local Abbreviation consistent := (consistent key).
Local Abbreviation entries := (entries key).

Lemma insert_all_ordered (stars : list Star.t) (i : Z) (map : multimap) :
  keys_ordered f sort i stars = true ->
  keys_ok map -> ascending map -> consistent map ->
  keys_ok (insert_all f sort i stars map)
  /\ ascending (insert_all f sort i stars map)
  /\ consistent (insert_all f sort i stars map)
  /\ forall c,
      filter (fun e => IEEE.eqb64 (fst e) c) (insert_all f sort i stars map)
      = filter (fun e => IEEE.eqb64 (fst e) c) map
        ++ filter (fun e => IEEE.eqb64 (fst e) c) (entries (survivors f stars)).
Proof.
  revert i map. induction stars as [ | s stars IH]; intros i map Hkeys Hok Hasc Hcon.
  - cbn. repeat (split; [assumption | ]). intros c. rewrite app_nil_r. reflexivity.
  - cbn [insert_all keys_ordered] in *. rewrite survivors_cons.
    apply andb_true_iff in Hkeys. destruct Hkeys as [Hs Hkeys].
    destruct (filtered f s); [apply IH; assumption | ].
    cbn [orb] in Hs. apply negb_true_iff in Hs. rewrite sort_key_is_key in *.
    destruct (IH (i + 1) (upper_insert (key s) s map) Hkeys)
      as (Hok' & Hasc' & Hcon' & Hfil).
    + apply upper_insert_keys_ok; assumption.
    + apply upper_insert_ascending; assumption.
    + unfold consistent.
      apply (Permutation_Forall (Permutation_sym (upper_insert_perm (key s) s map))).
      apply Forall_app. split; [exact Hcon | ]. constructor; [reflexivity | constructor].
    + repeat (split; [assumption | ]). intros c. rewrite Hfil.
      rewrite upper_insert_filter by assumption.
      change (entries (s :: survivors f stars))
        with ([(key s, s)] ++ entries (survivors f stars)).
      rewrite !filter_app, <- app_assoc. reflexivity.
Qed.

Lemma consistent_filter (c : IEEE.f64) (m : multimap) :
  consistent m ->
  List.map snd (filter (fun e => IEEE.eqb64 (fst e) c) m)
  = filter (fun s => IEEE.eqb64 (key s) c) (List.map snd m).
Proof.
  induction 1 as [ | [k s] m Hk Hm IH]; [reflexivity | ].
  cbn [fst snd] in Hk. subst k. cbn [filter List.map fst snd].
  destruct (IEEE.eqb64 (key s) c); cbn [List.map snd]; rewrite IH; reflexivity.
Qed.

Lemma entries_consistent (l : list Star.t) : consistent (entries l).
Proof. induction l; constructor; [reflexivity | assumption]. Qed.

Lemma entries_stars (l : list Star.t) : List.map snd (entries l) = l.
Proof.
  unfold entries. rewrite map_map. cbn [snd]. apply map_id.
Qed.

Lemma ascending_stars (m : multimap) :
  keys_ok m -> ascending m -> consistent m ->
  StronglySorted (fun a b => IEEE.leb64 (key a) (key b) = true) (List.map snd m).
Proof.
  unfold keys_ok, ascending, consistent.
  induction m as [ | [k s] m IH]; intros Hok Hasc Hcon; [constructor | ].
  inversion Hok as [ | ? ? Hk Hok']; subst.
  inversion Hasc as [ | ? ? Hasc' Hall]; subst.
  inversion Hcon as [ | ? ? Hks Hcon']; subst.
  cbn [fst snd] in *. subst k. cbn [List.map snd].
  constructor; [apply IH; assumption | ].
  apply Forall_map.
  rewrite Forall_forall in *. intros e He.
  rewrite leb64_ord; [ | assumption | rewrite <- (Hcon' e He); apply Hok'; exact He].
  rewrite <- (Hcon' e He). apply Z.leb_le. apply Hall. exact He.
Qed.

(** The loop, started on the empty map, leaves a stable ordering of the
    survivors by [key]. *)
Lemma insert_all_stable (stars : list Star.t) (i : Z) :
  keys_ordered f sort i stars = true ->
  stable_ordering key (survivors f stars)
                  (List.map snd (insert_all f sort i stars [])).
Proof.
  intros Hkeys.
  destruct (insert_all_ordered stars i [] Hkeys)
    as (Hok & Hasc & Hcon & Hfil); [constructor | constructor | constructor | ].
  unfold stable_ordering. split; [ | split; [ | split]].
  - apply (insert_all_perm f sort stars i []).
  - apply ascending_stars; assumption.
  - intros a b Ha Hb.
    apply in_map_iff in Ha. destruct Ha as ([ka sa] & <- & Ha).
    apply in_map_iff in Hb. destruct Hb as ([kb sb] & <- & Hb).
    unfold keys_ok, consistent in *. rewrite Forall_forall in Hok, Hcon.
    pose proof (Hok _ Ha) as Hna. pose proof (Hok _ Hb) as Hnb.
    pose proof (Hcon _ Ha) as Hca. pose proof (Hcon _ Hb) as Hcb.
    cbn [fst snd] in *. subst ka kb.
    rewrite !leb64_ord by assumption.
    destruct (Z.le_ge_cases (IEEE.ord64 (key sa)) (IEEE.ord64 (key sb)));
      [left | right]; apply Z.leb_le; assumption.
  - intros c. rewrite <- consistent_filter by assumption.
    rewrite Hfil. cbn [filter app].
    rewrite consistent_filter by apply entries_consistent.
    rewrite entries_stars. reflexivity.
Qed.

End KeyOrder.

(** *** The stars [main] collects *)

Lemma main_stars_inv (o : Options.t) (file : buffer) (m : multimap) :
  main_stars o file = Done m ->
  exists h stars,
    main_header o file = Done h
    /\ records h file (Z.to_nat (Header.numStars h)) 28 = Done stars
    /\ List.length stars = Z.to_nat (Header.numStars h)
    /\ keys_ordered (Options.filterMagnitude o) (Options.sort o) 0 stars = true
    /\ m = insert_all (Options.filterMagnitude o) (Options.sort o) 0 stars [].
Proof.
  unfold main_stars. intros H. inv_bind H.
  apply main_loop_insert_all in H. destruct H as (stars & Hr & Hl & Hk & Hm).
  exists v, stars. repeat (split; [assumption | ]). assumption.
Qed.

Lemma main_stars_survivors (o : Options.t) (file : buffer) (m : multimap) :
  main_stars o file = Done m ->
  Forall (fun e => filtered (Options.filterMagnitude o) (snd e) = false) m.
Proof.
  intros H. apply main_stars_inv in H.
  destruct H as (h & stars & _ & _ & _ & _ & ->).
  pose proof (insert_all_perm (Options.filterMagnitude o) (Options.sort o)
                              stars 0 []) as Hperm.
  cbn [List.map app] in Hperm.
  rewrite Forall_forall. intros e He.
  assert (Hin : In (snd e) (survivors (Options.filterMagnitude o) stars)).
  { eapply Permutation_in; [exact Hperm | ]. apply in_map. exact He. }
  unfold survivors in Hin. apply filter_In in Hin. destruct Hin as [_ Hin].
  apply negb_true_iff in Hin. exact Hin.
Qed.

(** What a completed run has printed. *)
Lemma main_output (o : Options.t) (file : buffer) (out : list field) :
  main o file = Done out ->
  exists h,
    main_header o file = Done h
    /\ if Options.onlymeta o then out = print_meta h
       else exists m,
           main_stars o file = Done m
           /\ let usename := if Header.starNameLength h =? 0 then false
                             else Options.usename o in
              out = (if Options.cformat o
                     then printCHeader (Options.inputfile o)
                                       (Z.of_nat (List.length m))
                                       (Header.epoch h) (Options.usefloat o)
                                       usename (Options.usetype o)
                     else [])
                    ++ print_all m 0 (Options.cformat o) (Options.usefloat o)
                                 usename (Options.usetype o)
                    ++ (if Options.cformat o then printCFooter else []).
Proof.
  unfold main. intros H. inv_bind H. exists v.
  split; [exact E | ]. unfold main_stars. rewrite E. cbn [bind].
  destruct (Options.onlymeta o).
  - apply Done_inj in H. symmetry. exact H.
  - inv_bind H. exists v0. split; [assumption | ].
    apply Done_inj in H. symmetry. exact H.
Qed.

(** C6.  Whatever the filter threshold, no record with magnitude,
    right ascension and declination all equal to zero is among the
    records a run prints: the output is the rendering of a map none of
    whose stars is all-zero. *)
Theorem C6_all_zero_dropped (o : Options.t) (file : buffer) (out : list field) :
  main o file = Done out ->
  exists h,
    main_header o file = Done h
    /\ if Options.onlymeta o then out = print_meta h
       else exists m,
           main_stars o file = Done m
           /\ Forall (fun e => all_zero (snd e) = false) m
           /\ let usename := if Header.starNameLength h =? 0 then false
                             else Options.usename o in
              out = (if Options.cformat o
                     then printCHeader (Options.inputfile o)
                                       (Z.of_nat (List.length m))
                                       (Header.epoch h) (Options.usefloat o)
                                       usename (Options.usetype o)
                     else [])
                    ++ print_all m 0 (Options.cformat o) (Options.usefloat o)
                                 usename (Options.usetype o)
                    ++ (if Options.cformat o then printCFooter else []).
Proof.
  intros H. apply main_output in H. destruct H as (h & Hh & H).
  exists h. split; [assumption | ].
  destruct (Options.onlymeta o); [assumption | ].
  destruct H as (m & Hm & Hout). exists m. split; [assumption | ].
  split; [ | assumption].
  eapply Forall_impl; [ | apply (main_stars_survivors _ _ _ Hm)].
  intros e He. unfold filtered in He. apply orb_false_iff in He. apply He.
Qed.

(** [C6_all_zero_dropped] on a catalog whose fourth record is all-zero:
    the four other records are printed. *)
Lemma C6_all_zero_dropped_witness :
  exists m,
    main_stars (Options.default "catalog") catalog_unsorted = Done m
    /\ List.length m = 4%nat
    /\ Forall (fun e => all_zero (snd e) = false) m.
Proof.
  eassert (Hrun : main (Options.default "catalog") catalog_unsorted = Done _)
    by (vm_compute; reflexivity).
  destruct (C6_all_zero_dropped _ _ _ Hrun) as (h & _ & m & Hm & Hall & _).
  exists m. split; [exact Hm | ]. split; [ | exact Hall].
  vm_compute in Hm. apply Done_inj in Hm. subst m. reflexivity.
Defined.

(** *** From the decoded records to the collected stars *)

Lemma records_length (h : Header.t) (data : buffer) (n : nat) (cursor : Z)
      (stars : list Star.t) :
  records h data n cursor = Done stars -> List.length stars = n.
Proof.
  revert cursor stars. induction n as [ | n IH]; intros cursor stars H.
  - simpl in H. apply Done_inj in H. subst stars. reflexivity.
  - cbn [records] in H. inv_bind H. inv_bind H. apply Done_inj in H. subst stars.
    cbn [List.length]. f_equal. apply (IH _ _ E0).
Qed.

(** When the records decode and no key is a NaN, the loop completes with
    the insertions made in index order. *)
Lemma main_loop_complete (h : Header.t) (data : buffer) (f : IEEE.f64)
      (sort : Sort.t) (n : nat) (i cursor : Z) (map : multimap)
      (stars : list Star.t) :
  records h data n cursor = Done stars ->
  keys_ordered f sort i stars = true ->
  main_loop h data f sort n i cursor map = Done (insert_all f sort i stars map).
Proof.
  revert i cursor map stars.
  induction n as [ | n IH]; intros i cursor map stars Hrec Hkeys.
  - simpl in Hrec. apply Done_inj in Hrec. subst stars. reflexivity.
  - cbn [records] in Hrec. inv_bind Hrec. inv_bind Hrec.
    apply Done_inj in Hrec. subst stars.
    cbn [keys_ordered] in Hkeys. apply andb_true_iff in Hkeys.
    destruct Hkeys as [Hs Hkeys].
    cbn [main_loop insert_all]. rewrite E. cbn [bind].
    destruct (filtered f v).
    + cbn [bind]. apply IH; assumption.
    + cbn [orb] in Hs. apply negb_true_iff in Hs.
      unfold multimap_insert. rewrite Hs. cbn [bind]. apply IH; assumption.
Qed.

Lemma records_magnitudes (h : Header.t) (data : buffer) (n : nat) (cursor : Z)
      (stars : list Star.t) :
  0 <= Header.numMagnitudes h <= 2 ^ 20 ->
  CInt.in_int32 (Header.starNameLength h) ->
  records h data n cursor = Done stars ->
  Forall (fun s => IEEE.is_nan64 (IEEE.f64_of_f32 (Star.magnitude s)) = false)
         stars.
Proof.
  intros Hmag Hname. revert cursor stars.
  induction n as [ | n IH]; intros cursor stars H.
  - simpl in H. apply Done_inj in H. subst stars. constructor.
  - cbn [records] in H. inv_bind H. inv_bind H. apply Done_inj in H. subst stars.
    constructor; [ | apply (IH _ _ E0)].
    apply parseStar_inv in E; [ | assumption | assumption].
    destruct E as (_ & _ & _ & a & m & _ & _ & Hm & ->).
    apply magnitude_not_nan. apply (parse_int16_range _ _ _ _ Hm).
Qed.

Lemma keys_ordered_index (f : IEEE.f64) (stars : list Star.t) (i : Z) :
  0 <= i -> i + Z.of_nat (List.length stars) <= 2 ^ 31 ->
  keys_ordered f Sort.NO i stars = true.
Proof.
  revert i. induction stars as [ | s stars IH]; intros i Hi Hmax; [reflexivity | ].
  cbn [keys_ordered sort_key List.length] in *.
  destruct (f64_of_int_rank i ltac:(lia)) as (-> & _).
  rewrite orb_true_r. cbn [andb]. apply IH; lia.
Qed.

Lemma keys_ordered_magnitude (f : IEEE.f64) (stars : list Star.t) (i : Z) :
  Forall (fun s => IEEE.is_nan64 (IEEE.f64_of_f32 (Star.magnitude s)) = false)
         stars ->
  keys_ordered f Sort.MAG i stars = true.
Proof.
  intros H. revert i. induction H as [ | s stars Hs _ IH]; intros i; [reflexivity | ].
  cbn [keys_ordered sort_key]. rewrite Hs, orb_true_r. apply IH.
Qed.

Lemma keys_ordered_rightAscension (f : IEEE.f64) (stars : list Star.t) (i : Z) :
  Forall (fun s => IEEE.is_nan64 (Star.rightAscension s) = false)
         (survivors f stars) ->
  keys_ordered f Sort.RA i stars = true.
Proof.
  revert i. induction stars as [ | s stars IH]; intros i H; [reflexivity | ].
  cbn [keys_ordered sort_key]. rewrite survivors_cons in H.
  destruct (filtered f s); cbn [orb andb].
  - apply IH. exact H.
  - inversion H as [ | ? ? Hs H']; subst. rewrite Hs. apply IH. exact H'.
Qed.

(** C7 (amended).  Let the records of an accepted catalog decode and, when
    sorting by right ascension, let no surviving record have a NaN right
    ascension.  Then the run collects the surviving records: without
    sorting in record-index order; sorted by right ascension or by
    magnitude in ascending order of the key, any two keys being
    comparable and records of equal key being in record-index order. *)
Theorem C7_ordering_stable (o : Options.t) (file : buffer) (h : Header.t)
        (stars : list Star.t) :
  main_header o file = Done h ->
  records h file (Z.to_nat (Header.numStars h)) 28 = Done stars ->
  (Options.sort o = Sort.RA ->
   Forall (fun s => IEEE.is_nan64 (Star.rightAscension s) = false)
          (survivors (Options.filterMagnitude o) stars)) ->
  exists m,
    main_stars o file = Done m
    /\ match Options.sort o with
       | Sort.NO =>
           List.map snd m = survivors (Options.filterMagnitude o) stars
       | Sort.RA =>
           stable_ordering Star.rightAscension
                           (survivors (Options.filterMagnitude o) stars)
                           (List.map snd m)
       | Sort.MAG =>
           stable_ordering (fun s => IEEE.f64_of_f32 (Star.magnitude s))
                           (survivors (Options.filterMagnitude o) stars)
                           (List.map snd m)
       end.
Proof.
  intros Hh Hrec Hra.
  destruct (main_header_facts _ _ _ Hh) as (Hmag & Hname & Hn & _).
  pose proof (records_length _ _ _ _ _ Hrec) as Hlen.
  assert (Hkeys : keys_ordered (Options.filterMagnitude o) (Options.sort o) 0 stars
                  = true).
  { destruct (Options.sort o).
    - apply keys_ordered_index; [lia | ].
      unfold CInt.in_int32, CInt.INT_MIN, CInt.INT_MAX in Hn. rewrite Hlen. lia.
    - apply keys_ordered_magnitude.
      eapply records_magnitudes; [ | exact Hname | exact Hrec].
      change (2 ^ 20) with 1048576. lia.
    - apply keys_ordered_rightAscension. apply Hra. reflexivity. }
  exists (insert_all (Options.filterMagnitude o) (Options.sort o) 0 stars []).
  split.
  - unfold main_stars. rewrite Hh. cbn [bind].
    apply main_loop_complete; assumption.
  - destruct (Options.sort o).
    + rewrite insert_all_index_order; [reflexivity | lia | | constructor].
      unfold CInt.in_int32, CInt.INT_MIN, CInt.INT_MAX in Hn. rewrite Hlen. lia.
    + apply insert_all_stable; [reflexivity | assumption].
    + apply insert_all_stable; [reflexivity | assumption].
Qed.

(** [C7_ordering_stable] on a catalog of five records, sorted by right
    ascension: the all-zero record is gone, and the two pairs of equal
    right ascension, b before d and a before c, keep their file order. *)
Lemma C7_ordering_stable_witness :
  exists m stars,
    main_stars (Options.set_sort Sort.RA (Options.default "catalog"))
               catalog_unsorted = Done m
    /\ List.map (fun e => Star.name (snd e)) m = [[x62]; [x64]; [x61]; [x63]]
    /\ stable_ordering Star.rightAscension
                       (survivors IEEE.DBL_MAX stars) (List.map snd m).
Proof.
  pose (h := Header.set_apparentMagnitude 0 (header_of 5 (-1) 0 1 21 true)).
  assert (Hh : main_header (Options.set_sort Sort.RA (Options.default "catalog"))
                           catalog_unsorted = Done h)
    by (vm_compute; reflexivity).
  eassert (Hrec : records h catalog_unsorted (Z.to_nat (Header.numStars h)) 28
                  = Done _)
    by (vm_compute; reflexivity).
  destruct (C7_ordering_stable _ _ _ _ Hh Hrec) as (m & Hm & Hord).
  - intros _.
    match goal with
    | |- Forall ?P ?l => let l' := eval vm_compute in l in change (Forall P l')
    end.
    repeat (constructor; [vm_compute; reflexivity | ]). constructor.
  - exists m. eexists. split; [exact Hm | ]. split; [ | exact Hord].
    vm_compute in Hm. apply Done_inj in Hm. subst m. reflexivity.
Defined.

(** C7, as stated, fails on a catalog with a NaN right ascension: both of
    its records survive the filters, their right ascensions are not
    comparable, neither below nor equal to the other, and sorting them by
    right ascension has no defined result. *)
Lemma C7_counterexample :
  exists h s1 s2,
    main_header (Options.set_sort Sort.RA (Options.default "catalog"))
                catalog_nan = Done h
    /\ records h catalog_nan 2 28 = Done [s1; s2]
    /\ survivors IEEE.DBL_MAX [s1; s2] = [s1; s2]
    /\ IEEE.leb64 (Star.rightAscension s1) (Star.rightAscension s2) = false
    /\ IEEE.leb64 (Star.rightAscension s2) (Star.rightAscension s1) = false
    /\ main_stars (Options.set_sort Sort.RA (Options.default "catalog"))
                  catalog_nan = Undefined.
Proof.
  do 3 eexists.
  split; [vm_compute; reflexivity | ]. split; [vm_compute; reflexivity | ].
  split; [reflexivity | ]. split; [reflexivity | ]. split; [reflexivity | ].
  vm_compute. reflexivity.
Qed.

Example sorted_by_magnitude :
  exists m,
    main_stars (Options.set_sort Sort.MAG (Options.default "catalog"))
               catalog_unsorted = Done m
    /\ List.map (fun e => Star.name (snd e)) m = [[x64]; [x61]; [x63]; [x62]].
Proof. eexists. split; [vm_compute; reflexivity | reflexivity]. Qed.

Example unsorted_in_file_order :
  exists m,
    main_stars (Options.default "catalog") catalog_unsorted = Done m
    /\ List.map (fun e => Star.name (snd e)) m = [[x61]; [x62]; [x63]; [x64]].
Proof. eexists. split; [vm_compute; reflexivity | reflexivity]. Qed.

(** The filter threshold 4.0 drops both records of magnitude 4.50. *)
Example threshold_drops_fainter :
  main_stars (Options.set_filterMagnitude 4616189618054758400
                                          (Options.default "catalog"))
             catalog_abc = Done [].
Proof. vm_compute. reflexivity. Qed.

(** ** Runs that complete *)

Lemma name_offset_lower (h : Header.t) :
  0 <= Header.numMagnitudes h -> 18 <= name_offset h.
Proof.
  intros H. unfold name_offset, magnitudes_offset, id_bytes, motion_bytes.
  destruct (_ || _); destruct (_ || _); lia.
Qed.
(** ** Catalogs without names *)








(** * Further properties *)

(** ** ByteReader *)

Lemma skipn_cons_nth (data : buffer) (n : nat) :
  (n < List.length data)%nat ->
  skipn n data = nth n data x00 :: skipn (S n) data.
Proof.
  revert n. induction data as [ | b data IH]; intros n Hn; [cbn in Hn; lia | ].
  destruct n as [ | n]; [reflexivity | ].
  cbn [List.length] in Hn. cbn [skipn nth]. apply IH. lia.
Qed.

Lemma at_nth (data : buffer) (q : Z) :
  0 <= q < Z.of_nat (List.length data) ->
  at_ data q = Done (byte_val (nth (Z.to_nat q) data x00)).
Proof.
  intros Hq. unfold at_, byte_at. destruct (Z.ltb_spec q 0); [lia | ].
  rewrite (nth_error_nth' data x00) by lia. reflexivity.
Qed.

(** The bytes of a field that lies inside the buffer. *)
Lemma slice_2 (data : buffer) (p : Z) :
  0 <= p -> p + 2 <= Z.of_nat (List.length data) ->
  slice data p 2
  = [nth (Z.to_nat p) data x00; nth (Z.to_nat (p + 1)) data x00].
Proof.
  intros H0 Hn. unfold slice.
  rewrite skipn_cons_nth by lia. rewrite skipn_cons_nth by lia.
  replace (Z.to_nat (p + 1)) with (S (Z.to_nat p)) by lia. reflexivity.
Qed.

Lemma slice_4 (data : buffer) (p : Z) :
  0 <= p -> p + 4 <= Z.of_nat (List.length data) ->
  slice data p 4
  = [nth (Z.to_nat p) data x00; nth (Z.to_nat (p + 1)) data x00;
     nth (Z.to_nat (p + 2)) data x00; nth (Z.to_nat (p + 3)) data x00].
Proof.
  intros H0 Hn. unfold slice.
  do 4 (rewrite skipn_cons_nth by lia).
  replace (Z.to_nat (p + 1)) with (S (Z.to_nat p)) by lia.
  replace (Z.to_nat (p + 2)) with (S (S (Z.to_nat p))) by lia.
  replace (Z.to_nat (p + 3)) with (S (S (S (Z.to_nat p)))) by lia.
  reflexivity.
Qed.

Lemma slice_8 (data : buffer) (p : Z) :
  0 <= p -> p + 8 <= Z.of_nat (List.length data) ->
  slice data p 8
  = [nth (Z.to_nat p) data x00; nth (Z.to_nat (p + 1)) data x00;
     nth (Z.to_nat (p + 2)) data x00; nth (Z.to_nat (p + 3)) data x00;
     nth (Z.to_nat (p + 4)) data x00; nth (Z.to_nat (p + 5)) data x00;
     nth (Z.to_nat (p + 6)) data x00; nth (Z.to_nat (p + 7)) data x00].
Proof.
  intros H0 Hn. unfold slice.
  do 8 (rewrite skipn_cons_nth by lia).
  replace (Z.to_nat (p + 1)) with (S (Z.to_nat p)) by lia.
  replace (Z.to_nat (p + 2)) with (S (S (Z.to_nat p))) by lia.
  replace (Z.to_nat (p + 3)) with (S (S (S (Z.to_nat p)))) by lia.
  replace (Z.to_nat (p + 4)) with (S (S (S (S (Z.to_nat p))))) by lia.
  replace (Z.to_nat (p + 5)) with (S (S (S (S (S (Z.to_nat p)))))) by lia.
  replace (Z.to_nat (p + 6)) with (S (S (S (S (S (S (Z.to_nat p))))))) by lia.
  replace (Z.to_nat (p + 7)) with (S (S (S (S (S (S (S (Z.to_nat p)))))))) by lia.
  reflexivity.
Qed.

(** Bitwise or does not depend on the order of its operands. *)
Lemma lor_rev2 (a b : Z) : Z.lor a b = Z.lor b a.
Proof. apply Z.lor_comm. Qed.

Lemma lor_rev8 (a b c d e f g h : Z) :
  Z.lor (Z.lor (Z.lor (Z.lor (Z.lor (Z.lor (Z.lor a b) c) d) e) f) g) h
  = Z.lor (Z.lor (Z.lor (Z.lor (Z.lor (Z.lor (Z.lor h g) f) e) d) c) b) a.
Proof.
  apply Z.bits_inj'. intros n _. rewrite !Z.lor_spec.
  destruct (Z.testbit a n), (Z.testbit b n), (Z.testbit c n), (Z.testbit d n),
    (Z.testbit e n), (Z.testbit f n), (Z.testbit g n), (Z.testbit h n);
    reflexivity.
Qed.

Lemma lor_le2 (d0 d1 : Z) :
  0 <= d0 < 256 -> 0 <= d1 < 256 ->
  Z.lor (Z.shiftl d0 0) (Z.shiftl d1 8) = d0 + 256 * d1.
Proof.
  intros H0 H1. rewrite Z.shiftl_0_r.
  rewrite (lor_low_shiftl d0 d1 8) by lia. change (2 ^ 8) with 256. lia.
Qed.

Lemma lor_le8 (d0 d1 d2 d3 d4 d5 d6 d7 : Z) :
  0 <= d0 < 256 -> 0 <= d1 < 256 -> 0 <= d2 < 256 -> 0 <= d3 < 256 ->
  0 <= d4 < 256 -> 0 <= d5 < 256 -> 0 <= d6 < 256 -> 0 <= d7 < 256 ->
  Z.lor (Z.lor (Z.lor (Z.lor (Z.lor (Z.lor (Z.lor
    (Z.shiftl d0 0) (Z.shiftl d1 8)) (Z.shiftl d2 16)) (Z.shiftl d3 24))
    (Z.shiftl d4 32)) (Z.shiftl d5 40)) (Z.shiftl d6 48)) (Z.shiftl d7 56)
  = d0 + 256 * (d1 + 256 * (d2 + 256 * (d3 + 256 * (d4 + 256 * (d5 + 256
      * (d6 + 256 * d7)))))).
Proof.
  intros H0 H1 H2 H3 H4 H5 H6 H7. rewrite Z.shiftl_0_r.
  rewrite (lor_low_shiftl d0 d1 8) by lia. change (2 ^ 8) with 256.
  rewrite (lor_low_shiftl _ d2 16) by (change (2 ^ 16) with 65536; lia).
  change (2 ^ 16) with 65536.
  rewrite (lor_low_shiftl _ d3 24) by (change (2 ^ 24) with 16777216; lia).
  change (2 ^ 24) with 16777216.
  rewrite (lor_low_shiftl _ d4 32) by (change (2 ^ 32) with 4294967296; lia).
  change (2 ^ 32) with 4294967296.
  rewrite (lor_low_shiftl _ d5 40) by (change (2 ^ 40) with 1099511627776; lia).
  change (2 ^ 40) with 1099511627776.
  rewrite (lor_low_shiftl _ d6 48) by (change (2 ^ 48) with 281474976710656; lia).
  change (2 ^ 48) with 281474976710656.
  rewrite (lor_low_shiftl _ d7 56) by (change (2 ^ 56) with 72057594037927936; lia).
  change (2 ^ 56) with 72057594037927936. lia.
Qed.

Lemma signed_to_int32 (u : Z) :
  0 <= u < 2 ^ 32 -> CInt.to_int32 u = signed 32 u.
Proof. intros H. unfold signed. apply to_int32_unsigned. exact H. Qed.

Lemma signed_to_int16 (u : Z) :
  0 <= u < 2 ^ 16 -> CInt.to_int16 u = signed 16 u.
Proof.
  intros Hu. unfold signed, CInt.to_int16, CInt.wrap.
  change (2 ^ (16 - 1)) with 32768. change (2 ^ 16) with 65536 in *.
  destruct (Z.ltb_spec u 32768).
  - rewrite Z.mod_small; lia.
  - replace (u + 32768) with (u - 32768 + 1 * 65536) by lia.
    rewrite Z.mod_add by lia. rewrite Z.mod_small; lia.
Qed.

Lemma parse_int16_value (data : buffer) (p : Z) (littleEndian : bool) :
  0 <= p -> p + 2 <= Z.of_nat (List.length data) ->
  parse_int16 data p littleEndian
  = Done (signed 16 (unsigned_le (least_first littleEndian (slice data p 2)))).
Proof.
  intros H0 Hn. rewrite slice_2 by assumption. unfold parse_int16.
  rewrite !at_nth by lia. cbn [bind].
  pose proof (byte_val_range (nth (Z.to_nat p) data x00)).
  pose proof (byte_val_range (nth (Z.to_nat (p + 1)) data x00)).
  destruct littleEndian; cbn [least_first rev app unsigned_le]; f_equal.
  - rewrite lor_le2 by assumption. rewrite signed_to_int16; [f_equal; lia | ].
    change (2 ^ 16) with 65536. lia.
  - rewrite lor_rev2, lor_le2 by assumption.
    rewrite signed_to_int16; [f_equal; lia | ]. change (2 ^ 16) with 65536. lia.
Qed.

Lemma parse_int32_value (data : buffer) (p : Z) (littleEndian : bool) :
  0 <= p -> p + 4 <= Z.of_nat (List.length data) ->
  parse_int32 data p littleEndian
  = Done (signed 32 (unsigned_le (least_first littleEndian (slice data p 4)))).
Proof.
  intros H0 Hn. rewrite slice_4 by assumption. unfold parse_int32.
  rewrite !at_nth by lia. cbn [bind].
  pose proof (byte_val_range (nth (Z.to_nat p) data x00)).
  pose proof (byte_val_range (nth (Z.to_nat (p + 1)) data x00)).
  pose proof (byte_val_range (nth (Z.to_nat (p + 2)) data x00)).
  pose proof (byte_val_range (nth (Z.to_nat (p + 3)) data x00)).
  destruct littleEndian; cbn [least_first rev app unsigned_le]; f_equal.
  - rewrite lor_le4 by assumption. rewrite signed_to_int32; [f_equal; lia | ].
    change (2 ^ 32) with 4294967296. lia.
  - rewrite lor_be4 by assumption. rewrite signed_to_int32; [f_equal; lia | ].
    change (2 ^ 32) with 4294967296. lia.
Qed.

Lemma parse_float_value (data : buffer) (p : Z) (littleEndian : bool) :
  0 <= p -> p + 4 <= Z.of_nat (List.length data) ->
  parse_float data p littleEndian
  = Done (unsigned_le (least_first littleEndian (slice data p 4)))
  /\ 0 <= unsigned_le (least_first littleEndian (slice data p 4)) < 2 ^ 32.
Proof.
  intros H0 Hn. rewrite slice_4 by assumption. unfold parse_float.
  rewrite !at_nth by lia. cbn [bind].
  pose proof (byte_val_range (nth (Z.to_nat p) data x00)).
  pose proof (byte_val_range (nth (Z.to_nat (p + 1)) data x00)).
  pose proof (byte_val_range (nth (Z.to_nat (p + 2)) data x00)).
  pose proof (byte_val_range (nth (Z.to_nat (p + 3)) data x00)).
  change (2 ^ 32) with 4294967296.
  destruct littleEndian; cbn [least_first rev app unsigned_le].
  - rewrite lor_le4 by assumption. split; [f_equal | ]; lia.
  - rewrite lor_be4 by assumption. split; [f_equal | ]; lia.
Qed.

Lemma parse_double_value (data : buffer) (p : Z) (littleEndian : bool) :
  0 <= p -> p + 8 <= Z.of_nat (List.length data) ->
  parse_double data p littleEndian
  = Done (unsigned_le (least_first littleEndian (slice data p 8)))
  /\ 0 <= unsigned_le (least_first littleEndian (slice data p 8)) < 2 ^ 64.
Proof.
  intros H0 Hn. rewrite slice_8 by assumption. unfold parse_double.
  rewrite !at_nth by lia. cbn [bind].
  pose proof (byte_val_range (nth (Z.to_nat p) data x00)).
  pose proof (byte_val_range (nth (Z.to_nat (p + 1)) data x00)).
  pose proof (byte_val_range (nth (Z.to_nat (p + 2)) data x00)).
  pose proof (byte_val_range (nth (Z.to_nat (p + 3)) data x00)).
  pose proof (byte_val_range (nth (Z.to_nat (p + 4)) data x00)).
  pose proof (byte_val_range (nth (Z.to_nat (p + 5)) data x00)).
  pose proof (byte_val_range (nth (Z.to_nat (p + 6)) data x00)).
  pose proof (byte_val_range (nth (Z.to_nat (p + 7)) data x00)).
  change (2 ^ 64) with 18446744073709551616.
  destruct littleEndian; cbn [least_first rev app unsigned_le].
  - rewrite lor_le8 by assumption. split; [f_equal | ]; lia.
  - rewrite lor_rev8, lor_le8 by assumption. split; [f_equal | ]; lia.
Qed.

(** X1.  A 16-bit or 32-bit integer field that lies inside the buffer is
    read as the two's-complement value of its bytes, the first byte
    being the least significant in little-endian order and the most
    significant in big-endian order. *)
Theorem X1_parse_integers (data : buffer) (p : Z) (littleEndian : bool) :
  0 <= p ->
  (p + 2 <= Z.of_nat (List.length data) ->
   parse_int16 data p littleEndian
   = Done (signed 16 (unsigned_le (least_first littleEndian (slice data p 2)))))
  /\ (p + 4 <= Z.of_nat (List.length data) ->
      parse_int32 data p littleEndian
      = Done (signed 32 (unsigned_le (least_first littleEndian (slice data p 4))))).
Proof.
  intros H0. split; intros Hn.
  - apply parse_int16_value; assumption.
  - apply parse_int32_value; assumption.
Qed.

(** [X1_parse_integers] on the sample catalog: its star count -2 at
    offset 8 and the magnitude 450 of its first record at offset 46. *)
Lemma X1_parse_integers_witness :
  parse_int16 catalog_abc 46 true = Done 450
  /\ parse_int32 catalog_abc 8 true = Done (-2).
Proof.
  split.
  - destruct (X1_parse_integers catalog_abc 46 true) as [H16 _];
      [vm_compute; discriminate | ].
    rewrite H16 by (vm_compute; discriminate). reflexivity.
  - destruct (X1_parse_integers catalog_abc 8 true) as [_ H32];
      [vm_compute; discriminate | ].
    rewrite H32 by (vm_compute; discriminate). reflexivity.
Defined.

(** X2.  A [float] or [double] field that lies inside the buffer is read
    as the unsigned pattern its bytes spell in the byte order of the file:
    32 bits for a [float], 64 bits for a [double], no conversion made. *)
Theorem X2_parse_patterns (data : buffer) (p : Z) (littleEndian : bool) :
  0 <= p ->
  (p + 4 <= Z.of_nat (List.length data) ->
   parse_float data p littleEndian
   = Done (unsigned_le (least_first littleEndian (slice data p 4)))
   /\ 0 <= unsigned_le (least_first littleEndian (slice data p 4)) < 2 ^ 32)
  /\ (p + 8 <= Z.of_nat (List.length data) ->
      parse_double data p littleEndian
      = Done (unsigned_le (least_first littleEndian (slice data p 8)))
      /\ 0 <= unsigned_le (least_first littleEndian (slice data p 8)) < 2 ^ 64).
Proof.
  intros H0. split; intros Hn.
  - apply parse_float_value; assumption.
  - apply parse_double_value; assumption.
Qed.

(** [X2_parse_patterns] on the sample catalog: the right ascension of its
    first record, 1.234567890123456, at offset 28. *)
Lemma X2_parse_patterns_witness :
  parse_double catalog_abc 28 true = Done 4608238818662570488.
Proof.
  destruct (X2_parse_patterns catalog_abc 28 true) as [_ H64];
    [vm_compute; discriminate | ].
  destruct H64 as [H64 _]; [vm_compute; discriminate | ].
  rewrite H64. reflexivity.
Defined.

(** ** HeaderParser *)

(** The byte-order hint that names the order [littleEndian]. *)
Lemma probe_hint (data : buffer) (littleEndian : bool) (nmag : Z) :
  parse_int32 data 20 littleEndian = Done nmag ->
  probe_endian data (endian_named littleEndian)
  = (if 10 <? CInt.abs nmag
     then Fail (if littleEndian then InvalidHeaderTryBigEndian
                else InvalidHeaderTryLittleEndian)
     else Done (nmag, endian_named littleEndian)).
Proof.
  intros H. unfold probe_endian. change (0 + 4 + 4 + 4 + 4 + 4) with 20.
  destruct littleEndian; cbn [endian_named]; rewrite H; reflexivity.
Qed.

(** X3.  With an explicit byte order the magnitude count is read in that
    order only: a count above ten in magnitude ends the run with the
    advice to try the other order, whatever the other order would read,
    and a header that decodes reports the order it was told. *)
Theorem X3_endian_hint (data : buffer) (epoch : Epoch.t) (littleEndian : bool)
        (nmag : Z) :
  parse_int32 data 20 littleEndian = Done nmag ->
  (10 < CInt.abs nmag ->
   parseHeader data epoch (endian_named littleEndian)
   = Fail (if littleEndian then InvalidHeaderTryBigEndian
           else InvalidHeaderTryLittleEndian))
  /\ (forall h, parseHeader data epoch (endian_named littleEndian) = Done h ->
                Header.littleEndian h = littleEndian
                /\ Header.numMagnitudes h = CInt.abs nmag
                /\ CInt.abs nmag <= 10).
Proof.
  intros Hn. pose proof (probe_hint data littleEndian nmag Hn) as Hp. split.
  - intros Hbig. unfold parseHeader. rewrite Hp.
    destruct (Z.ltb_spec 10 (CInt.abs nmag)); [reflexivity | lia].
  - intros h Hh. apply parseHeader_inv in Hh.
    destruct Hh as (nmag' & e & starn & stnum & mprop & nbent & Hprobe & _ & _ & _ & _ & ->).
    rewrite Hp in Hprobe.
    destruct (Z.ltb_spec 10 (CInt.abs nmag)); [discriminate | ].
    apply Done_inj in Hprobe. injection Hprobe as <- <-.
    cbn [header_of Header.littleEndian Header.numMagnitudes].
    split; [destruct littleEndian; reflexivity | ]. split; [reflexivity | assumption].
Qed.

(** [X3_endian_hint] on a big-endian header read as little-endian: its
    magnitude count 1 reads as 16777216. *)
Lemma X3_endian_hint_witness :
  parseHeader header_be_one Epoch.AUTO Endian.LITTLE
  = Fail InvalidHeaderTryBigEndian.
Proof.
  destruct (X3_endian_hint header_be_one Epoch.AUTO true 16777216 eq_refl)
    as [Hfail _].
  apply Hfail. vm_compute. reflexivity.
Defined.

(** X4.  The byte order found by detection can be passed back as a hint:
    the header decodes to the same value.  A header that decodes with the
    little-endian hint decodes to the same value by detection. *)
Theorem X4_detection_agrees_with_hint (data : buffer) (epoch : Epoch.t)
        (h : Header.t) :
  (parseHeader data epoch Endian.AUTO = Done h ->
   parseHeader data epoch (endian_named (Header.littleEndian h)) = Done h)
  /\ (parseHeader data epoch Endian.LITTLE = Done h ->
      parseHeader data epoch Endian.AUTO = Done h).
Proof.
  split; intros Hh.
  - pose proof Hh as Hinv. apply parseHeader_inv in Hinv.
    destruct Hinv as (nmag & e & starn & stnum & mprop & nbent
                      & Hprobe & H8 & H12 & H16 & H24 & ->).
    cbn [header_of Header.littleEndian].
    destruct (probe_endian_reading _ _ _ _ Hprobe) as [H20 Habs].
    assert (He : e = endian_named (Endian.eqb e Endian.LITTLE)).
    { revert Hprobe. unfold probe_endian. clear.
      change (0 + 4 + 4 + 4 + 4 + 4) with 20. intros H. inv_bind H.
      destruct (10 <? CInt.abs v).
      - inv_bind H. destruct (10 <? CInt.abs v0); [discriminate | ].
        apply Done_inj in H. injection H as _ <-. reflexivity.
      - apply Done_inj in H. injection H as _ <-. reflexivity. }
    assert (Hp : probe_endian data (endian_named (Endian.eqb e Endian.LITTLE))
                 = Done (nmag, e)).
    { rewrite (probe_hint _ _ _ H20).
      destruct (Z.ltb_spec 10 (CInt.abs nmag)); [lia | ]. rewrite <- He. reflexivity. }
    rewrite (parseHeader_eq _ epoch _ _ _ _ _ _ _ Hp H8 H12 H16 H24).
    rewrite (parseHeader_eq _ epoch _ _ _ _ _ _ _ Hprobe H8 H12 H16 H24) in Hh.
    exact Hh.
  - pose proof Hh as Hinv. apply parseHeader_inv in Hinv.
    destruct Hinv as (nmag & e & starn & stnum & mprop & nbent
                      & Hprobe & H8 & H12 & H16 & H24 & ->).
    destruct (probe_endian_reading _ _ _ _ Hprobe) as [H20 Habs].
    assert (He : e = Endian.LITTLE).
    { revert Hprobe. unfold probe_endian. clear.
      change (0 + 4 + 4 + 4 + 4 + 4) with 20. intros H. inv_bind H.
      destruct (10 <? CInt.abs v); [discriminate | ].
      apply Done_inj in H. injection H as _ <-. reflexivity. }
    subst e. cbn [Endian.eqb] in *.
    pose proof (probe_auto_little _ _ H20 Habs) as Hp.
    rewrite (parseHeader_eq _ epoch _ _ _ _ _ _ _ Hp H8 H12 H16 H24).
    rewrite (parseHeader_eq _ epoch _ _ _ _ _ _ _ Hprobe H8 H12 H16 H24) in Hh.
    exact Hh.
Qed.

Lemma abs_at_most_10 (x : Z) :
  CInt.in_int32 x -> CInt.abs x <= 10 ->
  0 <= CInt.abs x \/ CInt.abs x = CInt.INT_MIN.
Proof.
  unfold CInt.in_int32, CInt.INT_MIN, CInt.INT_MAX.
  change (2 ^ 31) with 2147483648. intros Hx _.
  destruct (Z.eq_dec x (-2147483648)) as [-> | Hne].
  - right. reflexivity.
  - left. rewrite abs_small; [lia | ].
    unfold CInt.in_int32, CInt.INT_MIN, CInt.INT_MAX.
    change (2 ^ 31) with 2147483648. lia.
Qed.

(** X5.  Every header that decodes has at most ten magnitudes per record,
    a definite epoch which is the hinted one if a hint was given, the
    byte order of the hint if one was given, no identifier when records
    carry names, and an apparent-magnitude index that has not been
    assigned. *)
Theorem X5_header_invariants (data : buffer) (epoch : Epoch.t)
        (endian : Endian.t) (h : Header.t) :
  parseHeader data epoch endian = Done h ->
  Header.numMagnitudes h <= 10
  /\ (Header.numMagnitudes h < 0 -> Header.numMagnitudes h = CInt.INT_MIN)
  /\ Header.epoch h <> Epoch.AUTO
  /\ (epoch <> Epoch.AUTO -> Header.epoch h = epoch)
  /\ (endian <> Endian.AUTO -> endian = endian_named (Header.littleEndian h))
  /\ 0 <= Header.starId h
  /\ (Header.starNameLength h <> 0 -> Header.starId h = Header.NO_STAR_ID)
  /\ Header.apparentMagnitude h = None
  /\ CInt.in_int32 (Header.numStars h)
  /\ CInt.in_int32 (Header.numBytesPerStar h)
  /\ CInt.in_int32 (Header.starNameLength h).
Proof.
  intros Hh. pose proof Hh as Hinv. apply parseHeader_inv in Hinv.
  destruct Hinv as (nmag & e & starn & stnum & mprop & nbent
                    & Hprobe & H8 & H12 & H16 & H24 & Heq).
  destruct (probe_endian_reading _ _ _ _ Hprobe) as [H20 Habs].
  rewrite (parseHeader_eq _ epoch _ _ _ _ _ _ _ Hprobe H8 H12 H16 H24) in Hh.
  pose proof (parse_int32_range _ _ _ _ H20) as R20.
  pose proof (parse_int32_range _ _ _ _ H12) as R12.
  pose proof (parse_int32_range _ _ _ _ H24) as R24.
  subst h. cbn [header_of Header.numMagnitudes Header.epoch Header.littleEndian
                Header.starId Header.starNameLength Header.apparentMagnitude
                Header.numStars Header.numBytesPerStar].
  split; [assumption | ].
  split; [destruct (abs_at_most_10 nmag R20 Habs); [lia | intros _; assumption] | ].
  split; [destruct ((starn <? 0) || (nmag <? 0)); discriminate | ].
  split.
  { intros Hep. destruct epoch; [contradiction | | ];
      destruct ((starn <? 0) || (nmag <? 0)); cbn in Hh;
      try discriminate; reflexivity. }
  split.
  { intros Hen. revert Hprobe. unfold probe_endian.
    change (0 + 4 + 4 + 4 + 4 + 4) with 20.
    destruct endian; [contradiction | | ]; intros H; inv_bind H;
      (destruct (10 <? CInt.abs v); [discriminate | ]);
      apply Done_inj in H; injection H as _ <-; reflexivity. }
  split.
  { destruct (Z.ltb_spec stnum 0); [unfold Header.NO_STAR_ID | ]; lia. }
  split.
  { destruct (Z.ltb_spec stnum 0); [reflexivity | intros Hc; contradiction Hc; reflexivity]. }
  split; [reflexivity | ].
  split; [apply abs_in_int32 | ].
  split; [assumption | ].
  destruct (Z.ltb_spec stnum 0).
  - unfold CInt.neg. apply to_int32_range.
  - unfold CInt.in_int32, CInt.INT_MIN, CInt.INT_MAX.
    change (2 ^ 31) with 2147483648. lia.
Qed.

(** [X5_header_invariants] on the sample catalog, decoded with the hints
    J2000 and little-endian. *)
Lemma X5_header_invariants_witness :
  exists h, parseHeader catalog_abc Epoch.J2000 Endian.LITTLE = Done h
            /\ Header.numMagnitudes h <= 10
            /\ Header.epoch h = Epoch.J2000
            /\ Header.starId h = Header.NO_STAR_ID.
Proof.
  eexists. split; [vm_compute; reflexivity | ].
  destruct (X5_header_invariants catalog_abc Epoch.J2000 Endian.LITTLE _ eq_refl)
    as (Hm & _ & _ & Hep & _ & _ & Hid & _).
  split; [exact Hm | ]. split; [apply Hep; discriminate | ].
  apply Hid. vm_compute. discriminate.
Defined.

(** A field of the header lies in the bytes 8 to 27. *)
Lemma slice_of_header (data : buffer) (p : Z) :
  8 <= p -> p + 4 <= 28 ->
  slice (slice data 8 20) (p - 8) 4 = slice data p 4.
Proof.
  intros Hlo Hhi. unfold slice.
  rewrite skipn_firstn_comm, firstn_firstn, skipn_skipn.
  replace (Z.to_nat (p - 8) + Z.to_nat 8)%nat with (Z.to_nat p) by lia.
  f_equal. lia.
Qed.

Lemma slice_length (data : buffer) (p : Z) (n : nat) :
  0 <= p -> p + Z.of_nat n <= Z.of_nat (List.length data) ->
  List.length (slice data p n) = n.
Proof.
  intros H0 Hn. unfold slice. rewrite length_firstn, length_skipn. lia.
Qed.

Lemma parse_int32_header_field (data : buffer) (p : Z) (littleEndian : bool) :
  28 <= Z.of_nat (List.length data) ->
  8 <= p -> p + 4 <= 28 ->
  parse_int32 data p littleEndian
  = parse_int32 (slice data 8 20) (p - 8) littleEndian.
Proof.
  intros Hlen Hlo Hhi.
  rewrite (parse_int32_value data) by lia.
  rewrite (parse_int32_value (slice data 8 20));
    [ | lia | rewrite slice_length by (cbn; lia); lia ].
  rewrite slice_of_header by assumption. reflexivity.
Qed.

(** X6.  The header is decoded from the bytes 8 to 27 of the file and
    from nothing else: two files that agree on these twenty bytes give
    the same header or the same diagnostic, whatever their first eight
    bytes and their records are. *)
Theorem X6_header_bytes (data data' : buffer) (epoch : Epoch.t)
        (endian : Endian.t) :
  28 <= Z.of_nat (List.length data) ->
  28 <= Z.of_nat (List.length data') ->
  slice data 8 20 = slice data' 8 20 ->
  parseHeader data epoch endian = parseHeader data' epoch endian.
Proof.
  intros Hlen Hlen' Heq.
  assert (Hfield : forall p le, 8 <= p -> p + 4 <= 28 ->
                                parse_int32 data p le = parse_int32 data' p le).
  { intros p le Hlo Hhi.
    rewrite (parse_int32_header_field data) by assumption.
    rewrite (parse_int32_header_field data') by assumption.
    rewrite Heq. reflexivity. }
  assert (Hprobe : probe_endian data endian = probe_endian data' endian).
  { unfold probe_endian. change (0 + 4 + 4 + 4 + 4 + 4) with 20.
    rewrite !(Hfield 20) by lia. reflexivity. }
  unfold parseHeader. rewrite Hprobe.
  change (0 + 4 + 4 + 4 + 4 + 4 + 4) with 24.
  change (0 + 4 + 4 + 4 + 4) with 16.
  change (0 + 4 + 4 + 4) with 12.
  change (0 + 4 + 4) with 8.
  destruct (probe_endian data' endian) as [probe | d | ]; cbn [bind];
    [ | reflexivity | reflexivity ].
  rewrite (Hfield 8), (Hfield 12), (Hfield 16), (Hfield 24) by lia.
  reflexivity.
Qed.

(** [X6_header_bytes] on two sample catalogs with the same header fields:
    different records and a different length. *)
Lemma X6_header_bytes_witness :
  parseHeader catalog_abc Epoch.AUTO Endian.AUTO
  = parseHeader (firstn 28 catalog_abc ++ [x2a]) Epoch.AUTO Endian.AUTO.
Proof.
  apply X6_header_bytes;
    [vm_compute; discriminate | vm_compute; discriminate | reflexivity].
Defined.

(** ** RecordDecoder *)

Lemma id_bytes_range (h : Header.t) : 0 <= id_bytes h <= 4.
Proof. unfold id_bytes. destruct (_ || _); lia. Qed.

Lemma motion_bytes_range (h : Header.t) : 0 <= motion_bytes h <= 8.
Proof. unfold motion_bytes. destruct (_ || _); lia. Qed.

(** X7.  The layout of a record, for a header with at most ten
    magnitudes: an optional four-byte identifier, read as a [float] for
    the catalog, GSC and Tycho kinds and as a 32-bit integer for the
    integer kind; right ascension and declination as two doubles; two
    spectral-type characters; the magnitudes; then either two [float]
    proper motions or one [double] radial velocity, whichever the header
    announces.  Fields the header does not announce are zero in the
    decoded star. *)
Theorem X7_record_layout (h : Header.t) (data : buffer) (p : Z) (star : Star.t) :
  parseStar h data p = Done star ->
  0 <= Header.numMagnitudes h <= 10 ->
  parse_double data (p + id_bytes h) (Header.littleEndian h)
  = Done (Star.rightAscension star)
  /\ parse_double data (p + id_bytes h + 8) (Header.littleEndian h)
     = Done (Star.declination star)
  /\ (exists b0 b1,
        byte_at data (p + id_bytes h + 16) = Done b0
        /\ byte_at data (p + id_bytes h + 17) = Done b1
        /\ Star.spectralType star = [b0; b1; x00])
  /\ (1 <= Header.starId h <= 3 ->
      exists x, parse_float data p (Header.littleEndian h) = Done x
                /\ Star.starId star = IEEE.f64_of_f32 x)
  /\ (Header.starId h = Header.INTEGER_STAR_ID ->
      exists n, parse_int32 data p (Header.littleEndian h) = Done n
                /\ Star.starId star = IEEE.f64_of_int n)
  /\ (id_bytes h = 0 -> Star.starId star = IEEE.zero64)
  /\ (Header.properMotion h = Header.PROPER_MOTION ->
      parse_float data (p + name_offset h - 8) (Header.littleEndian h)
      = Done (Star.pm_rightAscension (Star.properMotion star))
      /\ parse_float data (p + name_offset h - 4) (Header.littleEndian h)
         = Done (Star.pm_declination (Star.properMotion star))
      /\ Star.radialVelocity star = IEEE.zero64)
  /\ (Header.properMotion h = Header.RADIAL_VELOCITY ->
      parse_double data (p + name_offset h - 8) (Header.littleEndian h)
      = Done (Star.radialVelocity star)
      /\ Star.properMotion star = Star.mkpm 0 0)
  /\ (motion_bytes h = 0 ->
      Star.properMotion star = Star.mkpm 0 0
      /\ Star.radialVelocity star = IEEE.zero64).
Proof.
  intros H Hmag. unfold parseStar in H.
  inv_bind H. rename v into idf, E into Eid.
  assert (Hid : snd idf = id_bytes h
                /\ (1 <= Header.starId h <= 3 ->
                    exists x, parse_float data p (Header.littleEndian h) = Done x
                              /\ fst idf = IEEE.f64_of_f32 x)
                /\ (Header.starId h = Header.INTEGER_STAR_ID ->
                    exists n, parse_int32 data p (Header.littleEndian h) = Done n
                              /\ fst idf = IEEE.f64_of_int n)
                /\ (id_bytes h = 0 -> fst idf = IEEE.zero64)).
  { unfold id_bytes. clear H. rewrite Z.add_0_r in Eid.
    unfold Header.CATALOG_STAR_ID, Header.GSC_STAR_ID, Header.TYCHO_STAR_ID,
      Header.INTEGER_STAR_ID in *.
    destruct (Z.eqb_spec (Header.starId h) 1) as [E1 | E1];
      destruct (Z.eqb_spec (Header.starId h) 2) as [E2 | E2];
      destruct (Z.eqb_spec (Header.starId h) 3) as [E3 | E3];
      destruct (Z.eqb_spec (Header.starId h) 4) as [E4 | E4];
      cbn [orb] in *; try lia;
      try (inv_bind Eid; apply Done_inj in Eid; subst idf; cbn [fst snd];
           split; [reflexivity | ];
           split; [(intros _; eexists; split; [eassumption | reflexivity]) || lia | ];
           split; [(intros; eexists; split; [eassumption | reflexivity]) || lia | ];
           intros; lia).
    apply Done_inj in Eid. subst idf. cbn [fst snd].
    split; [reflexivity | ]. split; [lia | ]. split; [lia | reflexivity]. }
  destruct Hid as (Hcur0 & Hfloat & Hint & Hnone). clear Eid.
  inv_bind H. rename E into Era.
  inv_bind H. rename E into Edec.
  inv_bind H. rename E into Es0.
  inv_bind H. rename E into Es1.
  inv_bind H. rename E into Emag.
  destruct v3 as [mag cursor]. cbn [fst snd] in H.
  pose proof (id_bytes_range h) as Hidb.
  assert (Hcur : cursor = magnitudes_offset h + 2 * Header.numMagnitudes h).
  { apply magnitudes_cursor in Emag; unfold CInt.INT_MAX; try lia.
    unfold magnitudes_offset. lia. }
  inv_bind H. rename E into Epm.
  assert (Hpm : (Header.properMotion h = Header.PROPER_MOTION ->
                 parse_float data (p + name_offset h - 8) (Header.littleEndian h)
                 = Done (fst (fst (fst v3)))
                 /\ parse_float data (p + name_offset h - 4) (Header.littleEndian h)
                    = Done (snd (fst (fst v3)))
                 /\ snd (fst v3) = IEEE.zero64)
                /\ (Header.properMotion h = Header.RADIAL_VELOCITY ->
                    parse_double data (p + name_offset h - 8) (Header.littleEndian h)
                    = Done (snd (fst v3))
                    /\ fst (fst (fst v3)) = 0 /\ snd (fst (fst v3)) = 0)
                /\ (motion_bytes h = 0 ->
                    fst (fst (fst v3)) = 0 /\ snd (fst (fst v3)) = 0
                    /\ snd (fst v3) = IEEE.zero64)).
  { unfold name_offset, motion_bytes. clear H. rewrite Hcur in Epm.
    unfold Header.PROPER_MOTION, Header.RADIAL_VELOCITY in *.
    destruct (Z.eqb_spec (Header.properMotion h) 1) as [E1 | E1];
      destruct (Z.eqb_spec (Header.properMotion h) 2) as [E2 | E2];
      cbn [orb] in *; try lia.
    - inv_bind Epm. inv_bind Epm. apply Done_inj in Epm. subst v3. cbn [fst snd].
      split; [intros _ | split; [lia | intros; lia]].
      split; [ | split; [ | reflexivity]].
      + etransitivity; [ | exact E]. f_equal. lia.
      + etransitivity; [ | exact E0]. f_equal. lia.
    - inv_bind Epm. apply Done_inj in Epm. subst v3. cbn [fst snd].
      split; [lia | ]. split; [intros _ | intros; lia].
      split; [ | split; reflexivity].
      etransitivity; [ | exact E]. f_equal. lia.
    - apply Done_inj in Epm. subst v3. cbn [fst snd].
      split; [lia | ]. split; [lia | ]. intros _. repeat split. }
  clear Epm. destruct v3 as [[[xrpm xdpm] svel] cursor'].
  cbn [fst snd] in Hpm. destruct Hpm as (Hpm1 & Hpm2 & Hpm0).
  destruct (CInt.add (Header.starNameLength h) 1 <=? 0); [discriminate | ].
  inv_bind H. destruct mag as [mag | ]; [ | discriminate].
  apply Done_inj in H. subst star.
  cbn [Star.rightAscension Star.declination Star.spectralType Star.starId
       Star.properMotion Star.radialVelocity Star.pm_rightAscension
       Star.pm_declination].
  rewrite Hcur0 in *.
  split; [exact Era | ].
  split; [etransitivity; [ | exact Edec]; f_equal; lia | ].
  split.
  { exists v1, v2. split; [etransitivity; [ | exact Es0]; f_equal; lia | ].
    split; [etransitivity; [ | exact Es1]; f_equal; lia | reflexivity]. }
  split; [exact Hfloat | ]. split; [exact Hint | ]. split; [exact Hnone | ].
  split; [exact Hpm1 | ].
  split.
  { intros Hrv. destruct (Hpm2 Hrv) as (Hv & -> & ->). split; [exact Hv | reflexivity]. }
  intros Hno. destruct (Hpm0 Hno) as (-> & -> & ->). split; reflexivity.
Qed.

(** [X7_record_layout] on the first record of the sample catalog, which
    has neither identifier nor motion fields. *)
Lemma X7_record_layout_witness :
  parse_double catalog_abc 28 true = Done 4608238818662570488
  /\ parse_double catalog_abc 36 true = Done 13830443255664994741.
Proof.
  pose proof (X7_record_layout header_abc catalog_abc 28) as L.
  let r := eval vm_compute in (parseStar header_abc catalog_abc 28) in
  match r with Done ?s => specialize (L s) end.
  destruct (L eq_refl) as (Hra & Hdec & _); [vm_compute; split; discriminate | ].
  split; [exact Hra | exact Hdec].
Defined.

(** *** A record read from another place *)

Section SameBytes.

Variables (data : buffer) (p : Z) (data' : buffer) (p' : Z).
Hypothesis Hsame : same_bytes data p data' p'.

Lemma at_same (k v : Z) :
  at_ data (p + k) = Done v -> at_ data' (p' + k) = Done v.
Proof.
  unfold at_. intros H. inv_bind H. rewrite (Hsame _ _ E). exact H.
Qed.

(** One read of a field: the same read succeeds in the other buffer. *)
Ltac step_same H :=
  let v := fresh "d" in
  let E := fresh "R" in
  apply bind_Done in H; destruct H as (v & E & H);
  first [ apply at_same in E
        | rewrite <- Z.add_assoc in E; apply at_same in E;
          rewrite Z.add_assoc in E ];
  rewrite E; cbn [bind].

Lemma parse_int16_same (c : Z) (le : bool) (v : Z) :
  parse_int16 data (p + c) le = Done v -> parse_int16 data' (p' + c) le = Done v.
Proof. unfold parse_int16. intros H. do 2 step_same H. exact H. Qed.

Lemma parse_int32_same (c : Z) (le : bool) (v : Z) :
  parse_int32 data (p + c) le = Done v -> parse_int32 data' (p' + c) le = Done v.
Proof. unfold parse_int32. intros H. do 4 step_same H. exact H. Qed.

Lemma parse_float_same (c : Z) (le : bool) (v : Z) :
  parse_float data (p + c) le = Done v -> parse_float data' (p' + c) le = Done v.
Proof. unfold parse_float. intros H. do 4 step_same H. exact H. Qed.

Lemma parse_double_same (c : Z) (le : bool) (v : Z) :
  parse_double data (p + c) le = Done v -> parse_double data' (p' + c) le = Done v.
Proof. unfold parse_double. intros H. do 8 step_same H. exact H. Qed.

Lemma strncpy_same (n : nat) (c : Z) (l : list byte) :
  strncpy data (p + c) n = Done l -> strncpy data' (p' + c) n = Done l.
Proof.
  revert c l. induction n as [ | n IH]; intros c l H; [exact H | ].
  cbn [strncpy] in *. inv_bind H. rewrite (Hsame _ _ E). cbn [bind].
  destruct (is_nul v); [exact H | ].
  inv_bind H. rewrite <- Z.add_assoc in E0. rewrite <- Z.add_assoc.
  rewrite (IH _ _ E0). exact H.
Qed.

Lemma magnitudes_same (h : Header.t) (n : nat) (i cursor : Z) (mag : option Z)
      (r : option Z * Z) :
  magnitudes h data p n i cursor mag = Done r ->
  magnitudes h data' p' n i cursor mag = Done r.
Proof.
  revert i cursor mag. induction n as [ | n IH]; intros i cursor mag H; [exact H | ].
  cbn [magnitudes] in *.
  destruct (Header.apparentMagnitude h) as [a | ]; [ | discriminate].
  inv_bind H.
  assert (E' : (if i =? a
                then m <- parse_int16 data' (p' + cursor) (Header.littleEndian h) ;;
                     Done (Some m)
                else Done mag) = Done v).
  { destruct (i =? a); [ | exact E].
    inv_bind E. rewrite (parse_int16_same _ _ _ E0). exact E. }
  rewrite E'. cbn [bind]. apply IH. exact H.
Qed.

Lemma parseStar_same (h : Header.t) (star : Star.t) :
  parseStar h data p = Done star -> parseStar h data' p' = Done star.
Proof.
  unfold parseStar. intros H.
  inv_bind H.
  match goal with
  | |- bind ?c _ = _ => assert (E' : c = Done v)
  end.
  { destruct ((Header.starId h =? Header.CATALOG_STAR_ID)
              || (Header.starId h =? Header.GSC_STAR_ID)
              || (Header.starId h =? Header.TYCHO_STAR_ID)).
    - inv_bind E. rewrite (parse_float_same _ _ _ E0). exact E.
    - destruct (Header.starId h =? Header.INTEGER_STAR_ID); [ | exact E].
      inv_bind E. rewrite (parse_int32_same _ _ _ E0). exact E. }
  rewrite E'. cbn [bind]. clear E E'.
  inv_bind H. rewrite (parse_double_same _ _ _ E). cbn [bind].
  inv_bind H. rewrite (parse_double_same _ _ _ E0). cbn [bind].
  inv_bind H. rewrite (Hsame _ _ E1). cbn [bind].
  inv_bind H. rewrite (Hsame _ _ E2). cbn [bind].
  inv_bind H. rewrite (magnitudes_same _ _ _ _ _ _ E3). cbn [bind].
  inv_bind H.
  match goal with
  | |- bind ?c _ = _ => assert (E' : c = Done v5)
  end.
  { destruct (Header.properMotion h =? Header.PROPER_MOTION).
    - inv_bind E4. inv_bind E4.
      rewrite (parse_float_same _ _ _ E5). cbn [bind].
      rewrite (parse_float_same _ _ _ E6). exact E4.
    - destruct (Header.properMotion h =? Header.RADIAL_VELOCITY); [ | exact E4].
      inv_bind E4. rewrite (parse_double_same _ _ _ E5). exact E4. }
  rewrite E'. cbn [bind]. clear E4 E'.
  destruct v5 as [[[xrpm xdpm] svel] cursor].
  destruct (CInt.add (Header.starNameLength h) 1 <=? 0); [discriminate | ].
  inv_bind H.
  match goal with
  | |- bind ?c _ = _ => assert (E' : c = Done v5)
  end.
  { destruct (0 <? Header.starNameLength h); [ | exact E4].
    apply strncpy_same. exact E4. }
  rewrite E'. exact H.
Qed.

End SameBytes.

Lemma same_bytes_embedded (pre data post : buffer) (p : Z) :
  same_bytes data p (pre ++ data ++ post) (Z.of_nat (List.length pre) + p).
Proof.
  intros k b. unfold byte_at.
  destruct (Z.ltb_spec (p + k) 0); [discriminate | ].
  destruct (Z.ltb_spec (Z.of_nat (List.length pre) + p + k) 0); [lia | ].
  destruct (nth_error data (Z.to_nat (p + k))) as [b' | ] eqn:E; [ | discriminate].
  intros Hb. rewrite nth_error_app2 by lia.
  replace (Z.to_nat (Z.of_nat (List.length pre) + p + k) - List.length pre)%nat
    with (Z.to_nat (p + k)) by lia.
  rewrite nth_error_app1 by (apply nth_error_Some; rewrite E; discriminate).
  rewrite E. exact Hb.
Qed.

(** X8.  A record decodes to the same star wherever it sits: bytes put
    before it move its offset and change nothing else, and bytes put
    after the buffer are not looked at. *)
Theorem X8_record_relocation (h : Header.t) (pre data post : buffer) (p : Z)
        (star : Star.t) :
  parseStar h data p = Done star ->
  parseStar h (pre ++ data ++ post) (Z.of_nat (List.length pre) + p) = Done star.
Proof.
  apply parseStar_same. apply same_bytes_embedded.
Qed.

(** [X8_record_relocation] on the second record of the sample catalog,
    taken out of the file and read at offset 0 and at offset 2. *)
Lemma X8_record_relocation_witness :
  parseStar header_abc ([x01; x02] ++ skipn 51 catalog_abc ++ [x03]) 2
  = parseStar header_abc (skipn 51 catalog_abc) 0.
Proof.
  pose proof (X8_record_relocation header_abc [x01; x02] (skipn 51 catalog_abc)
                                   [x03] 0) as L.
  let r := eval vm_compute in (parseStar header_abc (skipn 51 catalog_abc) 0) in
  match r with Done ?s => specialize (L s eq_refl); transitivity (Done s) end.
  - exact L.
  - reflexivity.
Defined.

Lemma c_str_length (l : list byte) :
  (List.length (c_str l) <= List.length l)%nat
  /\ forallb (fun b => negb (is_nul b)) (c_str l) = true.
Proof.
  induction l as [ | b l [IH1 IH2]]; [split; [apply Nat.le_refl | reflexivity] | ].
  cbn [c_str]. destruct (is_nul b) eqn:E.
  - split; [cbn; lia | reflexivity].
  - cbn [List.length forallb]. rewrite E, IH2. split; [lia | reflexivity].
Qed.

(** X9.  A record that lies inside the buffer always decodes: with the
    magnitude index below the magnitude count, a name length that is not
    negative, and the name field ending at or before the end of the
    buffer, [parseStar] returns a star.  Its name holds no NUL and is no
    longer than the name field, and its magnitude is not a NaN. *)
Theorem X9_record_decodes (h : Header.t) (data : buffer) (p a : Z) :
  Header.apparentMagnitude h = Some a ->
  0 <= a < Header.numMagnitudes h ->
  Header.numMagnitudes h <= 10 ->
  0 <= Header.starNameLength h < CInt.INT_MAX ->
  0 <= p ->
  p + name_offset h + Header.starNameLength h <= Z.of_nat (List.length data) ->
  exists star,
    parseStar h data p = Done star
    /\ Z.of_nat (List.length (Star.name star)) <= Header.starNameLength h
    /\ forallb (fun b => negb (is_nul b)) (Star.name star) = true
    /\ IEEE.is_nan64 (IEEE.f64_of_f32 (Star.magnitude star)) = false.
Proof.
  intros Ha Hidx Hmag Hname Hp Hfit.
  destruct (parseStar_defined h data p a Ha Hidx) as (star & Hstar);
    [change (2 ^ 20) with 1048576; lia | assumption | assumption | assumption | ].
  exists star. split; [exact Hstar | ].
  apply parseStar_inv in Hstar;
    [ | change (2 ^ 20) with 1048576; lia
      | unfold CInt.in_int32, CInt.INT_MIN, CInt.INT_MAX in *; lia ].
  destruct Hstar as (_ & Hn & _ & a' & m & _ & _ & Hm & ->).
  rewrite Hn. destruct (c_str_length (name_field h data p)) as [Hlen Hnul].
  split.
  - assert (List.length (name_field h data p)
            <= Z.to_nat (Header.starNameLength h))%nat
      by (unfold name_field; apply firstn_le_length).
    lia.
  - split; [exact Hnul | ].
    apply magnitude_not_nan. apply (parse_int16_range _ _ _ _ Hm).
Qed.

(** [X9_record_decodes] on the second record of the sample catalog. *)
Lemma X9_record_decodes_witness :
  exists star,
    parseStar header_abc catalog_abc 51 = Done star
    /\ Z.of_nat (List.length (Star.name star)) <= 3.
Proof.
  destruct (X9_record_decodes header_abc catalog_abc 51 0) as (star & Hs & Hl & _);
    [reflexivity | vm_compute; split; [discriminate | reflexivity]
     | vm_compute; discriminate | vm_compute; split; [discriminate | reflexivity]
     | vm_compute; discriminate | vm_compute; discriminate | ].
  exists star. split; [exact Hs | exact Hl].
Defined.

(** ** Identifier sanitization and the serializer *)

Lemma sanitize_char_lower (ch : ascii) :
  let c := tolower ch in
  is_lower_ident (if isalpha c then c else "x"%char) = true
  /\ is_lower_ident (if isalnum c then c else "_"%char) = true.
Proof.
  destruct ch as [[] [] [] [] [] [] [] []]; vm_compute; split; reflexivity.
Qed.

Lemma sanitize_from_shape (i : nat) (cs : string) :
  String.length (sanitize_from i cs) = strlen cs
  /\ all_chars is_lower_ident (sanitize_from i cs) = true.
Proof.
  revert i. induction cs as [ | ch cs IH]; intros i; [split; reflexivity | ].
  cbn [sanitize_from strlen]. destruct (Ascii.eqb ch zero); [split; reflexivity | ].
  destruct (IH (S i)) as [IHl IHc].
  cbn [String.length all_chars]. rewrite IHl, IHc.
  destruct (sanitize_char_lower ch) as [H0 H1]. cbv zeta in H0, H1.
  destruct (i =? 0)%nat; [rewrite H0 | rewrite H1]; split; reflexivity.
Qed.

(** X10.  [sanitizeForC] writes one character for each character of its
    argument up to the terminating NUL, and every character it writes is
    a lower-case letter, a digit or an underscore. *)
Theorem X10_sanitize_shape (cs : string) :
  String.length (sanitizeForC cs) = strlen cs
  /\ all_chars is_lower_ident (sanitizeForC cs) = true.
Proof. apply sanitize_from_shape. Qed.

Lemma lower_ident_kept (c : ascii) :
  is_lower_ident c = true ->
  Ascii.eqb c zero = false
  /\ (if isalnum (tolower c) then tolower c else "_"%char) = c
  /\ (isalpha c = true -> (if isalpha (tolower c) then tolower c else "x"%char) = c).
Proof.
  destruct c as [[] [] [] [] [] [] [] []]; vm_compute;
    intros H; try discriminate H; repeat split; intros H'; discriminate H'.
Qed.

Lemma sanitize_from_fixed (i : nat) (cs : string) :
  i <> 0%nat -> all_chars is_lower_ident cs = true -> sanitize_from i cs = cs.
Proof.
  revert i. induction cs as [ | ch cs IH]; intros i Hi H; [reflexivity | ].
  cbn [all_chars] in H. apply andb_true_iff in H. destruct H as [Hc H].
  destruct (lower_ident_kept ch Hc) as (Hz & Hk & _).
  cbn [sanitize_from]. rewrite Hz.
  destruct i as [ | i]; [contradiction | ]. cbn [Nat.eqb].
  rewrite Hk, IH; [reflexivity | discriminate | exact H].
Qed.

(** X11.  The names [sanitizeForC] leaves unchanged are the identifiers
    in lower case: a string that starts with a letter and consists of
    lower-case letters, digits and underscores is returned as it is, and
    a string returned as it is has this form or is empty. *)
Theorem X11_sanitize_fixed_points (cs : string) :
  (is_identifier cs = true -> all_chars is_lower_ident cs = true ->
   sanitizeForC cs = cs)
  /\ (sanitizeForC cs = cs ->
      cs = EmptyString
      \/ (is_identifier cs = true /\ all_chars is_lower_ident cs = true)).
Proof.
  split.
  - intros Hid Hlow. unfold sanitizeForC.
    destruct cs as [ | ch cs]; [reflexivity | ].
    cbn [is_identifier] in Hid. apply andb_true_iff in Hid. destruct Hid as [Ha _].
    cbn [all_chars] in Hlow. apply andb_true_iff in Hlow. destruct Hlow as [Hc Hl].
    destruct (lower_ident_kept ch Hc) as (Hz & _ & Hk).
    cbn [sanitize_from]. rewrite Hz. cbn [Nat.eqb].
    rewrite (Hk Ha), sanitize_from_fixed; [reflexivity | discriminate | exact Hl].
  - intros Hfix. destruct cs as [ | ch cs]; [left; reflexivity | right].
    unfold sanitizeForC in Hfix.
    pose proof (proj2 (sanitize_from_shape 0 (String ch cs))) as Hlow.
    assert (Hid : is_identifier (sanitize_from 0 (String ch cs)) = true).
    { cbn [sanitize_from] in *.
      destruct (Ascii.eqb ch zero); [discriminate Hfix | ].
      cbn [Nat.eqb is_identifier].
      destruct (sanitize_first_char ch) as (_ & Ha & _). cbv zeta in Ha.
      rewrite Ha. apply sanitize_from_later. discriminate. }
    rewrite Hfix in Hid, Hlow. split; assumption.
Qed.

(** [X11_sanitize_fixed_points] on a name that is already an identifier. *)
Lemma X11_sanitize_fixed_points_witness :
  sanitizeForC "bsc5_dat" = "bsc5_dat"%string.
Proof.
  destruct (X11_sanitize_fixed_points "bsc5_dat") as [Hfix _].
  apply Hfix; reflexivity.
Defined.

Lemma numbers_app (a b : list field) : numbers (a ++ b) = numbers a ++ numbers b.
Proof.
  induction a as [ | f a IH]; [reflexivity | ].
  destruct f; cbn [app numbers]; rewrite IH; reflexivity.
Qed.

Lemma numbers_print (star : Star.t) (idx : Z) (cformat usefloat usename usetype : bool) :
  numbers (print star idx cformat usefloat usename usetype)
  = star_numbers (if usefloat then 9%nat else 17%nat) cformat star.
Proof.
  unfold print, star_numbers.
  destruct cformat, usename, usetype, (idx =? 0); reflexivity.
Qed.

Lemma numbers_print_all (m : multimap) (idx : Z)
      (cformat usefloat usename usetype : bool) :
  numbers (print_all m idx cformat usefloat usename usetype)
  = flat_map (fun e => star_numbers (if usefloat then 9%nat else 17%nat)
                                    cformat (snd e)) m.
Proof.
  revert idx. induction m as [ | [k s] m IH]; intros idx; [reflexivity | ].
  cbn [print_all flat_map snd]. rewrite numbers_app, numbers_print, IH.
  reflexivity.
Qed.

Lemma numbers_printCHeader (inputfile : string) (n : Z) (epoch : Epoch.t)
      (usefloat usename usetype : bool) :
  numbers (printCHeader inputfile n epoch usefloat usename usetype) = [].
Proof.
  unfold printCHeader. destruct usename, usetype; reflexivity.
Qed.

(** X12.  The numbers of an output are those of the collected stars and
    no others: for each star in map order its right ascension, its
    declination and its magnitude, each with 9 digits after the point
    with [-s] and 17 without, and with the space flag in C format only.
    Neither the C prologue and epilogue nor the name and type options add
    or remove a number, and the [-i] summary has none. *)
Theorem X12_numbers_printed (o : Options.t) (file : buffer) (out : list field) :
  main o file = Done out ->
  if Options.onlymeta o then numbers out = []
  else exists m,
      main_stars o file = Done m
      /\ numbers out
         = flat_map (fun e => star_numbers
                                (if Options.usefloat o then 9%nat else 17%nat)
                                (Options.cformat o) (snd e)) m.
Proof.
  intros H. apply main_output in H. destruct H as (h & _ & H).
  destruct (Options.onlymeta o).
  - subst out. reflexivity.
  - destruct H as (m & Hm & ->). exists m. split; [exact Hm | ].
    cbv zeta. rewrite !numbers_app, numbers_print_all.
    destruct (Options.cformat o).
    + rewrite numbers_printCHeader. cbn [app]. apply app_nil_r.
    + cbn [numbers app]. apply app_nil_r.
Qed.

(** [X12_numbers_printed] on the sample catalog, in C format with
    single precision. *)
Lemma X12_numbers_printed_witness :
  exists out,
    main (set_usefloat true (set_cformat true
            (Options.default "catalog"))) catalog_abc = Done out
    /\ List.length (numbers out) = 6%nat.
Proof.
  eexists. split; [vm_compute; reflexivity | ].
  match goal with
  | |- List.length (numbers ?out) = _ =>
      pose proof (X12_numbers_printed
                    (set_usefloat true (set_cformat true
                       (Options.default "catalog"))) catalog_abc out eq_refl) as L
  end.
  cbn [Options.onlymeta set_usefloat set_cformat Options.default] in L.
  destruct L as (m & Hm & ->).
  vm_compute in Hm. apply Done_inj in Hm. subst m. reflexivity.
Defined.

(** ** [main]: diagnostics *)

Lemma bind_Fail {A B : Type} (c : outcome A) (k : A -> outcome B) (e : diagnostic) :
  bind c k = Fail e -> c = Fail e \/ exists a, c = Done a /\ k a = Fail e.
Proof.
  destruct c as [a | e' | ]; cbn [bind]; intros H.
  - right. exists a. split; [reflexivity | exact H].
  - left. injection H as ->. reflexivity.
  - discriminate.
Qed.

Lemma never_fails_bind {A B : Type} (c : outcome A) (k : A -> outcome B) :
  never_fails c -> (forall a, never_fails (k a)) -> never_fails (bind c k).
Proof.
  intros Hc Hk e H. apply bind_Fail in H. destruct H as [H | (a & _ & H)].
  - exact (Hc e H).
  - exact (Hk a e H).
Qed.

Lemma never_fails_Done {A : Type} (a : A) : never_fails (Done a).
Proof. intros e H. discriminate. Qed.

Lemma never_fails_Undefined {A : Type} : never_fails (@Undefined A).
Proof. intros e H. discriminate. Qed.

Lemma byte_at_never_fails (data : buffer) (p : Z) : never_fails (byte_at data p).
Proof.
  unfold byte_at. destruct (p <? 0); [apply never_fails_Undefined | ].
  destruct (nth_error data (Z.to_nat p));
    [apply never_fails_Done | apply never_fails_Undefined].
Qed.

Lemma at_never_fails (data : buffer) (p : Z) : never_fails (at_ data p).
Proof.
  unfold at_. apply never_fails_bind; [apply byte_at_never_fails | ].
  intros b. apply never_fails_Done.
Qed.

(** Discharges [never_fails] goals made of reads and of the constructs
    that combine them. *)
Ltac never_fails_step :=
  match goal with
  | |- never_fails (Done _) => apply never_fails_Done
  | |- never_fails Undefined => apply never_fails_Undefined
  | |- never_fails (at_ _ _) => apply at_never_fails
  | |- never_fails (byte_at _ _) => apply byte_at_never_fails
  | |- never_fails (bind _ _) => apply never_fails_bind; [ | intros ? ]
  | |- never_fails (if ?c then _ else _) => destruct c
  | |- never_fails (match ?x with Some _ => _ | None => _ end) => destruct x
  | |- never_fails (let '(_, _) := ?x in _) => destruct x
  end.

Lemma parse_int16_never_fails (data : buffer) (p : Z) (le : bool) :
  never_fails (parse_int16 data p le).
Proof. unfold parse_int16. repeat never_fails_step. Qed.

Lemma parse_int32_never_fails (data : buffer) (p : Z) (le : bool) :
  never_fails (parse_int32 data p le).
Proof. unfold parse_int32. repeat never_fails_step. Qed.

Lemma parse_float_never_fails (data : buffer) (p : Z) (le : bool) :
  never_fails (parse_float data p le).
Proof. unfold parse_float. repeat never_fails_step. Qed.

Lemma parse_double_never_fails (data : buffer) (p : Z) (le : bool) :
  never_fails (parse_double data p le).
Proof. unfold parse_double. repeat never_fails_step. Qed.

Lemma strncpy_never_fails (data : buffer) (n : nat) (p : Z) :
  never_fails (strncpy data p n).
Proof.
  revert p. induction n as [ | n IH]; intros p; cbn [strncpy].
  - apply never_fails_Done.
  - apply never_fails_bind; [apply byte_at_never_fails | intros c].
    destruct (is_nul c); [apply never_fails_Done | ].
    apply never_fails_bind; [apply IH | intros l; apply never_fails_Done].
Qed.

Lemma magnitudes_never_fails (h : Header.t) (data : buffer) (p : Z) (n : nat)
      (i cursor : Z) (mag : option Z) :
  never_fails (magnitudes h data p n i cursor mag).
Proof.
  revert i cursor mag. induction n as [ | n IH]; intros i cursor mag;
    cbn [magnitudes].
  - apply never_fails_Done.
  - destruct (Header.apparentMagnitude h); [ | apply never_fails_Undefined].
    apply never_fails_bind; [ | intros m; apply IH].
    destruct (i =? z); [ | apply never_fails_Done].
    apply never_fails_bind; [apply parse_int16_never_fails | ].
    intros m. apply never_fails_Done.
Qed.

Lemma parseStar_never_fails (h : Header.t) (data : buffer) (p : Z) :
  never_fails (parseStar h data p).
Proof.
  unfold parseStar.
  repeat first
    [ apply parse_float_never_fails | apply parse_int32_never_fails
    | apply parse_double_never_fails | apply magnitudes_never_fails
    | apply strncpy_never_fails | never_fails_step ].
Qed.

Lemma main_loop_never_fails (h : Header.t) (data : buffer) (f : IEEE.f64)
      (sort : Sort.t) (n : nat) (i cursor : Z) (map : multimap) :
  never_fails (main_loop h data f sort n i cursor map).
Proof.
  revert i cursor map. induction n as [ | n IH]; intros i cursor map;
    cbn [main_loop].
  - apply never_fails_Done.
  - apply never_fails_bind; [apply parseStar_never_fails | intros star].
    apply never_fails_bind; [ | intros map'; apply IH].
    destruct (filtered f star); [apply never_fails_Done | ].
    unfold multimap_insert.
    destruct (IEEE.is_nan64 _); [apply never_fails_Undefined | apply never_fails_Done].
Qed.

Lemma parseHeader_Fail (data : buffer) (epoch : Epoch.t) (endian : Endian.t)
      (d : diagnostic) :
  parseHeader data epoch endian = Fail d -> header_diagnostic d = true.
Proof.
  unfold parseHeader. intros H.
  apply bind_Fail in H. destruct H as [H | (probe & _ & H)].
  - unfold probe_endian in H.
    destruct endian;
      (apply bind_Fail in H; destruct H as [H | (n & _ & H)];
       [exfalso; exact (parse_int32_never_fails _ _ _ _ H) | ]).
    + destruct (10 <? CInt.abs n); [ | discriminate].
      apply bind_Fail in H; destruct H as [H | (n' & _ & H)];
        [exfalso; exact (parse_int32_never_fails _ _ _ _ H) | ].
      destruct (10 <? CInt.abs n'); [ | discriminate].
      injection H as <-. reflexivity.
    + destruct (10 <? CInt.abs n); [ | discriminate]. injection H as <-. reflexivity.
    + destruct (10 <? CInt.abs n); [ | discriminate]. injection H as <-. reflexivity.
  - do 4 (apply bind_Fail in H; destruct H as [H | (? & _ & H)];
          [exfalso; exact (parse_int32_never_fails _ _ _ _ H) | ]).
    destruct (_ && _); [injection H as <-; reflexivity | ].
    destruct (_ && _); [injection H as <-; reflexivity | discriminate].
Qed.

Lemma main_Fail (o : Options.t) (file : buffer) (d : diagnostic) :
  main o file = Fail d -> main_header o file = Fail d.
Proof.
  unfold main. intros H.
  apply bind_Fail in H. destruct H as [H | (h & _ & H)]; [exact H | exfalso].
  destruct (Options.onlymeta o); [discriminate | ].
  apply bind_Fail in H. destruct H as [H | (m & _ & H)]; [ | discriminate].
  exact (main_loop_never_fails _ _ _ _ _ _ _ _ _ H).
Qed.

(** X13.  Every diagnostic of a run comes from the checks made before the
    first record is decoded: the record loop and the output stage end a
    run with no diagnostic of their own.  The diagnostic is "empty"
    exactly for the file of length 0 and "no header" exactly for the
    files of 1 to 27 bytes; otherwise it is one of the header
    diagnostics, the "file too short" or the magnitude-count one. *)
Theorem X13_diagnostics (o : Options.t) (file : buffer) (d : diagnostic) :
  main o file = Fail d ->
  main_header o file = Fail d
  /\ (d = EmptyFile <-> file = [])
  /\ (d = NoHeader <-> 0 < Z.of_nat (List.length file) < 28)
  /\ (28 <= Z.of_nat (List.length file) ->
      header_diagnostic d = true
      \/ (exists n s need, d = FileTooShort n s (Z.of_nat (List.length file)) need)
      \/ (exists n, d = TooFewMagnitudes n /\ n < 1)).
Proof.
  intros H. apply main_Fail in H. split; [exact H | ].
  unfold main_header in H.
  destruct (Z.eqb_spec (Z.of_nat (List.length file)) 0) as [H0 | H0].
  { injection H as <-. split; [ | split; [ | lia]].
    - split; [intros _ | reflexivity]. destruct file; [reflexivity | cbn in H0; lia].
    - split; [discriminate | lia]. }
  assert (Hne : file <> []) by (intros ->; apply H0; reflexivity).
  destruct (Z.ltb_spec (Z.of_nat (List.length file)) 28) as [Hs | Hs].
  { injection H as <-. split; [ | split; [ | lia]].
    - split; [discriminate | intros Hf; contradiction].
    - split; [lia | reflexivity]. }
  apply bind_Fail in H. destruct H as [H | (h & _ & H)].
  - apply parseHeader_Fail in H.
    split; [split; [intros ->; discriminate | intros Hf; contradiction] | ].
    split; [split; [intros ->; discriminate | lia] | ].
    intros _. left. exact H.
  - destruct (_ <? CInt.to_size_t _).
    + injection H as <-.
      split; [split; [discriminate | intros Hf; contradiction] | ].
      split; [split; [discriminate | lia] | ].
      intros _. right. left. do 3 eexists. reflexivity.
    + destruct (Z.ltb_spec (Header.numMagnitudes h) 1); [ | discriminate].
      injection H as <-.
      split; [split; [discriminate | intros Hf; contradiction] | ].
      split; [split; [discriminate | lia] | ].
      intros _. right. right. eexists. split; [reflexivity | assumption].
Qed.

(** [X13_diagnostics] on a file of three bytes. *)
Lemma X13_diagnostics_witness :
  main (Options.default "catalog") [x01; x02; x03] = Fail NoHeader
  /\ main_header (Options.default "catalog") [x01; x02; x03] = Fail NoHeader.
Proof.
  split; [reflexivity | ].
  destruct (X13_diagnostics (Options.default "catalog") [x01; x02; x03] NoHeader
                            eq_refl) as (Hh & _).
  exact Hh.
Defined.

(** X14.  A catalog whose header decodes is rejected in two cases.  When
    the record region, computed without wrap-around, does not fit in the
    file, the diagnostic reports the star count, the stride, the file
    size and the size needed.  When the size check passes and the header
    announces no magnitude, the diagnostic reports the magnitude count.
    Both hold with every option, [-i] included. *)
Theorem X14_rejected_catalogs (o : Options.t) (file : buffer) (h0 : Header.t) :
  28 <= Z.of_nat (List.length file) ->
  parseHeader file (Options.epoch o) (Options.endian o) = Done h0 ->
  (0 <= Header.numStars h0 * Header.numBytesPerStar h0 <= CInt.INT_MAX - 28 ->
   Z.of_nat (List.length file)
   < 28 + Header.numStars h0 * Header.numBytesPerStar h0 ->
   main o file
   = Fail (FileTooShort (Header.numStars h0) (Header.numBytesPerStar h0)
                        (Z.of_nat (List.length file))
                        (28 + Header.numStars h0 * Header.numBytesPerStar h0)))
  /\ (0 <= Header.numStars h0 * Header.numBytesPerStar h0 <= CInt.INT_MAX - 28 ->
      28 + Header.numStars h0 * Header.numBytesPerStar h0
      <= Z.of_nat (List.length file) ->
      Header.numMagnitudes h0 < 1 ->
      main o file = Fail (TooFewMagnitudes (Header.numMagnitudes h0))).
Proof.
  intros Hlen Hh.
  assert (Hsize : 0 <= Header.numStars h0 * Header.numBytesPerStar h0
                  <= CInt.INT_MAX - 28 ->
                  CInt.add 28 (CInt.mul (Header.numStars h0)
                                        (Header.numBytesPerStar h0))
                  = 28 + Header.numStars h0 * Header.numBytesPerStar h0
                  /\ CInt.to_size_t
                       (28 + Header.numStars h0 * Header.numBytesPerStar h0)
                     = 28 + Header.numStars h0 * Header.numBytesPerStar h0).
  { intros Hfit. unfold CInt.INT_MAX in Hfit. unfold CInt.mul, CInt.add.
    rewrite (to_int32_small (Header.numStars h0 * Header.numBytesPerStar h0))
      by (unfold CInt.in_int32, CInt.INT_MIN, CInt.INT_MAX; lia).
    rewrite to_int32_small
      by (unfold CInt.in_int32, CInt.INT_MIN, CInt.INT_MAX; lia).
    split; [reflexivity | ]. unfold CInt.to_size_t.
    change (2 ^ 31) with 2147483648 in Hfit.
    apply Z.mod_small. change (2 ^ 64) with 18446744073709551616. lia. }
  assert (Hmain : forall e, main_header o file = Fail e -> main o file = Fail e).
  { intros e He. unfold main. rewrite He. reflexivity. }
  split.
  - intros Hfit Hshort. destruct (Hsize Hfit) as [Hadd Hsz].
    apply Hmain. unfold main_header.
    destruct (Z.eqb_spec (Z.of_nat (List.length file)) 0); [lia | ].
    destruct (Z.ltb_spec (Z.of_nat (List.length file)) 28); [lia | ].
    rewrite Hh. cbn [bind]. rewrite Hadd, Hsz.
    destruct (Z.ltb_spec (Z.of_nat (List.length file))
                (28 + Header.numStars h0 * Header.numBytesPerStar h0));
      [reflexivity | lia].
  - intros Hfit Hlong Hmag. destruct (Hsize Hfit) as [Hadd Hsz].
    apply Hmain. unfold main_header.
    destruct (Z.eqb_spec (Z.of_nat (List.length file)) 0); [lia | ].
    destruct (Z.ltb_spec (Z.of_nat (List.length file)) 28); [lia | ].
    rewrite Hh. cbn [bind]. rewrite Hadd, Hsz.
    destruct (Z.ltb_spec (Z.of_nat (List.length file))
                (28 + Header.numStars h0 * Header.numBytesPerStar h0)); [lia | ].
    destruct (Z.ltb_spec (Header.numMagnitudes h0) 1); [reflexivity | lia].
Qed.

(** [X14_rejected_catalogs] on the sample catalog cut after 60 bytes: the
    header and two records of 23 bytes need 74. *)
Lemma X14_rejected_catalogs_witness :
  main (Options.set_onlymeta true (Options.default "catalog"))
       (firstn 60 catalog_abc)
  = Fail (FileTooShort 2 23 60 74).
Proof.
  destruct (X14_rejected_catalogs
              (Options.set_onlymeta true (Options.default "catalog"))
              (firstn 60 catalog_abc) (header_of (-2) (-3) 0 1 23 true))
    as [Hshort _];
    [vm_compute; discriminate | vm_compute; reflexivity | ].
  apply Hshort; vm_compute; [split; discriminate | reflexivity].
Defined.

(** ** [main]: the stars collected *)

(** The magnitude of a record is finite. *)
Lemma magnitude_finite (m : Z) :
  CInt.in_int16 m ->
  IEEE.ltb64 IEEE.DBL_MAX (IEEE.f64_of_f32 (IEEE.f32_div100 m)) = false.
Proof.
  intros Hm. destruct (Z.eq_dec m 0) as [-> | Hm0]; [reflexivity | ].
  destruct (f32_div100_normal m Hm Hm0) as (s & r & -> & Hs & Hr).
  change (2 ^ 31) with 2147483648. change (2 ^ 23) with 8388608 in Hr.
  unfold IEEE.ltb64, IEEE.ord64, IEEE.sign64, IEEE.DBL_MAX, IEEE.f64_of_f32,
    IEEE.is_nan64, IEEE.mag64, IEEE.inf64.
  change (2 ^ 31) with 2147483648. change (2 ^ 23) with 8388608.
  change (2 ^ 8) with 256. change (2 ^ 63) with 9223372036854775808.
  change (2 ^ 52) with 4503599627370496. change (2 ^ 29) with 536870912.
  set (B := s * 2147483648 + r).
  assert (Hs' : B / 2147483648 = s).
  { unfold B. symmetry. apply (Z.div_unique _ _ s r); lia. }
  pose proof (Z.div_mod B 8388608 ltac:(lia)) as Hdm.
  pose proof (Z.mod_pos_bound B 8388608 ltac:(lia)) as Hmb.
  set (f := B mod 8388608) in *. set (d := B / 8388608) in *.
  assert (Hd : d mod 256 = d - 256 * s /\ 120 <= d - 256 * s <= 136).
  { assert (Hrange : 120 <= d - 256 * s <= 136) by (unfold B in Hdm; lia).
    split; [ | exact Hrange].
    symmetry. apply (Z.mod_unique _ _ s); lia. }
  destruct Hd as [-> Hd]. rewrite Hs'.
  destruct (Z.eqb_spec (d - 256 * s) 255) as [ | _]; [lia | ].
  destruct (Z.eqb_spec (d - 256 * s) 0) as [ | _]; [lia | ].
  set (v := (d - 256 * s - 127 + 1023) * 4503599627370496 + f * 536870912).
  assert (Hv : 0 <= v < 2047 * 4503599627370496) by (unfold v; lia).
  replace ((s * 9223372036854775808 + v) mod 9223372036854775808) with v
    by (apply (Z.mod_unique _ _ s); lia).
  replace ((2047 * 4503599627370496 - 1) mod 9223372036854775808)
    with (2047 * 4503599627370496 - 1) by reflexivity.
  destruct (2047 * 4503599627370496 <? 2047 * 4503599627370496 - 1);
    [reflexivity | ].
  destruct (2047 * 4503599627370496 <? v); [reflexivity | ].
  cbn [negb andb].
  replace (9223372036854775808 <=? 2047 * 4503599627370496 - 1) with false
    by reflexivity.
  destruct (9223372036854775808 <=? s * 9223372036854775808 + v);
    apply Z.ltb_ge; lia.
Qed.

Lemma records_finite (h : Header.t) (data : buffer) (n : nat) (cursor : Z)
      (stars : list Star.t) :
  0 <= Header.numMagnitudes h <= 2 ^ 20 ->
  CInt.in_int32 (Header.starNameLength h) ->
  records h data n cursor = Done stars ->
  survivors IEEE.DBL_MAX stars = filter (fun s => negb (all_zero s)) stars.
Proof.
  intros Hmag Hname. revert cursor stars.
  induction n as [ | n IH]; intros cursor stars H.
  - simpl in H. apply Done_inj in H. subst stars. reflexivity.
  - cbn [records] in H. inv_bind H. inv_bind H. apply Done_inj in H. subst stars.
    unfold survivors in *. cbn [filter]. rewrite (IH _ _ E0).
    apply parseStar_inv in E; [ | assumption | assumption].
    destruct E as (_ & _ & _ & a & m & _ & _ & Hm & Hv).
    unfold filtered. rewrite Hv.
    rewrite (magnitude_finite m (parse_int16_range _ _ _ _ Hm)).
    reflexivity.
Qed.

(** X15.  No collected star is fainter than the threshold: its magnitude
    does not compare greater than the value given with [-f].  Without
    [-f] the threshold is [DBL_MAX], which no magnitude exceeds: the
    collected stars are then all the records of the catalog except the
    all-zero ones. *)
Theorem X15_magnitude_threshold (o : Options.t) (file : buffer) (m : multimap) :
  main_stars o file = Done m ->
  Forall (fun e => IEEE.ltb64 (Options.filterMagnitude o)
                              (IEEE.f64_of_f32 (Star.magnitude (snd e))) = false) m
  /\ (Options.filterMagnitude o = IEEE.DBL_MAX ->
      exists h stars,
        main_header o file = Done h
        /\ records h file (Z.to_nat (Header.numStars h)) 28 = Done stars
        /\ Permutation (List.map snd m)
                       (filter (fun s => negb (all_zero s)) stars)).
Proof.
  intros H. split.
  - pose proof (main_stars_survivors _ _ _ H) as Hs.
    eapply Forall_impl; [ | exact Hs]. cbv beta. intros e He.
    unfold filtered in He. apply orb_false_iff in He. apply He.
  - intros Hdef. apply main_stars_inv in H.
    destruct H as (h & stars & Hh & Hrec & _ & _ & ->).
    exists h, stars. split; [exact Hh | ]. split; [exact Hrec | ].
    destruct (main_header_facts _ _ _ Hh) as (Hmag & Hname & _ & _).
    rewrite <- (records_finite h file (Z.to_nat (Header.numStars h)) 28 stars);
      [ | change (2 ^ 20) with 1048576; lia | assumption | assumption ].
    rewrite <- Hdef.
    apply (insert_all_perm (Options.filterMagnitude o) (Options.sort o) stars 0 []).
Qed.

(** [X15_magnitude_threshold] on the sample catalog with threshold 4.0:
    both records have magnitude 4.50. *)
Lemma X15_magnitude_threshold_witness :
  main_stars (Options.set_filterMagnitude 4616189618054758400
                                          (Options.default "catalog"))
             catalog_abc = Done []
  /\ exists stars,
      records header_abc catalog_abc 2 28 = Done stars
      /\ List.length (filter (fun s => negb (all_zero s)) stars) = 2%nat.
Proof.
  split; [vm_compute; reflexivity | ].
  eassert (Hrun : main_stars (Options.default "catalog") catalog_abc = Done _)
    by (vm_compute; reflexivity).
  destruct (X15_magnitude_threshold _ _ _ Hrun) as [_ Hdef].
  destruct (Hdef eq_refl) as (h & stars & Hh & Hrec & Hperm).
  vm_compute in Hh. apply Done_inj in Hh. subst h.
  exists stars. split; [exact Hrec | ].
  rewrite <- (Permutation_length Hperm). reflexivity.
Defined.

(** X16.  Sorting changes the order of the stars and nothing else: two
    runs on the same file that differ in the sort option only collect
    the same stars, each as often as the other.  No run collects more
    stars than the header counts. *)
Theorem X16_sort_keeps_stars (o : Options.t) (file : buffer) (s : Sort.t)
        (m m' : multimap) :
  main_stars o file = Done m ->
  main_stars (Options.set_sort s o) file = Done m' ->
  Permutation (List.map snd m) (List.map snd m')
  /\ exists h, main_header o file = Done h
               /\ (List.length m <= Z.to_nat (Header.numStars h))%nat.
Proof.
  intros H H'. apply main_stars_inv in H. apply main_stars_inv in H'.
  destruct H as (h & stars & Hh & Hrec & Hlen & _ & ->).
  destruct H' as (h' & stars' & Hh' & Hrec' & _ & _ & ->).
  change (main_header (Options.set_sort s o) file) with (main_header o file) in Hh'.
  rewrite Hh in Hh'. apply Done_inj in Hh'. subst h'.
  rewrite Hrec in Hrec'. apply Done_inj in Hrec'. subst stars'.
  cbn [Options.filterMagnitude Options.sort Options.set_sort].
  pose proof (insert_all_perm (Options.filterMagnitude o) (Options.sort o)
                              stars 0 []) as P1.
  pose proof (insert_all_perm (Options.filterMagnitude o) s stars 0 []) as P2.
  cbn [List.map app] in P1, P2. split.
  - eapply Permutation_trans; [exact P1 | apply Permutation_sym; exact P2].
  - exists h. split; [exact Hh | ].
    rewrite <- Hlen, <- (length_map snd), (Permutation_length P1).
    unfold survivors. apply filter_length_le.
Qed.

(** [X16_sort_keeps_stars] on the unsorted sample catalog, without
    sorting and sorted by magnitude. *)
Lemma X16_sort_keeps_stars_witness :
  exists m m',
    main_stars (Options.default "catalog") catalog_unsorted = Done m
    /\ main_stars (Options.set_sort Sort.MAG (Options.default "catalog"))
                  catalog_unsorted = Done m'
    /\ Permutation (List.map snd m) (List.map snd m').
Proof.
  eassert (H : main_stars (Options.default "catalog") catalog_unsorted = Done _)
    by (vm_compute; reflexivity).
  eassert (H' : main_stars (Options.set_sort Sort.MAG (Options.default "catalog"))
                           catalog_unsorted = Done _)
    by (vm_compute; reflexivity).
  do 2 eexists. split; [exact H | ]. split; [exact H' | ].
  exact (proj1 (X16_sort_keeps_stars _ _ _ _ _ H H')).
Defined.

(** The records decode when every one of them lies inside the file. *)
Lemma records_defined (h : Header.t) (data : buffer) (a : Z) (n : nat)
      (cursor : Z) :
  Header.apparentMagnitude h = Some a ->
  0 <= a < Header.numMagnitudes h ->
  Header.numMagnitudes h <= 2 ^ 20 ->
  0 <= Header.starNameLength h ->
  name_offset h + Header.starNameLength h <= Header.numBytesPerStar h ->
  0 <= cursor ->
  cursor + Z.of_nat n * Header.numBytesPerStar h <= Z.of_nat (List.length data) ->
  cursor + Z.of_nat n * Header.numBytesPerStar h <= CInt.INT_MAX ->
  exists stars, records h data n cursor = Done stars.
Proof.
  intros Ha Hidx Hmag Hname Hfit.
  pose proof (name_offset_lower h ltac:(lia)) as Hoff.
  revert cursor. induction n as [ | n IH]; intros cursor Hc Hlen Hmax.
  - eexists. reflexivity.
  - rewrite Nat2Z.inj_succ in *. unfold CInt.INT_MAX in *.
    assert (Hn : 0 <= Z.of_nat n * Header.numBytesPerStar h)
      by (apply Z.mul_nonneg_nonneg; lia).
    cbn [records].
    destruct (parseStar_defined h data cursor a Ha Hidx Hmag) as (star & ->);
      [unfold CInt.INT_MAX; lia | lia | lia | ].
    cbn [bind]. unfold CInt.add. rewrite to_int32_small
      by (unfold CInt.in_int32, CInt.INT_MIN, CInt.INT_MAX; lia).
    destruct (IH (cursor + Header.numBytesPerStar h)) as (rest & ->); [lia | lia | lia | ].
    cbn [bind]. eexists. reflexivity.
Qed.

(** X17.  A run on a well-formed catalog completes and prints.  When the
    header is accepted, the name length is not negative, every record
    fits the stride and the record region is computed without
    wrap-around, the records of the catalog decode; and if, when the
    stars are sorted by right ascension, no record that passes the
    filters has a NaN for right ascension, [main] returns an output,
    whatever the other options. *)
Theorem X17_run_completes (o : Options.t) (file : buffer) (h : Header.t) :
  main_header o file = Done h ->
  0 <= Header.starNameLength h ->
  name_offset h + Header.starNameLength h <= Header.numBytesPerStar h ->
  0 <= Header.numStars h ->
  Header.numStars h * Header.numBytesPerStar h <= CInt.INT_MAX - 28 ->
  exists stars,
    records h file (Z.to_nat (Header.numStars h)) 28 = Done stars
    /\ ((Options.sort o = Sort.RA ->
         Forall (fun s => IEEE.is_nan64 (Star.rightAscension s) = false)
                (survivors (Options.filterMagnitude o) stars)) ->
        exists out, main o file = Done out).
Proof.
  intros Hh Hname Hfit Hstars Hregion.
  destruct (main_header_facts _ _ _ Hh) as (Hmag & Hnl & Hn & _).
  pose proof (main_header_apparentMagnitude _ _ _ Hh) as Ha.
  pose proof Hh as Hinv. apply main_header_inv in Hinv.
  destruct Hinv as (h0 & _ & _ & Hsize & _ & Heq).
  assert (Hns : Header.numStars h0 = Header.numStars h) by (subst h; reflexivity).
  assert (Hst : Header.numBytesPerStar h0 = Header.numBytesPerStar h)
    by (subst h; reflexivity).
  rewrite Hns, Hst in Hsize. clear Heq Hns Hst.
  unfold CInt.in_int32, CInt.INT_MIN, CInt.INT_MAX in Hn, Hregion.
  pose proof (name_offset_lower h ltac:(lia)) as Hoff.
  assert (Hprod : 0 <= Header.numStars h * Header.numBytesPerStar h)
    by (apply Z.mul_nonneg_nonneg; lia).
  unfold CInt.mul, CInt.add in Hsize.
  rewrite (to_int32_small (Header.numStars h * Header.numBytesPerStar h)) in Hsize
    by (unfold CInt.in_int32, CInt.INT_MIN, CInt.INT_MAX; lia).
  rewrite to_int32_small in Hsize
    by (unfold CInt.in_int32, CInt.INT_MIN, CInt.INT_MAX; lia).
  unfold CInt.to_size_t in Hsize.
  rewrite Z.mod_small in Hsize
    by (change (2 ^ 64) with 18446744073709551616;
        change (2 ^ 31) with 2147483648 in Hregion; lia).
  destruct (records_defined h file (Header.numMagnitudes h - 1)
              (Z.to_nat (Header.numStars h)) 28) as (stars & Hrec);
    try assumption; try rewrite Z2Nat.id by lia; unfold CInt.INT_MAX;
    change (2 ^ 20) with 1048576; try lia.
  exists stars. split; [exact Hrec | ]. intros Hra.
  assert (Hkeys : keys_ordered (Options.filterMagnitude o) (Options.sort o) 0 stars
                  = true).
  { destruct (Options.sort o) eqn:Hsort.
    - apply keys_ordered_index; [lia | ].
      rewrite (records_length _ _ _ _ _ Hrec), Z2Nat.id by lia.
      change (2 ^ 31) with 2147483648 in *. lia.
    - apply keys_ordered_magnitude.
      apply (records_magnitudes h file (Z.to_nat (Header.numStars h)) 28 stars);
        [ | assumption | exact Hrec].
      change (2 ^ 20) with 1048576. lia.
    - apply keys_ordered_rightAscension. apply Hra. reflexivity. }
  pose proof (main_loop_complete h file (Options.filterMagnitude o)
                                 (Options.sort o) _ 0 28 [] stars Hrec Hkeys) as Hloop.
  unfold main. rewrite Hh. cbn [bind].
  destruct (Options.onlymeta o); [eexists; reflexivity | ].
  rewrite Hloop. cbn [bind]. eexists. reflexivity.
Qed.

(** [X17_run_completes] on the sample catalog, sorted by right
    ascension: neither of its two records has a NaN there. *)
Lemma X17_run_completes_witness :
  exists out,
    main (Options.set_sort Sort.RA (Options.default "catalog")) catalog_abc
    = Done out.
Proof.
  destruct (X17_run_completes (Options.set_sort Sort.RA (Options.default "catalog"))
                              catalog_abc header_abc)
    as (stars & Hrec & Hrun);
    [ vm_compute; reflexivity | vm_compute; discriminate
    | vm_compute; discriminate | vm_compute; discriminate
    | vm_compute; discriminate | ].
  apply Hrun. intros _.
  vm_compute in Hrec. apply Done_inj in Hrec. subst stars.
  match goal with
  | |- Forall ?P ?l => let l' := eval vm_compute in l in change (Forall P l')
  end.
  repeat (constructor; [vm_compute; reflexivity | ]). constructor.
Defined.

(** ** The command line *)

Lemma parse_arguments_app (stod : string -> option IEEE.f64)
      (to_int : IEEE.f64 -> option Z) (pre post : list string) (v : variables) :
  parse_arguments stod to_int (pre ++ post) v
  = match parse_arguments stod to_int pre v with
    | Next v' => parse_arguments stod to_int post v'
    | Stop e => Stop e
    end.
Proof.
  revert v. induction pre as [ | a pre IH]; intros v; [reflexivity | ].
  cbn [app parse_arguments].
  destruct (parse_argument stod to_int a v) as [v' | e]; [apply IH | reflexivity].
Qed.

(** Takes the second character of an option apart, case by case of the
    [switch]. *)
Ltac switch_on c :=
  repeat match goal with
         | |- context [Ascii.eqb c ?x] =>
             destruct (Ascii.eqb_spec c x); [subst c | ]
         end.

(** What one argument does to the variables, when the loop goes on. *)
Lemma parse_argument_Next (stod : string -> option IEEE.f64)
      (to_int : IEEE.f64 -> option Z) (a : string) (v v' : variables) :
  parse_argument stod to_int a v = Next v' ->
  Options.cformat (fst v') = Options.cformat (fst v) || String.eqb (std_string a) "-c"
  /\ Options.usefloat (fst v')
     = Options.usefloat (fst v) || String.eqb (std_string a) "-s"
  /\ Options.onlymeta (fst v')
     = Options.onlymeta (fst v) || String.eqb (std_string a) "-i"
  /\ Options.usename (fst v')
     = Options.usename (fst v) || String.eqb (std_string a) "-n"
  /\ Options.usetype (fst v')
     = Options.usetype (fst v) || String.eqb (std_string a) "-p"
  /\ snd v' = (if is_operand a then Some a else snd v).
Proof.
  unfold parse_argument, is_operand, single_letter.
  destruct v as [o file]. cbn [fst snd].
  destruct (std_string a) as [ | c0 [ | c1 [ | c2 r]]];
    cbn [char_at String.get String.length Nat.ltb Nat.leb Nat.eqb negb
         String.eqb].
  - change (Ascii.eqb zero "-") with false. cbn [negb].
    intros H. injection H as <-. cbn. rewrite ?orb_false_r. repeat split.
  - destruct (Ascii.eqb_spec c0 "-"); [discriminate | ].
    intros H. injection H as <-. cbn. rewrite ?orb_false_r. repeat split.
  - destruct (Ascii.eqb_spec c0 "-"); [subst c0 | ].
    + switch_on c1; intros H; try discriminate H;
        injection H as <-; cbn; rewrite ?orb_false_r, ?orb_true_r;
        repeat split; reflexivity.
    + intros H. injection H as <-. cbn. rewrite ?orb_false_r. repeat split.
  - destruct (Ascii.eqb_spec c0 "-"); [subst c0 | ].
    + switch_on c1; cbn [negb orb];
        repeat match goal with
               | |- context [match ?x with Some _ => _ | None => _ end] => destruct x
               | |- context [if ?c then _ else _] => destruct c
               end;
        intros H; try discriminate H;
        injection H as <-; cbn; rewrite ?orb_false_r, ?orb_true_r;
        repeat split; reflexivity.
    + intros H. injection H as <-. cbn. rewrite ?orb_false_r. repeat split.
Qed.

Lemma parse_arguments_Next (stod : string -> option IEEE.f64)
      (to_int : IEEE.f64 -> option Z) (args : list string) (v v' : variables) :
  parse_arguments stod to_int args v = Next v' ->
  Options.cformat (fst v') = Options.cformat (fst v) || given "-c" args
  /\ Options.usefloat (fst v') = Options.usefloat (fst v) || given "-s" args
  /\ Options.onlymeta (fst v') = Options.onlymeta (fst v) || given "-i" args
  /\ Options.usename (fst v') = Options.usename (fst v) || given "-n" args
  /\ Options.usetype (fst v') = Options.usetype (fst v) || given "-p" args
  /\ snd v' = last_operand args (snd v).
Proof.
  revert v. induction args as [ | a args IH]; intros v H.
  - cbn in H. injection H as <-. unfold given. cbn. rewrite !orb_false_r.
    repeat split.
  - cbn [parse_arguments] in H.
    destruct (parse_argument stod to_int a v) as [v1 | e] eqn:E; [ | discriminate].
    apply parse_argument_Next in E. destruct E as (E1 & E2 & E3 & E4 & E5 & E6).
    apply IH in H. destruct H as (H1 & H2 & H3 & H4 & H5 & H6).
    unfold given in *. cbn [existsb last_operand].
    rewrite H1, H2, H3, H4, H5, H6, E1, E2, E3, E4, E5, E6, !orb_assoc.
    repeat split.
Qed.

(** X18.  How the options must be spelled.  An option without value,
    [-c], [-s], [-i], [-m], [-r], [-n] or [-p], followed by any further
    character is reported as invalid.  [-le] and [-be] are recognized by
    their first three characters and [-h] and [-v] by their first two:
    whatever follows in the same argument is ignored. *)
Theorem X18_option_spelling (stod : string -> option IEEE.f64)
        (to_int : IEEE.f64 -> option Z) (v : variables) (c d : ascii)
        (rest : string) :
  (In c ["c"; "s"; "i"; "m"; "r"; "n"; "p"]%char -> d <> zero ->
   parse_argument stod to_int (String "-" (String c (String d rest))) v
   = Stop (InvalidOption (String "-" (String c (String d (std_string rest))))))
  /\ parse_argument stod to_int (String "-" (String "l" (String "e" rest))) v
     = Next (set_endian Endian.LITTLE (fst v), snd v)
  /\ parse_argument stod to_int (String "-" (String "b" (String "e" rest))) v
     = Next (set_endian Endian.BIG (fst v), snd v)
  /\ parse_argument stod to_int (String "-" (String "h" rest)) v = Stop Help
  /\ parse_argument stod to_int (String "-" (String "v" rest)) v = Stop Version.
Proof.
  split; [ | repeat split].
  intros Hc Hd. apply Ascii.eqb_neq in Hd.
  unfold parse_argument, single_letter. cbn [std_string].
  change (Ascii.eqb "-" zero) with false. cbv iota.
  rewrite Hd.
  cbn [In] in Hc.
  destruct Hc as [<- | [<- | [<- | [<- | [<- | [<- | [<- | []]]]]]]];
    reflexivity.
Qed.

(** X19.  What the options of a run are, when the argument loop lets
    the run go on: C format, single precision, summary only, names and
    spectral types are on exactly when [-c], [-s], [-i], [-n] and [-p]
    are among the arguments, in any position and any number of times;
    an option once given is not taken back by a later argument.  The
    input file is the last argument that does not start with a dash, and
    there is one. *)
Theorem X19_options_given (stod : string -> option IEEE.f64)
        (to_int : IEEE.f64 -> option Z) (prog : string) (args : list string)
        (o : Options.t) :
  command_line stod to_int (prog :: args) = Next o ->
  Options.cformat o = given "-c" args
  /\ Options.usefloat o = given "-s" args
  /\ Options.onlymeta o = given "-i" args
  /\ Options.usename o = given "-n" args
  /\ Options.usetype o = given "-p" args
  /\ last_operand args None = Some (Options.inputfile o)
  /\ existsb is_operand args = true.
Proof.
  unfold command_line. intros H.
  destruct (parse_arguments stod to_int args (Options.default "", None))
    as [[o' file] | e] eqn:E; [ | discriminate].
  apply parse_arguments_Next in E. cbn [fst snd Options.default] in E.
  destruct E as (E1 & E2 & E3 & E4 & E5 & E6).
  destruct file as [f | ]; [ | discriminate].
  injection H as <-.
  cbn [set_inputfile Options.cformat Options.usefloat Options.onlymeta
       Options.usename Options.usetype Options.inputfile].
  rewrite E1, E2, E3, E4, E5, <- E6.
  cbn [Options.cformat Options.usefloat Options.onlymeta Options.usename
       Options.usetype orb].
  repeat (split; [reflexivity | ]).
  destruct (existsb is_operand args) eqn:Hex; [reflexivity | ].
  exfalso. clear - E6 Hex.
  assert (Hnone : forall l found, existsb is_operand l = false ->
                                  last_operand l found = found).
  { induction l as [ | a l IH]; intros found Hl; [reflexivity | ].
    cbn [existsb] in Hl. apply orb_false_iff in Hl. destruct Hl as [Ha Hl].
    cbn [last_operand]. rewrite Ha. apply IH. exact Hl. }
  rewrite (Hnone _ _ Hex) in E6. discriminate.
Qed.

(** [X19_options_given] on the command line [sidus -c cat1 -f4.5 -n cat2]. *)
Lemma X19_options_given_witness :
  exists o,
    command_line stod_sample to_int_sample
                 ["sidus"; "-c"; "cat1"; "-f4.5"; "-n"; "cat2"]%string = Next o
    /\ Options.cformat o = true
    /\ Options.usetype o = false
    /\ Options.inputfile o = "cat2"%string.
Proof.
  eexists. split; [vm_compute; reflexivity | ].
  match goal with
  | |- Options.cformat ?o = _ /\ _ =>
      destruct (X19_options_given stod_sample to_int_sample "sidus"
                  ["-c"; "cat1"; "-f4.5"; "-n"; "cat2"]%string o eq_refl)
        as (Hc & _ & _ & _ & Hp & _)
  end.
  split; [exact Hc | ]. split; [exact Hp | reflexivity].
Defined.

(** X20.  The first argument that ends the run decides, and nothing after
    it is looked at.  In particular an argument that starts with [-h] or
    is [--help], coming after arguments that are accepted, makes the run
    print the usage and return 0, and likewise [-v] and [--version] for
    the version: with or without an input file, and whatever the later
    arguments are. *)
Theorem X20_first_ending_decides (stod : string -> option IEEE.f64)
        (to_int : IEEE.f64 -> option Z) (prog : string)
        (pre post : list string) (a : string) (v : variables) (e : ending) :
  parse_arguments stod to_int pre (Options.default "", None) = Next v ->
  (parse_argument stod to_int a v = Stop e ->
   command_line stod to_int (prog :: pre ++ a :: post) = Stop e)
  /\ (forall rest,
        command_line stod to_int
                     (prog :: pre ++ String "-" (String "h" rest) :: post)
        = Stop Help)
  /\ command_line stod to_int (prog :: pre ++ "--help"%string :: post) = Stop Help
  /\ (forall rest,
        command_line stod to_int
                     (prog :: pre ++ String "-" (String "v" rest) :: post)
        = Stop Version)
  /\ command_line stod to_int (prog :: pre ++ "--version"%string :: post)
     = Stop Version
  /\ status Help = Some 0 /\ status Version = Some 0.
Proof.
  intros Hpre.
  assert (Hstop : forall b e', parse_argument stod to_int b v = Stop e' ->
                               command_line stod to_int (prog :: pre ++ b :: post)
                               = Stop e').
  { intros b e' Hb. unfold command_line.
    rewrite parse_arguments_app, Hpre. cbn [parse_arguments]. rewrite Hb.
    reflexivity. }
  split; [apply Hstop | ].
  split; [intros rest; apply Hstop; reflexivity | ].
  split; [apply Hstop; reflexivity | ].
  split; [intros rest; apply Hstop; reflexivity | ].
  split; [apply Hstop; reflexivity | ].
  split; reflexivity.
Qed.

(** [X20_first_ending_decides] on the command line [sidus -c -hx -zz]. *)
Lemma X20_first_ending_decides_witness :
  command_line stod_sample to_int_sample ["sidus"; "-c"; "-hx"; "-zz"]%string
  = Stop Help.
Proof.
  destruct (X20_first_ending_decides stod_sample to_int_sample "sidus"
              ["-c"%string] ["-zz"%string] "-hx"
              (set_cformat true (Options.default ""), None) Help eq_refl)
    as (_ & Hh & _).
  exact (Hh "x"%string).
Defined.
